(** * The xai_sepolia chain client of seer: ingest and label decoding

    A shallow embedding of [blockchain/xai_sepolia/xai_sepolia.go].  Go
    strings are byte strings, modelled as [string]; [*big.Int] is [Z];
    [uint64] fields are [N]; a Go map is a [gmap] whose missing keys read
    as the zero value; a library call that returns [(value, error)] is a
    [result], a function of the client that does so is a pair whose
    second component is an [option] ([None] for nil); a run-time panic is
    an outcome of its own. *)

From Stdlib Require Import ZArith Lia Ascii String List Permutation.
From stdpp Require Import base option list gmap strings.

Local Open Scope string_scope.
Local Open Scope Z_scope.

(** ** Go string primitives *)

Module GoString.

(** [s[:n]] for a constant [n]: the first [n] bytes.  The bounds check
    is the caller's; see [slice_to]. *)
Definition take (n : nat) (s : string) : string := substring 0 n s.

(** [s[n:]]. *)
Definition drop (n : nat) (s : string) : string :=
  substring n (String.length s - n) s.

(** [s[:n]] with Go's bounds check: out of range is a panic ([None]). *)
Definition slice_to (n : nat) (s : string) : option string :=
  if (n <=? String.length s)%nat then Some (take n s) else None.

(** [s[n:]] with Go's bounds check. *)
Definition slice_from (n : nat) (s : string) : option string :=
  if (n <=? String.length s)%nat then Some (drop n s) else None.

(** [strings.HasPrefix]. *)
Fixpoint has_prefix (p s : string) : bool :=
  match p, s with
  | EmptyString, _ => true
  | String a p', String b s' => if Ascii.eqb a b then has_prefix p' s' else false
  | String _ _, EmptyString => false
  end.

(** [strings.Contains(s, sub)]. *)
Fixpoint contains (s sub : string) : bool :=
  if has_prefix sub s then true
  else match s with
       | EmptyString => false
       | String _ s' => contains s' sub
       end.

End GoString.

(** ** Records of the ingest core (the fields the index rows read) *)

Record XaiSepoliaTransaction := {
  tx_Hash : string;
  tx_BlockNumber : N;
  tx_BlockHash : string;
  tx_FromAddress : string;
  tx_ToAddress : string;
  tx_Input : string;
  tx_TransactionIndex : N;
  tx_TransactionType : N;
  tx_BlockTimestamp : N
}.

Record TransactionIndex := {
  ti_BlockNumber : N;
  ti_BlockHash : string;
  ti_BlockTimestamp : N;
  ti_FromAddress : string;
  ti_ToAddress : string;
  ti_RowID : N;
  ti_Selector : string;
  ti_TransactionHash : string;
  ti_TransactionIndex : N;
  ti_Type : N;
  ti_Path : string
}.

(** ** FetchAsProtoBlocks: the transaction index loop *)

(** [selector := "0x"; if len(transaction.Input) > 10 { selector = transaction.Input[:10] }] *)
Definition tx_selector (input : string) : string :=
  if (10 <? String.length input)%nat then GoString.take 10 input else "0x".

Definition transactionIndexRow (index : nat) (transaction : XaiSepoliaTransaction)
  : TransactionIndex :=
  {| ti_BlockNumber := tx_BlockNumber transaction;
     ti_BlockHash := tx_BlockHash transaction;
     ti_BlockTimestamp := tx_BlockTimestamp transaction;
     ti_FromAddress := tx_FromAddress transaction;
     ti_ToAddress := tx_ToAddress transaction;
     ti_RowID := N.of_nat index;
     ti_Selector := tx_selector (tx_Input transaction);
     ti_TransactionHash := tx_Hash transaction;
     ti_TransactionIndex := tx_TransactionIndex transaction;
     ti_Type := tx_TransactionType transaction;
     ti_Path := "" |}.

(** [for index, transaction := range parsedTransactions { ... append ... }] *)
Definition transactionIndex (parsedTransactions : list XaiSepoliaTransaction)
  : list TransactionIndex :=
  imap transactionIndexRow parsedTransactions.

(** The rule of the specification, for comparison: ["0x"] below ten
    characters, the first ten characters otherwise. *)
Definition spec_selector (input : string) : string :=
  if (String.length input <? 10)%nat then "0x" else GoString.take 10 input.

(** A transaction whose input is a selector and nothing else. *)
Definition selector_only_call : XaiSepoliaTransaction :=
  {| tx_Hash := "0xh"; tx_BlockNumber := 7; tx_BlockHash := "0xb";
     tx_FromAddress := "0xf"; tx_ToAddress := "0xt";
     tx_Input := "0xa9059cbb";
     tx_TransactionIndex := 0; tx_TransactionType := 2; tx_BlockTimestamp := 99 |}.

(** ** Hex codec: math/big's [SetString(s, 0)] and fmt's [%x]

    [fromHex] calls [number.SetString(hex, 0)] on a fresh [big.Int] and
    drops the success flag.  What it returns is therefore whatever the
    scanner left in the receiver, so the scanner of math/big is modelled
    with the value it leaves behind as well as its verdict.  (The
    documentation of [SetString] leaves that value open on failure; the
    model follows the scanner as implemented.) *)

Module BigInt.

(** The [prev] variable of [nat.scan]: ['.'], ['0'] or ['_']. *)
Inductive prev_char := PrevOther | PrevDigit | PrevSep.

Record scan_state := {
  sc_prev : prev_char;
  sc_invalSep : bool;
  sc_count : nat;
  sc_acc : Z
}.

Definition code (ch : ascii) : Z := Z.of_N (N_of_ascii ch).

(** The digit value [d1] of a character; [MaxBase + 1 = 63] when the
    character is no digit in any base. *)
Definition digit_val (ch : ascii) : Z :=
  let c := code ch in
  if (48 <=? c) && (c <=? 57) then c - 48
  else if (97 <=? c) && (c <=? 122) then c - 97 + 10
  else if (65 <=? c) && (c <=? 90) then c - 65 + 10
  else 63.

Definition is_prev_digit (p : prev_char) : bool :=
  match p with PrevDigit => true | _ => false end.

Definition is_prev_sep (p : prev_char) : bool :=
  match p with PrevSep => true | _ => false end.

(** The digit loop of [nat.scan] for base argument 0: underscores are
    separators, a character that is no digit of base [b] is unread and
    ends the loop.  Returns the state and the unread rest. *)
Fixpoint scan_digits (b : Z) (st : scan_state) (s : string) : scan_state * string :=
  match s with
  | EmptyString => (st, EmptyString)
  | String ch s' =>
      if Ascii.eqb ch "_" then
        scan_digits b
          {| sc_prev := PrevSep;
             sc_invalSep := sc_invalSep st || negb (is_prev_digit (sc_prev st));
             sc_count := sc_count st;
             sc_acc := sc_acc st |} s'
      else
        let d1 := digit_val ch in
        if b <=? d1 then (st, s)
        else
          scan_digits b
            {| sc_prev := PrevDigit;
               sc_invalSep := sc_invalSep st;
               sc_count := S (sc_count st);
               sc_acc := sc_acc st * b + d1 |} s'
  end.

(** The state of the digit loop after reading the digits [ds] whose
    value, continuing from the accumulator, is [v]. *)
Definition after (st : scan_state) (ds : string) (v : Z) : scan_state :=
  {| sc_prev := match ds with EmptyString => sc_prev st | _ => PrevDigit end;
     sc_invalSep := sc_invalSep st;
     sc_count := String.length ds + sc_count st;
     sc_acc := v |}.

Inductive base_prefix := NoPrefix | OctalZero | Letter.

Definition start (p : prev_char) (count : nat) : scan_state :=
  {| sc_prev := p; sc_invalSep := false; sc_count := count; sc_acc := 0 |}.

(** The base and prefix detection of [nat.scan] with [base == 0]:
    the actual base, the kind of prefix, the state the digit loop starts
    in, and the text the digit loop reads. *)
Definition detect_base (s : string) : Z * base_prefix * scan_state * string :=
  match s with
  | String "0" s1 =>
      match s1 with
      | EmptyString => (10, NoPrefix, start PrevDigit 1, EmptyString)
      | String c s2 =>
          if Ascii.eqb c "b" || Ascii.eqb c "B" then (2, Letter, start PrevDigit 0, s2)
          else if Ascii.eqb c "o" || Ascii.eqb c "O" then (8, Letter, start PrevDigit 0, s2)
          else if Ascii.eqb c "x" || Ascii.eqb c "X" then (16, Letter, start PrevDigit 0, s2)
          else (8, OctalZero, start PrevDigit 0, s1)
      end
  | _ => (10, NoPrefix, start PrevOther 0, s)
  end.

(** [nat.scan(r, 0, false)]: the magnitude it returns, whether it
    reports an error, and the unread rest. *)
Definition nat_scan (s : string) : Z * bool * string :=
  let '(b, prefix, st0, body) := detect_base s in
  let '(st, rest) := scan_digits b st0 body in
  let sep_err := sc_invalSep st || is_prev_sep (sc_prev st) in
  match sc_count st, prefix with
  | O, OctalZero => (0, sep_err, rest)
  | O, _ => (sc_acc st, true, rest)
  | S _, _ => (sc_acc st, sep_err, rest)
  end.

(** [new(big.Int).SetString(s, 0)]: the value the receiver holds
    afterwards, and the success flag.  An empty string fails in
    [scanSign] before the receiver is touched; a scan error leaves the
    magnitude scanned so far, unsigned; unread trailing text fails after
    the value and sign were stored. *)
Definition SetString (s : string) : Z * bool :=
  match s with
  | EmptyString => (0, false)
  | String ch s' =>
      let neg := Ascii.eqb ch "-" in
      let body := if neg || Ascii.eqb ch "+" then s' else s in
      let '(mag, err, rest) := nat_scan body in
      if err then (mag, false)
      else
        let v := if neg then - mag else mag in
        match rest with
        | EmptyString => (v, true)
        | String _ _ => (v, false)
        end
  end.

(** One lowercase hexadecimal digit. *)
Definition hex_char (d : Z) : ascii :=
  match String.get (Z.to_nat d) "0123456789abcdef" with
  | Some c => c
  | None => "0"%char
  end.

(** The digits of [n >= 0] in base 16, most significant first, in front
    of [tail]. *)
Fixpoint hex_digits (fuel : nat) (n : Z) (tail : string) : string :=
  match fuel with
  | O => String (hex_char n) tail
  | S fuel' =>
      if n <? 16 then String (hex_char n) tail
      else hex_digits fuel' (n / 16) (String (hex_char (n mod 16)) tail)
  end.

(** [x.Text(16)], which is what the verb [%x] prints for a [*big.Int]:
    a minus sign for a negative value, then the digits of the magnitude. *)
Definition Text16 (x : Z) : string :=
  let m := Z.abs x in
  let digits := hex_digits (Z.to_nat (Z.log2 m)) m EmptyString in
  if x <? 0 then String "-" digits else digits.

End BigInt.

(** [func toHex(number *big.Int) string { return fmt.Sprintf("0x%x", number) }] *)
Definition toHex (number : Z) : string := String.append "0x" (BigInt.Text16 number).

(** [func fromHex(hex string) *big.Int]: the receiver of [SetString],
    whatever the flag. *)
Definition fromHex (hex : string) : Z := fst (BigInt.SetString hex).

Inductive hex_result := HexOk (n : Z) | BadHex.

(** What a caller of [fromHex] observes: a number, always. *)
Definition fromHex_result (hex : string) : hex_result := HexOk (fromHex hex).

(** The codec of the specification, for comparison: an optional [0x] or
    [0X] prefix, then hexadecimal digits only; empty input is zero; any
    other character is the error [BadHex]. *)

Definition is_hex_digit (ch : ascii) : bool := BigInt.digit_val ch <? 16.

Fixpoint spec_hex_value (acc : Z) (s : string) : hex_result :=
  match s with
  | EmptyString => HexOk acc
  | String ch s' =>
      if is_hex_digit ch then spec_hex_value (acc * 16 + BigInt.digit_val ch) s'
      else BadHex
  end.

(** A lowercase hexadecimal digit, [0-9a-f]. *)
Definition is_lower_hex (ch : ascii) : bool :=
  let c := BigInt.code ch in
  ((48 <=? c) && (c <=? 57)) || ((97 <=? c) && (c <=? 102)).

Fixpoint all_chars (p : ascii -> bool) (s : string) : bool :=
  match s with
  | EmptyString => true
  | String ch s' => p ch && all_chars p s'
  end.

Definition spec_from_hex (s : string) : hex_result :=
  match s with
  | String "0" (String "x" s') => spec_hex_value 0 s'
  | String "0" (String "X" s') => spec_hex_value 0 s'
  | _ => spec_hex_value 0 s
  end.

(** The number a string of digits of base [b] writes, continuing from
    [acc]; [None] when some character is no digit of that base. *)
Fixpoint digits_value (b acc : Z) (s : string) : option Z :=
  match s with
  | EmptyString => Some acc
  | String ch s' =>
      if BigInt.digit_val ch <? b then digits_value b (acc * b + BigInt.digit_val ch) s'
      else None
  end.

(** ** ClientFilterLogs: the adaptive log range fetch *)

Module FilterLogs.

(** The text the loop looks for in an error message. *)
Definition too_many_marker : string := "query returned more than 10000 results".

Definition too_many (msg : string) : bool := GoString.contains msg too_many_marker.

Section Loop.
Variable EventJson : Type.

(** What one [eth_getLogs] call comes back with: [result] and a nil
    error, or an error with its message. *)
Inductive rpc_result :=
| RpcOk (result : list EventJson)
| RpcErr (msg : string).

(** The endpoint: the [n]-th call of a fetch, with the [fromBlock] and
    [toBlock] texts of the request.  Addresses and topics are passed
    through unchanged on every call and play no part in the loop. *)
Definition endpoint := nat -> string -> string -> rpc_result.

(** The loop variables. *)
Record loop_state := {
  fromBlock : Z;
  batchStep : Z;
  logs : list EventJson
}.

(** [nextBlock := fromBlock + batchStep], clamped to [toBlock]. *)
Definition nextBlock (toBlock : Z) (st : loop_state) : Z :=
  let n := fromBlock st + batchStep st in
  if toBlock <? n then toBlock else n.

(** How one pass through the loop body ends. *)
Inductive outcome :=
| Continue (st : loop_state)   (* next iteration *)
| Break (st : loop_state)      (* leaves the loop: [return logs, nil] *)
| Abort (msg : string).        (* [return nil, err] *)

(** The loop body, given the answer to its call.  [big.Int.Div] is
    Euclidean division, which for the divisor 2 is [Z.div]. *)
Definition iteration (toBlock : Z) (st : loop_state) (resp : rpc_result) : outcome :=
  let next := nextBlock toBlock st in
  match resp with
  | RpcErr msg =>
      if too_many msg then
        let st1 := {| fromBlock := fromBlock st;
                      batchStep := batchStep st / 2;
                      logs := logs st |} in
        if batchStep st1 <? 1 then
          let st2 := {| fromBlock := next + 1;
                        batchStep := batchStep st1;
                        logs := logs st1 |} in
          if toBlock <? fromBlock st2 then Break st2 else Continue st2
        else Continue st1
      else Abort msg
  | RpcOk result =>
      let st1 := {| fromBlock := next + 1;
                    batchStep := batchStep st;
                    logs := logs st ++ result |} in
      if toBlock <? fromBlock st1 then Break st1 else Continue st1
  end.

(** The request of an iteration. *)
Definition call (rpc : endpoint) (toBlock : Z) (n : nat) (st : loop_state) : rpc_result :=
  rpc n (toHex (fromBlock st)) (toHex (nextBlock toBlock st)).

(** The [for] loop, [n] calls having been made; [None] is fuel
    exhausted. *)
Fixpoint loop (fuel : nat) (rpc : endpoint) (toBlock : Z) (n : nat) (st : loop_state)
  : option (list EventJson * option string) :=
  match fuel with
  | O => None
  | S fuel' =>
      match iteration toBlock st (call rpc toBlock n st) with
      | Continue st' => loop fuel' rpc toBlock (S n) st'
      | Break st' => Some (logs st', None)
      | Abort msg => Some ([], Some msg)
      end
  end.

Definition init (from to : Z) : loop_state :=
  {| fromBlock := from; batchStep := to - from; logs := [] |}.

(** A number of iterations no run exceeds (see [loop_terminates]). *)
Definition enough (from to : Z) : nat := S (Z.to_nat (2 * (to - from) + 1)).

Definition ClientFilterLogs (rpc : endpoint) (from to : Z)
  : option (list EventJson * option string) :=
  loop (enough from to) rpc to 0 (init from to).

(** The windows a run asks for, in order. *)
Fixpoint requests (fuel : nat) (rpc : endpoint) (toBlock : Z) (n : nat) (st : loop_state)
  : list (Z * Z) :=
  match fuel with
  | O => []
  | S fuel' =>
      (fromBlock st, nextBlock toBlock st) ::
      match iteration toBlock st (call rpc toBlock n st) with
      | Continue st' => requests fuel' rpc toBlock (S n) st'
      | _ => []
      end
  end.

(** Blocks left plus the step: what every further iteration lowers. *)
Definition distance (toBlock : Z) (st : loop_state) : nat :=
  Z.to_nat (toBlock - fromBlock st + 1 + batchStep st).

(** The state an outcome carries, when it carries one. *)
Definition state_of (o : outcome) : option loop_state :=
  match o with
  | Continue st | Break st => Some st
  | Abort _ => None
  end.

(** *** An endpoint with a cap on the window *)

(** The logs of each block of the chain, in log-index order. *)
Variable block_logs : Z -> list EventJson.

(** The logs of blocks [a] through [b], by block then log index. *)
Definition logs_between (a b : Z) : list EventJson :=
  concat (map block_logs (seqZ a (b - a + 1))).

(** Answers a window of at most [K] blocks with its logs and any
    larger one with the too-many-results error. *)
Definition capped (K : Z) : endpoint :=
  fun _ from_text to_text =>
    let a := fromHex from_text in
    let b := fromHex to_text in
    if b - a + 1 <=? K then RpcOk (logs_between a b)
    else RpcErr "query returned more than 10000 results".

End Loop.

Arguments RpcOk {EventJson} result.
Arguments RpcErr {EventJson} msg.
Arguments fromBlock {EventJson} _.
Arguments batchStep {EventJson} _.
Arguments logs {EventJson} _.
Arguments Build_loop_state {EventJson}.
Arguments nextBlock {EventJson} toBlock st.
Arguments Continue {EventJson} st.
Arguments Break {EventJson} st.
Arguments Abort {EventJson} msg.
Arguments iteration {EventJson} toBlock st resp.
Arguments call {EventJson} rpc toBlock n st.
Arguments loop {EventJson} fuel rpc toBlock n st.
Arguments init {EventJson} from to.
Arguments requests {EventJson} fuel rpc toBlock n st.
Arguments distance {EventJson} toBlock st.
Arguments ClientFilterLogs {EventJson} rpc from to.
Arguments state_of {EventJson} o.
Arguments logs_between {EventJson} block_logs a b.
Arguments capped {EventJson} block_logs K.

End FilterLogs.

(** A chain with one log in every block, tagged (block, log index). *)
Definition one_log_per_block (b : Z) : list (Z * Z) := [(b, 0)].

(** ** FetchAsProtoEvents: the log index loop *)

Record XaiSepoliaEventLog := {
  ev_Address : string;
  ev_Topics : list string;
  ev_Data : string;
  ev_BlockNumber : N;
  ev_TransactionHash : string;
  ev_LogIndex : N;
  ev_BlockHash : string;
  ev_Removed : bool
}.

Record BlockCache := {
  bc_BlockNumber : N;
  bc_BlockHash : string;
  bc_BlockTimestamp : N
}.

(** [Selector], [Topic1] and [Topic2] are [*string]: [None] is nil. *)
Record LogIndex := {
  li_Address : string;
  li_BlockNumber : N;
  li_BlockHash : string;
  li_BlockTimestamp : N;
  li_TransactionHash : string;
  li_Selector : option string;
  li_Topic1 : option string;
  li_Topic2 : option string;
  li_RowID : N;
  li_LogIndex : N;
  li_Path : string
}.

(** Reading a Go map at a key it does not hold gives the zero value. *)
Definition zero_BlockCache : BlockCache :=
  {| bc_BlockNumber := 0%N; bc_BlockHash := ""; bc_BlockTimestamp := 0%N |}.

Definition cache_read (blocksCache : gmap N BlockCache) (number : N) : BlockCache :=
  default zero_BlockCache (blocksCache !! number).

Definition logIndexRow (blocksCache : gmap N BlockCache) (index : nat)
  (event : XaiSepoliaEventLog) : LogIndex :=
  let topics := ev_Topics event in
  let topic0 := if (length topics =? 0)%nat then None else topics !! 0%nat in
  let topic1 := if (1 <? length topics)%nat then topics !! 1%nat else None in
  let topic2 := if (2 <? length topics)%nat then topics !! 2%nat else None in
  {| li_Address := ev_Address event;
     li_BlockNumber := ev_BlockNumber event;
     li_BlockHash := ev_BlockHash event;
     li_BlockTimestamp := bc_BlockTimestamp (cache_read blocksCache (ev_BlockNumber event));
     li_TransactionHash := ev_TransactionHash event;
     li_Selector := topic0;
     li_Topic1 := topic1;
     li_Topic2 := topic2;
     li_RowID := N.of_nat index;
     li_LogIndex := ev_LogIndex event;
     li_Path := "" |}.

(** [for index, event := range parsedEvents { ... append ... }] *)
Definition eventsIndex (blocksCache : gmap N BlockCache)
  (parsedEvents : list XaiSepoliaEventLog) : list LogIndex :=
  imap (logIndexRow blocksCache) parsedEvents.

Definition approval_log : XaiSepoliaEventLog :=
  {| ev_Address := "0xc"; ev_Topics := ["0xt0"; "0xt1"]; ev_Data := "0x";
     ev_BlockNumber := 12; ev_TransactionHash := "0xh"; ev_LogIndex := 3;
     ev_BlockHash := "0xb"; ev_Removed := false |}.

(** ** The label decoders *)

(** A Go call that returns [(value, error)]. *)
Inductive result (E A : Type) :=
| Ok (a : A)
| Err (e : E).
Arguments Ok {E A} a.
Arguments Err {E A} e.

(** A function body that either returns or panics. *)
Inductive exec (A : Type) :=
| Returns (a : A)
| Panics.
Arguments Returns {A} a.
Arguments Panics {A}.

Record EventLabel := {
  el_Label : string;
  el_LabelName : string;
  el_LabelType : string;
  el_BlockNumber : N;
  el_BlockHash : string;
  el_Address : string;
  el_TransactionHash : string;
  el_LabelData : string;
  el_BlockTimestamp : N;
  el_LogIndex : N
}.

Record TransactionLabel := {
  tl_Address : string;
  tl_BlockNumber : N;
  tl_BlockHash : string;
  tl_CallerAddress : string;
  tl_LabelName : string;
  tl_LabelType : string;
  tl_OriginAddress : string;
  tl_Label : string;
  tl_TransactionHash : string;
  tl_LabelData : string;
  tl_BlockTimestamp : N
}.

(** [abiMap[address][selector][key]]: each missing level reads as the
    zero value, a nil map and in the end the empty string. *)
Definition abi_read (abiMap : gmap string (gmap string (gmap string string)))
  (address selector key : string) : string :=
  default "" (default ∅ (default ∅ (abiMap !! address) !! selector) !! key).

(** [blocksCache[number]] of the label decoders, a [map[uint64]uint64]. *)
Definition timestamp_read (blocksCache : gmap N N) (number : N) : N :=
  default 0%N (blocksCache !! number).

Module LabelDecoder.
Section Decoder.
(** The collaborators of the decoders: errors, raw bytes, a parsed
    ABI and decoded arguments, with the library calls that produce
    them. *)
Variables (error bytes ABI Args : Type).
Variable base64_DecodeString : string -> result error bytes.
Variable Unmarshal_event : bytes -> result error XaiSepoliaEventLog.
Variable Unmarshal_transaction : bytes -> result error XaiSepoliaTransaction.
Variable abi_JSON : string -> result error ABI.
Variable DecodeLogArgsToLabelData : ABI -> list string -> string -> result error Args.
Variable hex_DecodeString : string -> result error bytes.
Variable DecodeTransactionInputDataToInterface : ABI -> bytes -> result error Args.
Variable json_Marshal : Args -> result error string.
Variable SeerCrawlerLabel : string.

(** [DecodeProtoEventLogs]: decode every record, first failure wins. *)
Fixpoint decode_events_loop (events : list XaiSepoliaEventLog) (data : list string)
  : result error (list XaiSepoliaEventLog) :=
  match data with
  | [] => Ok events
  | d :: data' =>
      match base64_DecodeString d with
      | Err e => Err e
      | Ok base64Decoded =>
          match Unmarshal_event base64Decoded with
          | Err e => Err e
          | Ok event => decode_events_loop (events ++ [event]) data'
          end
      end
  end.

(** One record through base64 and the binary decoder. *)
Definition event_of_record (d : string) : result error XaiSepoliaEventLog :=
  match base64_DecodeString d with
  | Err e => Err e
  | Ok raw => Unmarshal_event raw
  end.

Definition decodes_to (d : string) (event : XaiSepoliaEventLog) : Prop :=
  event_of_record d = Ok event.

Definition DecodeProtoEventLogs (data : list string) :=
  decode_events_loop [] data.

(** [DecodeProtoTransactions]. *)
Fixpoint decode_transactions_loop (transactions : list XaiSepoliaTransaction)
  (data : list string) : result error (list XaiSepoliaTransaction) :=
  match data with
  | [] => Ok transactions
  | d :: data' =>
      match base64_DecodeString d with
      | Err e => Err e
      | Ok base64Decoded =>
          match Unmarshal_transaction base64Decoded with
          | Err e => Err e
          | Ok transaction =>
              decode_transactions_loop (transactions ++ [transaction]) data'
          end
      end
  end.

Definition DecodeProtoTransactions (data : list string) :=
  decode_transactions_loop [] data.

Variable blocksCache : gmap N N.
Variable abiMap : gmap string (gmap string (gmap string string)).

(** The body of the event loop after the topics check: the label of
    one event with selector [topicSelector], or the error that ends
    the call. *)
Definition event_label (event : XaiSepoliaEventLog) (topicSelector : string)
  : result error EventLabel :=
  match abi_JSON (abi_read abiMap (ev_Address event) topicSelector "abi") with
  | Err e => Err e
  | Ok contractAbi =>
      match DecodeLogArgsToLabelData contractAbi (ev_Topics event) (ev_Data event) with
      | Err e => Err e
      | Ok decodedArgs =>
          match json_Marshal decodedArgs with
          | Err e => Err e
          | Ok labelDataString =>
              Ok {| el_Label := SeerCrawlerLabel;
                    el_LabelName := abi_read abiMap (ev_Address event) topicSelector "abi_name";
                    el_LabelType := "event";
                    el_BlockNumber := ev_BlockNumber event;
                    el_BlockHash := ev_BlockHash event;
                    el_Address := ev_Address event;
                    el_TransactionHash := ev_TransactionHash event;
                    el_LabelData := labelDataString;
                    el_BlockTimestamp := timestamp_read blocksCache (ev_BlockNumber event);
                    el_LogIndex := ev_LogIndex event |}
          end
      end
  end.

(** [label] is the label the loop body makes of [event]. *)
Definition labelled (event : XaiSepoliaEventLog) (label : EventLabel) : Prop :=
  exists topic more, ev_Topics event = topic :: more /\ event_label event topic = Ok label.

Definition has_topics (event : XaiSepoliaEventLog) : bool :=
  match ev_Topics event with [] => false | _ :: _ => true end.

(** [for _, event := range decodedEvents]: [continue] on no topics,
    [return nil, err] on a failure, append otherwise. *)
Fixpoint event_labels_loop (labels : list EventLabel)
  (decodedEvents : list XaiSepoliaEventLog) : list EventLabel * option error :=
  match decodedEvents with
  | [] => (labels, None)
  | event :: rest =>
      match ev_Topics event with
      | [] => event_labels_loop labels rest
      | topicSelector :: _ =>
          match event_label event topicSelector with
          | Err e => ([], Some e)
          | Ok eventLabel => event_labels_loop (labels ++ [eventLabel]) rest
          end
      end
  end.

Definition DecodeProtoEventsToLabels (events : list string)
  : list EventLabel * option error :=
  match DecodeProtoEventLogs events with
  | Err e => ([], Some e)
  | Ok decodedEvents => event_labels_loop [] decodedEvents
  end.

(** The body of the transaction loop.
    [selector := transaction.Input[:10]] and [transaction.Input[2:]]
    are slice expressions with Go's bounds check and nothing in front
    of them; the body yields a label, an error that ends the call, or
    a panic. *)
Definition transaction_label (transaction : XaiSepoliaTransaction)
  : exec (result error TransactionLabel) :=
  match GoString.slice_to 10 (tx_Input transaction) with
  | None => Panics
  | Some selector =>
      match abi_JSON (abi_read abiMap (tx_ToAddress transaction) selector "abi") with
      | Err e => Returns (Err e)
      | Ok contractAbi =>
          match GoString.slice_from 2 (tx_Input transaction) with
          | None => Panics
          | Some hex_text =>
              match hex_DecodeString hex_text with
              | Err e => Returns (Err e)
              | Ok inputData =>
                  match DecodeTransactionInputDataToInterface contractAbi inputData with
                  | Err e => Returns (Err e)
                  | Ok decodedArgs =>
                      match json_Marshal decodedArgs with
                      | Err e => Returns (Err e)
                      | Ok labelDataString =>
                          Returns (Ok
                            {| tl_Address := tx_ToAddress transaction;
                               tl_BlockNumber := tx_BlockNumber transaction;
                               tl_BlockHash := tx_BlockHash transaction;
                               tl_CallerAddress := tx_FromAddress transaction;
                               tl_LabelName :=
                                 abi_read abiMap (tx_ToAddress transaction) selector "abi_name";
                               tl_LabelType := "tx_call";
                               tl_OriginAddress := tx_FromAddress transaction;
                               tl_Label := SeerCrawlerLabel;
                               tl_TransactionHash := tx_Hash transaction;
                               tl_LabelData := labelDataString;
                               tl_BlockTimestamp :=
                                 timestamp_read blocksCache (tx_BlockNumber transaction) |})
                      end
                  end
              end
          end
      end
  end.

Definition short_input (transaction : XaiSepoliaTransaction) : Prop :=
  (String.length (tx_Input transaction) < 10)%nat.

Definition labels_fine (transaction : XaiSepoliaTransaction) : Prop :=
  exists label, transaction_label transaction = Returns (Ok label).

(** [for _, transaction := range decodedTransactions]. *)
Fixpoint transaction_labels_loop (labels : list TransactionLabel)
  (decodedTransactions : list XaiSepoliaTransaction)
  : exec (list TransactionLabel * option error) :=
  match decodedTransactions with
  | [] => Returns (labels, None)
  | transaction :: rest =>
      match transaction_label transaction with
      | Panics => Panics
      | Returns (Err e) => Returns ([], Some e)
      | Returns (Ok transactionLabel) =>
          transaction_labels_loop (labels ++ [transactionLabel]) rest
      end
  end.

Definition DecodeProtoTransactionsToLabels (transactions : list string)
  : exec (list TransactionLabel * option error) :=
  match DecodeProtoTransactions transactions with
  | Err e => Returns ([], Some e)
  | Ok decodedTransactions => transaction_labels_loop [] decodedTransactions
  end.

End Decoder.
End LabelDecoder.

(** ** FetchBlocksInRangeAsync: goroutines under a semaphore

    One goroutine per block number, interleaved step by step.  Channel
    and mutex operations are the synchronisation points of the function,
    so a step is what a goroutine does up to and including its next such
    operation. *)

Module AsyncFetch.
Section Machine.
Variables (BlockJson error : Type).

(** What [GetBlockByNumber] answers for each block number during the
    call under study; every number is asked for once. *)
Variable GetBlockByNumber : Z -> result error BlockJson.

(** The capacity of [sem]. *)
Variable maxRequests : nat.

(** Where a goroutine stands. *)
Inductive pc :=
| Spawned                      (* before [sem <- struct{}{}] *)
| Calling                      (* slot taken, [GetBlockByNumber] in flight *)
| Got (block : BlockJson)      (* the call returned a block *)
| Failed (getErr : error)      (* the call returned an error *)
| Appended                     (* block appended, before [<-sem] *)
| Exited (released : bool).    (* returned; did it give its slot back? *)

Record state := {
  tasks : list (Z * pc);       (* one goroutine per block number *)
  sem : nat;                   (* items buffered in [sem] *)
  errChan : option error;      (* the one slot of [errChan] *)
  blocks : list BlockJson;     (* the shared slice *)
  failures : list error        (* history: errors in the order their
                                  goroutines reached the [select] *)
}.

Definition blockNumbersRange (from to : Z) : list Z := seqZ from (to - from + 1).

Definition init (from to : Z) : state :=
  {| tasks := (fun b => (b, Spawned)) <$> blockNumbersRange from to;
     sem := 0;
     errChan := None;
     blocks := [];
     failures := [] |}.

Definition set_pc (i : nat) (b : Z) (p : pc) (st : state) : list (Z * pc) :=
  <[i := (b, p)]> (tasks st).

(** The next step of goroutine [i], when it can take one. *)
Definition fire (i : nat) (st : state) : option state :=
  match tasks st !! i with
  | None => None
  | Some (b, Spawned) =>
      (* [sem <- struct{}{}] blocks while the buffer is full *)
      if (sem st <? maxRequests)%nat then
        Some {| tasks := set_pc i b Calling st; sem := S (sem st);
                errChan := errChan st; blocks := blocks st;
                failures := failures st |}
      else None
  | Some (b, Calling) =>
      match GetBlockByNumber b with
      | Ok block =>
          Some {| tasks := set_pc i b (Got block) st; sem := sem st;
                  errChan := errChan st; blocks := blocks st;
                  failures := failures st |}
      | Err getErr =>
          Some {| tasks := set_pc i b (Failed getErr) st; sem := sem st;
                  errChan := errChan st; blocks := blocks st;
                  failures := failures st |}
      end
  | Some (b, Got block) =>
      (* [mu.Lock(); blocks = append(blocks, block); mu.Unlock()] *)
      Some {| tasks := set_pc i b Appended st; sem := sem st;
              errChan := errChan st; blocks := blocks st ++ [block];
              failures := failures st |}
  | Some (b, Failed getErr) =>
      (* [select { case errChan <- getErr: default: }] and [return] *)
      Some {| tasks := set_pc i b (Exited false) st; sem := sem st;
              errChan := match errChan st with
                         | None => Some getErr
                         | Some first => Some first
                         end;
              blocks := blocks st;
              failures := failures st ++ [getErr] |}
  | Some (b, Appended) =>
      (* [<-sem] *)
      match sem st with
      | O => None
      | S n =>
          Some {| tasks := set_pc i b (Exited true) st; sem := n;
                  errChan := errChan st; blocks := blocks st;
                  failures := failures st |}
      end
  | Some (b, Exited _) => None
  end.

Definition step (st st' : state) : Prop := exists i, fire i st = Some st'.

(** The states of a call on the range [from, to]. *)
Inductive reachable (from to : Z) : state -> Prop :=
| reach_init : reachable from to (init from to)
| reach_step st st' : reachable from to st -> step st st' -> reachable from to st'.

(** A schedule names the goroutine that moves next; a goroutine that
    cannot move leaves the state as it is. *)
Fixpoint run (schedule : list nat) (st : state) : state :=
  match schedule with
  | [] => st
  | i :: schedule' =>
      match fire i st with
      | Some st' => run schedule' st'
      | None => run schedule' st
      end
  end.

Definition is_exited (t : Z * pc) : bool :=
  match snd t with Exited _ => true | _ => false end.

Definition is_calling (t : Z * pc) : bool :=
  match snd t with Calling => true | _ => false end.

(** [wg.Wait()] returns. *)
Definition settled (st : state) : bool := forallb is_exited (tasks st).


(** After [wg.Wait()]: [if err := <-errChan; err != nil { return nil, err }]
    and [return blocks, nil]. *)
Definition returned (st : state) : list BlockJson * option error :=
  match errChan st with
  | Some err => ([], Some err)
  | None => (blocks st, None)
  end.

(** Steps a goroutine still has ahead of it when nothing fails. *)
Definition remaining (t : Z * pc) : nat :=
  match snd t with
  | Spawned => 4
  | Calling => 3
  | Got _ => 2
  | Failed _ => 1
  | Appended => 1
  | Exited _ => 0
  end.

Definition work_left (st : state) : nat := sum_list_with remaining (tasks st).

(** *** What the proofs keep track of *)

Definition count_if (p : Z * pc -> bool) (l : list (Z * pc)) : nat :=
  sum_list_with (fun t => if p t then 1%nat else 0%nat) l.

(** The goroutine has put an item into [sem] and not taken one out. *)
Definition holds_slot (t : Z * pc) : bool :=
  match snd t with
  | Spawned | Exited true => false
  | Calling | Got _ | Failed _ | Appended | Exited false => true
  end.

(** The goroutine is between two of its own steps. *)
Definition is_active (t : Z * pc) : bool :=
  match snd t with
  | Calling | Got _ | Failed _ | Appended => true
  | Spawned | Exited _ => false
  end.

(** What a goroutine carries agrees with the answer of the transport. *)
Definition task_ok (t : Z * pc) : Prop :=
  match snd t with
  | Spawned | Calling => True
  | Got block => GetBlockByNumber (fst t) = Ok block
  | Failed getErr => GetBlockByNumber (fst t) = Err getErr
  | Appended | Exited true => exists block, GetBlockByNumber (fst t) = Ok block
  | Exited false => exists getErr, GetBlockByNumber (fst t) = Err getErr
  end.

Definition block_of (b : Z) : list BlockJson :=
  match GetBlockByNumber b with Ok block => [block] | Err _ => [] end.

Definition error_of (b : Z) : list error :=
  match GetBlockByNumber b with Ok _ => [] | Err getErr => [getErr] end.

(** The blocks of the goroutines that have appended theirs. *)
Definition appended_blocks (l : list (Z * pc)) : list BlockJson :=
  flat_map (fun t => match snd t with
                     | Appended | Exited true => block_of (fst t)
                     | _ => []
                     end) l.

(** The errors of the goroutines that have been through the [select]. *)
Definition failed_errors (l : list (Z * pc)) : list error :=
  flat_map (fun t => match snd t with
                     | Exited false => error_of (fst t)
                     | _ => []
                     end) l.

(** The blocks of the whole range, in range order. *)
Definition answers (from to : Z) : list BlockJson :=
  flat_map block_of (blockNumbersRange from to).

(** No call of the range fails. *)
Definition no_failure (from to : Z) : Prop :=
  forall b, b ∈ blockNumbersRange from to -> exists block, GetBlockByNumber b = Ok block.

(** The invariant of the machine. *)
Record invariant (from to : Z) (st : state) : Prop := {
  inv_numbers : fst <$> tasks st = blockNumbersRange from to;
  inv_sem : sem st = count_if holds_slot (tasks st);
  inv_cap : (sem st <= maxRequests)%nat;
  inv_tasks : Forall (task_ok) (tasks st);
  inv_blocks : blocks st ≡ₚ appended_blocks (tasks st);
  inv_errChan : errChan st = head (failures st);
  inv_failures : failures st ≡ₚ failed_errors (tasks st)
}.

(** Transport calls in flight. *)
Definition in_flight (st : state) : nat := count_if is_calling (tasks st).

End Machine.

Arguments Spawned {BlockJson error}.
Arguments Calling {BlockJson error}.
Arguments Got {BlockJson error} block.
Arguments Failed {BlockJson error} getErr.
Arguments Appended {BlockJson error}.
Arguments Exited {BlockJson error} released.
Arguments tasks {BlockJson error} _.
Arguments sem {BlockJson error} _.
Arguments errChan {BlockJson error} _.
Arguments blocks {BlockJson error} _.
Arguments failures {BlockJson error} _.
Arguments init {BlockJson error} from to.
Arguments fire {BlockJson error} GetBlockByNumber maxRequests i st.
Arguments step {BlockJson error} GetBlockByNumber maxRequests st st'.
Arguments reachable {BlockJson error} GetBlockByNumber maxRequests from to _.
Arguments run {BlockJson error} GetBlockByNumber maxRequests schedule st.
Arguments settled {BlockJson error} st.
Arguments in_flight {BlockJson error} st.
Arguments returned {BlockJson error} st.
Arguments work_left {BlockJson error} st.
Arguments is_exited {BlockJson error} t.
Arguments is_calling {BlockJson error} t.
Arguments remaining {BlockJson error} t.
Arguments count_if {BlockJson error} p l.
Arguments holds_slot {BlockJson error} t.
Arguments is_active {BlockJson error} t.
Arguments task_ok {BlockJson error} GetBlockByNumber t.
Arguments block_of {BlockJson error} GetBlockByNumber b.
Arguments error_of {BlockJson error} GetBlockByNumber b.
Arguments appended_blocks {BlockJson error} GetBlockByNumber l.
Arguments failed_errors {BlockJson error} GetBlockByNumber l.
Arguments answers {BlockJson error} GetBlockByNumber from to.
Arguments no_failure {BlockJson error} GetBlockByNumber from to.
Arguments invariant {BlockJson error} GetBlockByNumber maxRequests from to st.
Arguments inv_numbers {BlockJson error GetBlockByNumber maxRequests from to st} _.
Arguments inv_sem {BlockJson error GetBlockByNumber maxRequests from to st} _.
Arguments inv_cap {BlockJson error GetBlockByNumber maxRequests from to st} _.
Arguments inv_tasks {BlockJson error GetBlockByNumber maxRequests from to st} _.
Arguments inv_blocks {BlockJson error GetBlockByNumber maxRequests from to st} _.
Arguments inv_errChan {BlockJson error GetBlockByNumber maxRequests from to st} _.
Arguments inv_failures {BlockJson error GetBlockByNumber maxRequests from to st} _.

End AsyncFetch.

(** ** Sample collaborators

    Small stand-ins for the libraries and the transport, to run the
    models on concrete batches and ranges. *)

Module Sample.

(** Base64 text that does not contain ['!']. *)
Definition base64_DecodeString (d : string) : result string string :=
  if GoString.contains d "!" then Err "illegal base64 data" else Ok d.

(** An event whose one topic, if any, is the payload itself. *)
Definition Unmarshal_event (raw : string) : result string XaiSepoliaEventLog :=
  Ok {| ev_Address := "0xc";
        ev_Topics := if String.eqb raw "" then [] else [raw];
        ev_Data := "0x";
        ev_BlockNumber := 12;
        ev_TransactionHash := "0xh";
        ev_LogIndex := 3;
        ev_BlockHash := "0xb";
        ev_Removed := false |}.

(** A transaction whose input is the payload itself. *)
Definition Unmarshal_transaction (raw : string) : result string XaiSepoliaTransaction :=
  Ok {| tx_Hash := "0xh"; tx_BlockNumber := 12; tx_BlockHash := "0xb";
        tx_FromAddress := "0xf"; tx_ToAddress := "0xc";
        tx_Input := raw;
        tx_TransactionIndex := 0; tx_TransactionType := 2; tx_BlockTimestamp := 99 |}.

(** An ABI parser that rejects the empty text. *)
Definition abi_JSON (text : string) : result string string :=
  if String.eqb text "" then Err "EOF" else Ok text.

Definition DecodeLogArgsToLabelData (contractAbi : string) (topics : list string)
  (data : string) : result string string := Ok "{}".

Definition hex_DecodeString (text : string) : result string string := Ok text.

Definition DecodeTransactionInputDataToInterface (contractAbi inputData : string)
  : result string string := Ok "{}".

Definition json_Marshal (decodedArgs : string) : result string string := Ok decodedArgs.

Definition abiMap : gmap string (gmap string (gmap string string)) :=
  {[ "0xc" := {[ "0xt" := <[ "abi_name" := "Transfer" ]> {[ "abi" := "[]" ]} ]} ]}.

Definition blocksCache : gmap N N := {[ 12%N := 1700000000%N ]}.

Definition DecodeProtoEventsToLabels : list string -> list EventLabel * option string :=
  LabelDecoder.DecodeProtoEventsToLabels string string string string
    base64_DecodeString Unmarshal_event abi_JSON DecodeLogArgsToLabelData json_Marshal
    "seer" blocksCache abiMap.

Definition DecodeProtoTransactionsToLabels
  : list string -> exec (list TransactionLabel * option string) :=
  LabelDecoder.DecodeProtoTransactionsToLabels string string string string
    base64_DecodeString Unmarshal_transaction abi_JSON hex_DecodeString
    DecodeTransactionInputDataToInterface json_Marshal "seer" blocksCache abiMap.

(** A transport on which block 2 times out and every other block is
    its own number. *)
Definition GetBlockByNumber (b : Z) : result string Z :=
  if b =? 2 then Err "timeout" else Ok b.

(** A transport that never fails. *)
Definition GetBlockByNumber_ok (b : Z) : result string Z := Ok b.

(** Goroutine 0 runs to its end, then goroutine 1, then goroutine 2. *)
Definition one_after_another : list nat :=
  [0; 0; 0; 0; 1; 1; 1; 1; 2; 2; 2; 2]%nat.

(** Goroutines 2 and 1 take their slots first; 2 finishes before 1. *)
Definition last_first : list nat :=
  [2; 1; 2; 1; 2; 2; 1; 1; 0; 0; 0; 0]%nat.

End Sample.

(** * The rest of the client *)

(** ** JSON shapes and the normalizers

    The shapes are declared in [blockchain/common], outside this file;
    their fields are the ones the normalizers read.  The normalizers are
    given on the shape a pointer points to; a [*BlockJson] that may be
    nil, as the one [GetBlockByNumber] returns for the answer [null], is
    an [option BlockJson], and dereferencing [None] panics. *)

(** [Uint64] of [big.Int]: the low 64 bits of the magnitude.  (Documented
    for values that fit a [uint64]; the properties below stay there.) *)
Definition Uint64 (x : Z) : N := Z.to_N (Z.abs x mod 2 ^ 64).

(** Modelled from the spec: the event shape [seer_common.EventJson],
    whose declaration is not in the source; numeric fields arrive as hex
    strings and are kept verbatim. *)
Record EventJson := {
  ej_Address : string;
  ej_Topics : list string;
  ej_Data : string;
  ej_BlockNumber : string;
  ej_TransactionHash : string;
  ej_LogIndex : string;
  ej_BlockHash : string;
  ej_Removed : bool
}.

(** [ToProtoSingleEventLog]. *)
Definition ToProtoSingleEventLog (obj : EventJson) : XaiSepoliaEventLog :=
  {| ev_Address := ej_Address obj;
     ev_Topics := ej_Topics obj;
     ev_Data := ej_Data obj;
     ev_BlockNumber := Uint64 (fromHex (ej_BlockNumber obj));
     ev_TransactionHash := ej_TransactionHash obj;
     ev_LogIndex := Uint64 (fromHex (ej_LogIndex obj));
     ev_BlockHash := ej_BlockHash obj;
     ev_Removed := ej_Removed obj |}.

(** Modelled from the spec: an access list entry of the transaction
    shape, whose declaration is not in the source. *)
Record AccessListJson := {
  alj_Address : string;
  alj_StorageKeys : list string
}.

Record XaiSepoliaTransactionAccessList := {
  al_Address : string;
  al_StorageKeys : list string
}.

(** Modelled from the spec: the transaction shape
    [seer_common.TransactionJson], whose declaration is not in the
    source. *)
Record TransactionJson := {
  tj_Hash : string;
  tj_BlockNumber : string;
  tj_BlockHash : string;
  tj_FromAddress : string;
  tj_ToAddress : string;
  tj_Gas : string;
  tj_GasPrice : string;
  tj_MaxFeePerGas : string;
  tj_MaxPriorityFeePerGas : string;
  tj_Input : string;
  tj_Nonce : string;
  tj_TransactionIndex : string;
  tj_TransactionType : string;
  tj_Value : string;
  tj_IndexedAt : string;
  tj_BlockTimestamp : string;
  tj_ChainId : string;
  tj_V : string;
  tj_R : string;
  tj_S : string;
  tj_AccessList : list AccessListJson;
  tj_YParity : string
}.

(** The transaction record with every field [ToProtoSingleTransaction]
    fills.  [XaiSepoliaTransaction] above is its view on the fields the
    index and label rows read. *)
Record XaiSepoliaTransactionRecord := {
  tr_Hash : string;
  tr_BlockNumber : N;
  tr_BlockHash : string;
  tr_FromAddress : string;
  tr_ToAddress : string;
  tr_Gas : string;
  tr_GasPrice : string;
  tr_MaxFeePerGas : string;
  tr_MaxPriorityFeePerGas : string;
  tr_Input : string;
  tr_Nonce : string;
  tr_TransactionIndex : N;
  tr_TransactionType : N;
  tr_Value : string;
  tr_IndexedAt : N;
  tr_BlockTimestamp : N;
  tr_ChainId : string;
  tr_V : string;
  tr_R : string;
  tr_S : string;
  tr_AccessList : list XaiSepoliaTransactionAccessList;
  tr_YParity : string
}.

(** [ToProtoSingleTransaction]. *)
Definition ToProtoSingleTransaction (obj : TransactionJson) : XaiSepoliaTransactionRecord :=
  let accessList :=
    map (fun al => {| al_Address := alj_Address al;
                      al_StorageKeys := alj_StorageKeys al |}) (tj_AccessList obj) in
  {| tr_Hash := tj_Hash obj;
     tr_BlockNumber := Uint64 (fromHex (tj_BlockNumber obj));
     tr_BlockHash := tj_BlockHash obj;
     tr_FromAddress := tj_FromAddress obj;
     tr_ToAddress := tj_ToAddress obj;
     tr_Gas := tj_Gas obj;
     tr_GasPrice := tj_GasPrice obj;
     tr_MaxFeePerGas := tj_MaxFeePerGas obj;
     tr_MaxPriorityFeePerGas := tj_MaxPriorityFeePerGas obj;
     tr_Input := tj_Input obj;
     tr_Nonce := tj_Nonce obj;
     tr_TransactionIndex := Uint64 (fromHex (tj_TransactionIndex obj));
     tr_TransactionType := Uint64 (fromHex (tj_TransactionType obj));
     tr_Value := tj_Value obj;
     tr_IndexedAt := Uint64 (fromHex (tj_IndexedAt obj));
     tr_BlockTimestamp := Uint64 (fromHex (tj_BlockTimestamp obj));
     tr_ChainId := tj_ChainId obj;
     tr_V := tj_V obj;
     tr_R := tj_R obj;
     tr_S := tj_S obj;
     tr_AccessList := accessList;
     tr_YParity := tj_YParity obj |}.

(** The fields of a transaction record that the rows read. *)
Definition row_fields (t : XaiSepoliaTransactionRecord) : XaiSepoliaTransaction :=
  {| tx_Hash := tr_Hash t;
     tx_BlockNumber := tr_BlockNumber t;
     tx_BlockHash := tr_BlockHash t;
     tx_FromAddress := tr_FromAddress t;
     tx_ToAddress := tr_ToAddress t;
     tx_Input := tr_Input t;
     tx_TransactionIndex := tr_TransactionIndex t;
     tx_TransactionType := tr_TransactionType t;
     tx_BlockTimestamp := tr_BlockTimestamp t |}.

(** Modelled from the spec: the block shape [seer_common.BlockJson],
    whose declaration is not in the source, with its embedded
    transactions. *)
Record BlockJson := {
  bj_BlockNumber : string;
  bj_Difficulty : string;
  bj_ExtraData : string;
  bj_GasLimit : string;
  bj_GasUsed : string;
  bj_BaseFeePerGas : string;
  bj_Hash : string;
  bj_LogsBloom : string;
  bj_Miner : string;
  bj_Nonce : string;
  bj_ParentHash : string;
  bj_ReceiptsRoot : string;
  bj_Sha3Uncles : string;
  bj_Size : string;
  bj_StateRoot : string;
  bj_Timestamp : string;
  bj_TotalDifficulty : string;
  bj_TransactionsRoot : string;
  bj_IndexedAt : string;
  bj_MixHash : string;
  bj_SendCount : string;
  bj_SendRoot : string;
  bj_L1BlockNumber : string;
  bj_Transactions : list TransactionJson
}.

Record XaiSepoliaBlock := {
  blk_BlockNumber : N;
  blk_Difficulty : N;
  blk_ExtraData : string;
  blk_GasLimit : N;
  blk_GasUsed : N;
  blk_BaseFeePerGas : string;
  blk_Hash : string;
  blk_LogsBloom : string;
  blk_Miner : string;
  blk_Nonce : string;
  blk_ParentHash : string;
  blk_ReceiptsRoot : string;
  blk_Sha3Uncles : string;
  blk_Size : N;
  blk_StateRoot : string;
  blk_Timestamp : N;
  blk_TotalDifficulty : string;
  blk_TransactionsRoot : string;
  blk_IndexedAt : N;
  blk_MixHash : string;
  blk_SendCount : string;
  blk_SendRoot : string;
  blk_L1BlockNumber : N
}.

(** [ToProtoSingleBlock]. *)
Definition ToProtoSingleBlock (obj : BlockJson) : XaiSepoliaBlock :=
  {| blk_BlockNumber := Uint64 (fromHex (bj_BlockNumber obj));
     blk_Difficulty := Uint64 (fromHex (bj_Difficulty obj));
     blk_ExtraData := bj_ExtraData obj;
     blk_GasLimit := Uint64 (fromHex (bj_GasLimit obj));
     blk_GasUsed := Uint64 (fromHex (bj_GasUsed obj));
     blk_BaseFeePerGas := bj_BaseFeePerGas obj;
     blk_Hash := bj_Hash obj;
     blk_LogsBloom := bj_LogsBloom obj;
     blk_Miner := bj_Miner obj;
     blk_Nonce := bj_Nonce obj;
     blk_ParentHash := bj_ParentHash obj;
     blk_ReceiptsRoot := bj_ReceiptsRoot obj;
     blk_Sha3Uncles := bj_Sha3Uncles obj;
     blk_Size := Uint64 (fromHex (bj_Size obj));
     blk_StateRoot := bj_StateRoot obj;
     blk_Timestamp := Uint64 (fromHex (bj_Timestamp obj));
     blk_TotalDifficulty := bj_TotalDifficulty obj;
     blk_TransactionsRoot := bj_TransactionsRoot obj;
     blk_IndexedAt := Uint64 (fromHex (bj_IndexedAt obj));
     blk_MixHash := bj_MixHash obj;
     blk_SendCount := bj_SendCount obj;
     blk_SendRoot := bj_SendRoot obj;
     blk_L1BlockNumber := Uint64 (fromHex (bj_L1BlockNumber obj)) |}.

(** [txJson.BlockTimestamp = blockJson.Timestamp], on the loop's own
    copy of the transaction shape. *)
Definition with_block_timestamp (timestamp : string) (txJson : TransactionJson)
  : TransactionJson :=
  {| tj_Hash := tj_Hash txJson;
     tj_BlockNumber := tj_BlockNumber txJson;
     tj_BlockHash := tj_BlockHash txJson;
     tj_FromAddress := tj_FromAddress txJson;
     tj_ToAddress := tj_ToAddress txJson;
     tj_Gas := tj_Gas txJson;
     tj_GasPrice := tj_GasPrice txJson;
     tj_MaxFeePerGas := tj_MaxFeePerGas txJson;
     tj_MaxPriorityFeePerGas := tj_MaxPriorityFeePerGas txJson;
     tj_Input := tj_Input txJson;
     tj_Nonce := tj_Nonce txJson;
     tj_TransactionIndex := tj_TransactionIndex txJson;
     tj_TransactionType := tj_TransactionType txJson;
     tj_Value := tj_Value txJson;
     tj_IndexedAt := tj_IndexedAt txJson;
     tj_BlockTimestamp := timestamp;
     tj_ChainId := tj_ChainId txJson;
     tj_V := tj_V txJson;
     tj_R := tj_R txJson;
     tj_S := tj_S txJson;
     tj_AccessList := tj_AccessList txJson;
     tj_YParity := tj_YParity txJson |}.

(** The inner loop of [ParseBlocksAndTransactions] over one block. *)
Fixpoint parse_transactions_loop (timestamp : string)
  (parsedTransactions : list XaiSepoliaTransactionRecord)
  (transactions : list TransactionJson) : list XaiSepoliaTransactionRecord :=
  match transactions with
  | [] => parsedTransactions
  | txJson :: rest =>
      let parsedTransaction :=
        ToProtoSingleTransaction (with_block_timestamp timestamp txJson) in
      parse_transactions_loop timestamp (parsedTransactions ++ [parsedTransaction]) rest
  end.

(** The outer loop of [ParseBlocksAndTransactions] over the fetched
    [*BlockJson] pointers: [ToProtoSingleBlock(blockJson)] reads
    [obj.BlockNumber] first, a nil pointer dereference on a nil block. *)
Fixpoint parse_blocks_loop (parsedBlocks : list XaiSepoliaBlock)
  (parsedTransactions : list XaiSepoliaTransactionRecord)
  (blocksJson : list (option BlockJson))
  : exec (list XaiSepoliaBlock * list XaiSepoliaTransactionRecord) :=
  match blocksJson with
  | [] => Returns (parsedBlocks, parsedTransactions)
  | None :: _ => Panics
  | Some blockJson :: rest =>
      let parsedBlock := ToProtoSingleBlock blockJson in
      let parsedTransactions' :=
        parse_transactions_loop (bj_Timestamp blockJson) parsedTransactions
          (bj_Transactions blockJson) in
      parse_blocks_loop (parsedBlocks ++ [parsedBlock]) parsedTransactions' rest
  end.

(** [ParseBlocksAndTransactions] once the blocks are fetched: the fetch
    error, or the parsed blocks and transactions, or a panic. *)
Definition parse_fetched {error : Type} (fetched : list (option BlockJson) * option error)
  : exec (list XaiSepoliaBlock * list XaiSepoliaTransactionRecord * option error) :=
  match fetched with
  | (_, Some fetchErr) => Returns ([], [], Some fetchErr)
  | (blocksJson, None) =>
      match parse_blocks_loop [] [] blocksJson with
      | Returns (parsedBlocks, parsedTransactions) =>
          Returns (parsedBlocks, parsedTransactions, None)
      | Panics => Panics
      end
  end.

(** The transactions of one block, as the loop parses them. *)
Definition parsed_transactions_of (blockJson : BlockJson)
  : list XaiSepoliaTransactionRecord :=
  (fun txJson =>
     ToProtoSingleTransaction (with_block_timestamp (bj_Timestamp blockJson) txJson))
    <$> bj_Transactions blockJson.

(** ** FetchAsProtoBlocks: the block cache

    [blocksCache[block.BlockNumber] = indexer.BlockCache{...}] for every
    parsed block in turn.  (The block index rows are made by
    [indexer.NewBlockIndex], which is not in the source.) *)

Definition cache_entry (block : XaiSepoliaBlock) : BlockCache :=
  {| bc_BlockNumber := blk_BlockNumber block;
     bc_BlockHash := blk_Hash block;
     bc_BlockTimestamp := blk_Timestamp block |}.

Fixpoint blocksCache_loop (blocksCache : gmap N BlockCache)
  (parsedBlocks : list XaiSepoliaBlock) : gmap N BlockCache :=
  match parsedBlocks with
  | [] => blocksCache
  | block :: rest =>
      blocksCache_loop (<[blk_BlockNumber block := cache_entry block]> blocksCache) rest
  end.

Definition blocksCache_of (parsedBlocks : list XaiSepoliaBlock) : gmap N BlockCache :=
  blocksCache_loop ∅ parsedBlocks.

(** The transaction index rows of [FetchAsProtoBlocks]. *)
Definition transactionIndex_of (parsedTransactions : list XaiSepoliaTransactionRecord)
  : list TransactionIndex :=
  transactionIndex (row_fields <$> parsedTransactions).

(** ** Numeric fields of the JSON shapes

    [text] is what a numeric field of an RPC answer holds for the
    number [n]: the text [toHex] writes for it, or nothing at all for a
    field the answer leaves out, which stands for 0. *)
Definition encodes (text : string) (n : N) : Prop :=
  (n < 2 ^ 64)%N /\ (text = toHex (Z.of_N n) \/ (text = "" /\ n = 0%N)).

(** ** The transport and the calls on it *)

Module Rpc.

(** An error of the client: one handed up from the transport, or one
    the client makes itself with [fmt.Errorf]. *)
Inductive client_error (E : Type) :=
| TransportError (e : E)
| FormatError (msg : string).
Arguments TransportError {E} e.
Arguments FormatError {E} msg.

(** [GetLatestBlockNumber], given what [eth_blockNumber] came back
    with: the text is parsed with [SetString(result, 0)] and, unlike in
    [fromHex], the flag is looked at. *)
Definition GetLatestBlockNumber {E : Type} (answer : result E string)
  : result (client_error E) Z :=
  match answer with
  | Err e => Err (TransportError e)
  | Ok text =>
      let '(blockNumber, ok) := BigInt.SetString text in
      if ok then Ok blockNumber
      else Err (FormatError ("invalid block number format: " +:+ text))
  end.

Section Calls.
Variables (E raw : Type).

(** The transport: the answer to the [n]-th call made on it, by method
    and block parameter. *)
Definition transport := nat -> string -> string -> result E raw.

(** Decoding an answer into a [*BlockJson], as [CallContext] does for
    its [result] argument: the pointer stays nil on the answer [null]. *)
Variable decode_block : raw -> result E (option BlockJson).

(** [GetBlockByNumber], [n] calls having been made on the transport:
    the answer of a first call is captured raw, picked apart and dropped;
    a second call with the same parameters gives the block.  Returns the
    block or the error, and the number of calls made by then. *)
Definition GetBlockByNumber (rpc : transport) (n : nat) (number : Z)
  : result E (option BlockJson) * nat :=
  let param := "0x" +:+ BigInt.Text16 number in
  match rpc n "eth_getBlockByNumber" param with
  | Err e => (Err e, S n)
  | Ok _ =>
      (match rpc (S n) "eth_getBlockByNumber" param with
       | Err e => Err e
       | Ok rawResponse => decode_block rawResponse
       end, S (S n))
  end.

End Calls.

Arguments GetBlockByNumber {E raw} decode_block rpc n number.

End Rpc.

(** ** The sequential block range fetches *)

Module SequentialFetch.
Section Loop.
Variables (Block E S : Type).

(** [GetBlockByNumber] on whatever state [S] the transport has. *)
Variable get : S -> Z -> result E Block * S.

(** [for i := ...; i.Cmp(to) <= 0; i.Add(i, 1) { ... }]: the blocks and
    error returned, the state of the transport and the value of [i] at
    the end; [None] is fuel exhausted. *)
Fixpoint range_loop (fuel : nat) (s : S) (i to : Z) (blocks : list Block)
  : option (list Block * option E * S * Z) :=
  match fuel with
  | O => if to <? i then Some (blocks, None, s, i) else None
  | Datatypes.S fuel' =>
      if to <? i then Some (blocks, None, s, i)
      else
        match get s i with
        | (Err err, s') => Some ([], Some err, s', i)
        | (Ok block, s') => range_loop fuel' s' (i + 1) to (blocks ++ [block])
        end
  end.

(** The number of blocks of a range. *)
Definition span (from to : Z) : nat := Z.to_nat (to - from + 1).

(** [FetchBlocksInRange]: [i] is a copy, [new(big.Int).Set(from)]. *)
Definition FetchBlocksInRange (s : S) (from to : Z)
  : option (list Block * option E * S) :=
  match range_loop (span from to) s from to [] with
  | Some (blocks, err, s', _) => Some (blocks, err, s')
  | None => None
  end.

(** The two [*big.Int] arguments of [fetchBlocks] as the caller holds
    them: two objects, or one object passed for both. *)
Inductive big_ints :=
| Distinct (from to : Z)
| Same (both : Z).

Definition from_value (args : big_ints) : Z :=
  match args with Distinct from _ => from | Same both => both end.

Definition to_value (args : big_ints) : Z :=
  match args with Distinct _ to => to | Same both => both end.

(** [i.Add(i, big.NewInt(1))] with [i := from]: the object [from]
    points to is changed in place, and [to] with it when it is the same
    object. *)
Definition add_one (args : big_ints) : big_ints :=
  match args with
  | Distinct from to => Distinct (from + 1) to
  | Same both => Same (both + 1)
  end.

(** [for i := from; i.Cmp(to) <= 0; i.Add(i, big.NewInt(1)) { ... }]:
    the blocks and error returned, the state of the transport and the
    caller's two numbers at the end; [None] is fuel exhausted. *)
Fixpoint fetch_loop (fuel : nat) (s : S) (args : big_ints) (blocks : list Block)
  : option (list Block * option E * S * big_ints) :=
  match fuel with
  | O => if to_value args <? from_value args then Some (blocks, None, s, args) else None
  | Datatypes.S fuel' =>
      if to_value args <? from_value args then Some (blocks, None, s, args)
      else
        match get s (from_value args) with
        | (Err err, s') => Some ([], Some err, s', args)
        | (Ok block, s') => fetch_loop fuel' s' (add_one args) (blocks ++ [block])
        end
  end.

(** [fetchBlocks]. *)
Definition fetchBlocks (fuel : nat) (s : S) (args : big_ints)
  : option (list Block * option E * S * big_ints) :=
  fetch_loop fuel s args [].

End Loop.

Arguments range_loop {Block E S} get fuel s i to blocks.
Arguments FetchBlocksInRange {Block E S} get s from to.
Arguments fetch_loop {Block E S} get fuel s args blocks.
Arguments fetchBlocks {Block E S} get fuel s args.

(** A transport whose answer depends on the block number alone. *)
Definition stateless {Block E : Type} (GetBlockByNumber : Z -> result E Block)
  : unit -> Z -> result E Block * unit :=
  fun s number => (GetBlockByNumber number, s).

End SequentialFetch.

(** ** ParseBlocksAndTransactions

    How a call can end on a transport that answers by block number,
    with a block pointer that is nil for the answer [null]: through the
    concurrent fetch when [maxRequests > 1], from any settled state of
    it; through the sequential fetch otherwise. *)

Inductive ParseBlocksAndTransactions_outcome {E : Type}
  (GetBlockByNumber : Z -> result E (option BlockJson)) (from to : Z) (maxRequests : Z)
  : exec (list XaiSepoliaBlock * list XaiSepoliaTransactionRecord * option E) -> Prop :=
| parse_async st :
    1 < maxRequests ->
    AsyncFetch.reachable GetBlockByNumber (Z.to_nat maxRequests) from to st ->
    AsyncFetch.settled st = true ->
    ParseBlocksAndTransactions_outcome GetBlockByNumber from to maxRequests
      (parse_fetched (AsyncFetch.returned st))
| parse_sequential blocks err :
    maxRequests <= 1 ->
    SequentialFetch.FetchBlocksInRange (SequentialFetch.stateless GetBlockByNumber)
      tt from to = Some (blocks, err, tt) ->
    ParseBlocksAndTransactions_outcome GetBlockByNumber from to maxRequests
      (parse_fetched (blocks, err)).

(** ** ParseEvents and FetchAsProtoEvents *)

(** [ParseEvents]: the logs of [ClientFilterLogs], normalized in order;
    the cache and the debug flag play no part. *)
Definition ParseEvents (rpc : FilterLogs.endpoint EventJson) (from to : Z)
  : option (list XaiSepoliaEventLog * option string) :=
  match FilterLogs.ClientFilterLogs rpc from to with
  | None => None
  | Some (_, Some err) => Some ([], Some err)
  | Some (logs, None) => Some (ToProtoSingleEventLog <$> logs, None)
  end.

(** [FetchAsProtoEvents]: the events, their index rows, the error. *)
Definition FetchAsProtoEvents (rpc : FilterLogs.endpoint EventJson) (from to : Z)
  (blocksCahche : gmap N BlockCache)
  : option (list XaiSepoliaEventLog * list LogIndex * option string) :=
  match ParseEvents rpc from to with
  | None => None
  | Some (_, Some err) => Some ([], [], Some err)
  | Some (parsedEvents, None) =>
      Some (parsedEvents, eventsIndex blocksCahche parsedEvents, None)
  end.

(** ** What a run of the log fetch was answered *)

Module FilterLogsTrace.
Import FilterLogs.
Section Trace.
Context {EventJson : Type}.

(** The windows that were answered with logs, in call order, each with
    its logs. *)
Fixpoint answered (fuel : nat) (rpc : endpoint EventJson) (toBlock : Z) (n : nat)
  (st : loop_state EventJson) : list (Z * Z * list EventJson) :=
  match fuel with
  | O => []
  | S fuel' =>
      match call rpc toBlock n st with
      | RpcOk result => [(fromBlock st, nextBlock toBlock st, result)]
      | RpcErr _ => []
      end ++
      match iteration toBlock st (call rpc toBlock n st) with
      | Continue st' => answered fuel' rpc toBlock (S n) st'
      | _ => []
      end
  end.

(** Windows within [lo, toBlock], each after the one before. *)
Fixpoint ascending (lo toBlock : Z) (windows : list (Z * Z * list EventJson)) : Prop :=
  match windows with
  | [] => True
  | (a, b, _) :: rest => lo <= a /\ a <= b /\ b <= toBlock /\ ascending (b + 1) toBlock rest
  end.

(** An endpoint that answers every call with a too-many-results error. *)
Definition always_too_many (rpc : endpoint EventJson) : Prop :=
  forall n a b, exists msg, rpc n a b = RpcErr msg /\ too_many msg = true.

End Trace.
End FilterLogsTrace.

(** ** DecodeProtoBlocks *)

Module BlockDecoder.
Section Decoder.
Variables (error bytes : Type).
Variable base64_DecodeString : string -> result error bytes.
Variable Unmarshal_block : bytes -> result error XaiSepoliaBlock.

Fixpoint decode_blocks_loop (blocks : list XaiSepoliaBlock) (data : list string)
  : result error (list XaiSepoliaBlock) :=
  match data with
  | [] => Ok blocks
  | d :: data' =>
      match base64_DecodeString d with
      | Err e => Err e
      | Ok base64Decoded =>
          match Unmarshal_block base64Decoded with
          | Err e => Err e
          | Ok block => decode_blocks_loop (blocks ++ [block]) data'
          end
      end
  end.

Definition DecodeProtoBlocks (data : list string) := decode_blocks_loop [] data.

End Decoder.
End BlockDecoder.

(** The shape the three batch decoders share: each record through
    [decode], appended in turn, the first failure ending the batch. *)
Fixpoint decode_batch {error A : Type} (decode : string -> result error A)
  (acc : list A) (data : list string) : result error (list A) :=
  match data with
  | [] => Ok acc
  | d :: data' =>
      match decode d with
      | Err e => Err e
      | Ok a => decode_batch decode (acc ++ [a]) data'
      end
  end.

(** One record through base64 and a binary decoder. *)
Definition decode_record {error bytes A : Type}
  (base64_DecodeString : string -> result error bytes)
  (Unmarshal : bytes -> result error A) (d : string) : result error A :=
  match base64_DecodeString d with
  | Err e => Err e
  | Ok raw => Unmarshal raw
  end.

(** ** CheckVariablesForIndexer *)

Module Indexer.

(** The package variables. *)
Record globals := {
  InsertBatchSize : Z;
  SeerCrawlerLabel : string;
  MOONSTREAM_DB_V3_INDEXES_URI : string
}.

(** [os.Getenv]: the value, or the empty string when the variable is
    not set. *)
Definition Getenv (env : gmap string string) (key : string) : string :=
  default "" (env !! key).

(** [CheckVariablesForIndexer]: the error message, if any, and the
    package variables afterwards. *)
Definition CheckVariablesForIndexer (env : gmap string string) (g : globals)
  : option string * globals :=
  let g1 := {| InsertBatchSize := InsertBatchSize g;
               SeerCrawlerLabel := Getenv env "SEER_CRAWLER_INDEXER_LABEL";
               MOONSTREAM_DB_V3_INDEXES_URI := MOONSTREAM_DB_V3_INDEXES_URI g |} in
  if String.eqb (SeerCrawlerLabel g1) "" then
    (Some "SEER_CRAWLER_INDEXER_LABEL environment variable is required", g1)
  else
    let g2 := {| InsertBatchSize := InsertBatchSize g1;
                 SeerCrawlerLabel := SeerCrawlerLabel g1;
                 MOONSTREAM_DB_V3_INDEXES_URI := Getenv env "MOONSTREAM_DB_V3_INDEXES_URI" |} in
    if String.eqb (MOONSTREAM_DB_V3_INDEXES_URI g2) "" then
      (Some "MOONSTREAM_DB_V3_INDEXES_URI environment variable is required", g2)
    else (None, g2).

End Indexer.

(** ** Runs of the sequential fetch *)

(** [fetched_in_turn get s i blocks s']: starting in transport state
    [s], the calls for the numbers [i], [i + 1], ... gave [blocks], one
    after the other and without error, and left the transport in [s']. *)
Inductive fetched_in_turn {Block E S : Type} (get : S -> Z -> result E Block * S)
  : S -> Z -> list Block -> S -> Prop :=
| fetched_none s i : fetched_in_turn get s i [] s
| fetched_next s i block s1 blocks s' :
    get s i = (Ok block, s1) ->
    fetched_in_turn get s1 (i + 1) blocks s' ->
    fetched_in_turn get s i (block :: blocks) s'.

(** ** More bookkeeping for the concurrent fetch *)

(** The goroutine returned on the failing path, its slot still taken. *)
Definition slot_lost {BlockJson error : Type} (t : Z * AsyncFetch.pc BlockJson error) : bool :=
  match snd t with
  | AsyncFetch.Exited false => true
  | _ => false
  end.

(** The slots of [sem] that no goroutine will ever give back. *)
Definition lost_slots {BlockJson error : Type} (st : AsyncFetch.state BlockJson error) : nat :=
  AsyncFetch.count_if slot_lost (AsyncFetch.tasks st).

(** ** What a batch decoder does, in terms of its record decoder *)

(** [batch] decodes the records in order with [decode]: it fails with
    the error of the first record that fails, whatever comes after; it
    succeeds exactly when every record decodes, with the decoded records
    in input order; and it undoes any encoder that [decode] undoes. *)
Definition decodes_in_order {error A : Type} (decode : string -> result error A)
  (batch : list string -> result error (list A)) : Prop :=
  (forall before d after e,
      Forall (fun d' => exists a, decode d' = Ok a) before ->
      decode d = Err e ->
      batch (before ++ d :: after)%list = Err e) /\
  (forall data decoded,
      batch data = Ok decoded <-> Forall2 (fun d a => decode d = Ok a) data decoded) /\
  (forall (encode : A -> string) records,
      (forall a, decode (encode a) = Ok a) ->
      batch (encode <$> records) = Ok records).

(** ** Sample shapes, chain and transport *)

Module Fixture.

Definition tx_json (input : string) : TransactionJson :=
  {| tj_Hash := "0xh"; tj_BlockNumber := "0x1"; tj_BlockHash := "0xb";
     tj_FromAddress := "0xf"; tj_ToAddress := "0xc";
     tj_Gas := "0x5208"; tj_GasPrice := "0x1"; tj_MaxFeePerGas := "";
     tj_MaxPriorityFeePerGas := ""; tj_Input := input; tj_Nonce := "0x0";
     tj_TransactionIndex := "0x0"; tj_TransactionType := "0x2"; tj_Value := "0x0";
     tj_IndexedAt := ""; tj_BlockTimestamp := "0x99"; tj_ChainId := "0x1";
     tj_V := "0x0"; tj_R := "0x0"; tj_S := "0x0"; tj_AccessList := [];
     tj_YParity := "0x0" |}.

(** A block with the given number text, timestamp 16 and one
    transaction. *)
Definition block_json (number : string) : BlockJson :=
  {| bj_BlockNumber := number; bj_Difficulty := "0x1"; bj_ExtraData := "0x";
     bj_GasLimit := "0x1"; bj_GasUsed := "0x1"; bj_BaseFeePerGas := "0x1";
     bj_Hash := "0xb" +:+ number; bj_LogsBloom := "0x"; bj_Miner := "0x0";
     bj_Nonce := "0x0"; bj_ParentHash := "0xp"; bj_ReceiptsRoot := "0x";
     bj_Sha3Uncles := "0x"; bj_Size := "0x1"; bj_StateRoot := "0x";
     bj_Timestamp := "0x10"; bj_TotalDifficulty := "0x1";
     bj_TransactionsRoot := "0x"; bj_IndexedAt := ""; bj_MixHash := "0x";
     bj_SendCount := "0x0"; bj_SendRoot := "0x"; bj_L1BlockNumber := "0x0";
     bj_Transactions := [tx_json "0xa9059cbb"] |}.

(** A transport that echoes the block parameter, and the decoder that
    makes the block of that number of it. *)
Definition echo : Rpc.transport string string := fun _ _ param => Ok param.
Definition decode_block (rawResponse : string) : result string (option BlockJson) :=
  Ok (Some (block_json rawResponse)).

(** A transport by block number: every block there, or block 2 timing
    out. *)
Definition every_block (number : Z) : result string BlockJson :=
  Ok (block_json (toHex number)).
Definition block_two_fails (number : Z) : result string BlockJson :=
  if number =? 2 then Err "timeout" else Ok (block_json (toHex number)).

(** The same transports by the pointer [GetBlockByNumber] returns, and
    one that answers [null] for block 2. *)
Definition every_pointer (number : Z) : result string (option BlockJson) :=
  Ok (Some (block_json (toHex number))).
Definition pointer_two_fails (number : Z) : result string (option BlockJson) :=
  if number =? 2 then Err "timeout" else Ok (Some (block_json (toHex number))).
Definition pointer_two_null (number : Z) : result string (option BlockJson) :=
  if number =? 2 then Ok None else Ok (Some (block_json (toHex number))).

(** A chain with one log in every block. *)
Definition event_json (number : Z) : EventJson :=
  {| ej_Address := "0xc"; ej_Topics := ["0xt"]; ej_Data := "0x";
     ej_BlockNumber := toHex number; ej_TransactionHash := "0xh";
     ej_LogIndex := "0x0"; ej_BlockHash := "0xb"; ej_Removed := false |}.
Definition chain_logs (number : Z) : list EventJson := [event_json number].

(** An endpoint that fails every call. *)
Definition refuses_all : FilterLogs.endpoint (Z * Z) :=
  fun _ _ _ => FilterLogs.RpcErr FilterLogs.too_many_marker.

Definition parsed_blocks : list XaiSepoliaBlock :=
  ToProtoSingleBlock <$> [block_json "0x1"; block_json "0x2"].

(** An ABI table that knows [transfer] at contract [0xc]. *)
Definition abiMap : gmap string (gmap string (gmap string string)) :=
  {[ "0xc" := {[ "0xa9059cbb" := <[ "abi_name" := "transfer" ]> {[ "abi" := "[]" ]} ]} ]}.

Definition DecodeProtoTransactionsToLabels
  : list string -> exec (list TransactionLabel * option string) :=
  LabelDecoder.DecodeProtoTransactionsToLabels string string string string
    Sample.base64_DecodeString Sample.Unmarshal_transaction Sample.abi_JSON
    Sample.hex_DecodeString Sample.DecodeTransactionInputDataToInterface
    Sample.json_Marshal "seer" Sample.blocksCache abiMap.

Definition environment : gmap string string :=
  <["MOONSTREAM_DB_V3_INDEXES_URI" := "postgres://db"]>
    {["SEER_CRAWLER_INDEXER_LABEL" := "seer"]}.

Definition globals : Indexer.globals :=
  {| Indexer.InsertBatchSize := 1000; Indexer.SeerCrawlerLabel := "";
     Indexer.MOONSTREAM_DB_V3_INDEXES_URI := "old" |}.

End Fixture.

(** ** A call of the concurrent fetch between two goroutines

    The state in which the goroutines of the numbers in [order] have run
    to their end, one after the other in that order, and no other has
    started. *)
Definition finished_in_order {BlockJson error : Type}
  (GetBlockByNumber : Z -> result error BlockJson) (from to : Z) (order : list Z)
  : AsyncFetch.state BlockJson error :=
  {| AsyncFetch.tasks :=
       (fun b => (b, if bool_decide (b ∈ order)
                     then AsyncFetch.Exited true else AsyncFetch.Spawned))
         <$> AsyncFetch.blockNumbersRange from to;
     AsyncFetch.sem := 0;
     AsyncFetch.errChan := None;
     AsyncFetch.blocks := flat_map (AsyncFetch.block_of GetBlockByNumber) order;
     AsyncFetch.failures := [] |}.

(** * Theorems *)

(** ** Selector of a transaction index row *)

Lemma transactionIndex_length txs : length (transactionIndex txs) = length txs.
Proof. unfold transactionIndex. by rewrite length_imap. Qed.

Lemma transactionIndex_lookup txs i tx :
  txs !! i = Some tx ->
  transactionIndex txs !! i = Some (transactionIndexRow i tx).
Proof. intros H. unfold transactionIndex. by rewrite list_lookup_imap, H. Qed.

(** Away from length ten the code and the rule of the specification agree. *)
Lemma tx_selector_agrees input :
  String.length input <> 10%nat -> tx_selector input = spec_selector input.
Proof.
  intros Hlen. unfold tx_selector, spec_selector.
  destruct (Nat.ltb_spec 10 (String.length input)) as [Hgt | Hle];
    destruct (Nat.ltb_spec (String.length input) 10) as [Hlt | Hge];
    try reflexivity; lia.
Qed.

(** [tx_selector] by cases on the length of the input. *)
Lemma tx_selector_cases input :
  ((String.length input <= 10)%nat -> tx_selector input = "0x") /\
  ((10 < String.length input)%nat -> tx_selector input = GoString.take 10 input).
Proof.
  unfold tx_selector. split; intros H.
  - destruct (Nat.ltb_spec 10 (String.length input)); [lia | reflexivity].
  - destruct (Nat.ltb_spec 10 (String.length input)); [reflexivity | lia].
Qed.

(** C1.  The row of a transaction whose input is exactly the ten
    characters [0xa9059cbb] carries the selector ["0x"], where the rule
    of the specification gives ["0xa9059cbb"]: the guard of the loop is
    [len(input) > 10], so an input of length ten takes the short branch. *)
Theorem C1_selector_of_ten_character_input :
  String.length (tx_Input selector_only_call) = 10%nat /\
  ti_Selector <$> transactionIndex [selector_only_call] = ["0x"] /\
  spec_selector (tx_Input selector_only_call) = "0xa9059cbb".
Proof. repeat split. Qed.

(** ** Hex codec *)

Section HexCodec.
Import BigInt.

Lemma append_cons c s t : String c s +:+ t = String c (s +:+ t).
Proof. reflexivity. Qed.

Lemma append_nil_r s : s +:+ EmptyString = s.
Proof. induction s as [| c s IH]; [done | by rewrite append_cons, IH]. Qed.

Lemma hex_digit_not_sep ch : is_hex_digit ch = true -> Ascii.eqb ch "_" = false.
Proof.
  intros H. destruct (Ascii.eqb_spec ch "_") as [-> | _]; [discriminate H | reflexivity].
Qed.

Lemma scan_hex_digits ds : forall tail st v,
  spec_hex_value (sc_acc st) ds = HexOk v ->
  scan_digits 16 st (ds +:+ tail) = scan_digits 16 (after st ds v) tail.
Proof.
  induction ds as [| ch ds IH]; intros tail st v Hv; simpl in Hv.
  - injection Hv as <-. destruct st; reflexivity.
  - destruct (is_hex_digit ch) eqn:Hch; [| discriminate Hv].
    rewrite append_cons. simpl. rewrite (hex_digit_not_sep _ Hch).
    unfold is_hex_digit in Hch.
    destruct (Z.leb_spec 16 (digit_val ch)) as [Hge | Hlt];
      [apply Z.ltb_lt in Hch; lia |].
    set (st1 := {| sc_prev := PrevDigit; sc_invalSep := sc_invalSep st;
                   sc_count := S (sc_count st);
                   sc_acc := sc_acc st * 16 + digit_val ch |}).
    rewrite (IH tail st1 v Hv). f_equal. unfold after, st1; simpl.
    f_equal; [by destruct ds | lia].
Qed.

Lemma hex_char_digit d : 0 <= d < 16 -> digit_val (hex_char d) = d.
Proof.
  intros Hd.
  assert (Hc : d = 0 \/ d = 1 \/ d = 2 \/ d = 3 \/ d = 4 \/ d = 5 \/ d = 6 \/ d = 7 \/
               d = 8 \/ d = 9 \/ d = 10 \/ d = 11 \/ d = 12 \/ d = 13 \/ d = 14 \/ d = 15)
    by lia.
  repeat (destruct Hc as [-> | Hc]; [reflexivity |]). by subst.
Qed.

Lemma hex_char_is_hex d : 0 <= d < 16 -> is_hex_digit (hex_char d) = true.
Proof. intros Hd. unfold is_hex_digit. rewrite hex_char_digit by done. apply Z.ltb_lt. lia. Qed.

(** Reading back the digits that [hex_digits] wrote for [n]. *)
Lemma spec_hex_value_hex_digits fuel : forall n tail acc,
  0 <= n < 16 ^ Z.of_nat (S fuel) ->
  exists k, 0 <= k /\
    spec_hex_value acc (hex_digits fuel n tail) = spec_hex_value (acc * 16 ^ k + n) tail.
Proof.
  induction fuel as [| fuel IH]; intros n tail acc Hn.
  - exists 1. split; [lia |]. simpl.
    change (16 ^ Z.of_nat 1) with 16 in Hn.
    rewrite hex_char_is_hex, hex_char_digit by lia. f_equal; lia.
  - simpl hex_digits. destruct (Z.ltb_spec n 16) as [Hlt | Hge].
    + exists 1. split; [lia |]. simpl.
      rewrite hex_char_is_hex, hex_char_digit by lia. f_equal; lia.
    + assert (Hpow : 16 ^ Z.of_nat (S (S fuel)) = 16 * 16 ^ Z.of_nat (S fuel)).
      { rewrite (Nat2Z.inj_succ (S fuel)), Z.pow_succ_r by lia. reflexivity. }
      destruct (IH (n / 16) (String (hex_char (n mod 16)) tail) acc) as (k & Hk & Heq).
      { split; [apply Z.div_pos; lia |]. apply Z.div_lt_upper_bound; lia. }
      exists (k + 1). split; [lia |]. rewrite Heq. simpl.
      assert (Hm : 0 <= n mod 16 < 16) by (apply Z.mod_pos_bound; lia).
      rewrite hex_char_is_hex, hex_char_digit by done. f_equal.
      rewrite Z.pow_add_r, Z.pow_1_r by lia.
      pose proof (Z.div_mod n 16 ltac:(lia)). lia.
  Qed.

Lemma hex_digits_nonempty fuel n tail : hex_digits fuel n tail <> EmptyString.
Proof.
  revert n tail. induction fuel as [| fuel IH]; intros n tail; simpl; [done |].
  destruct (n <? 16); [done | apply IH].
Qed.

Lemma log2_bound n : 0 <= n -> n < 16 ^ Z.of_nat (S (Z.to_nat (Z.log2 n))).
Proof.
  intros Hn. destruct (Z.eq_dec n 0) as [-> | Hnz]; [reflexivity |].
  pose proof (Z.log2_nonneg n) as Hl.
  destruct (Z.log2_spec n ltac:(lia)) as [_ Hup].
  rewrite Nat2Z.inj_succ, Z2Nat.id by lia.
  eapply Z.lt_le_trans; [exact Hup |].
  apply Z.pow_le_mono_l. lia.
Qed.

(** A prefixed string of hexadecimal digits decodes to their value. *)
Lemma SetString_prefixed x ds v :
  (x = "x" \/ x = "X")%char ->
  ds <> EmptyString ->
  spec_hex_value 0 ds = HexOk v ->
  SetString (String "0" (String x ds)) = (v, true).
Proof.
  intros Hx Hne Hv.
  assert (Hscan : scan_digits 16 (start PrevDigit 0) ds
                  = (after (start PrevDigit 0) ds v, EmptyString)).
  { pose proof (scan_hex_digits ds EmptyString (start PrevDigit 0) v Hv) as H.
    rewrite append_nil_r in H. exact H. }
  destruct ds as [| c ds]; [done |].
  destruct Hx as [-> | ->]; unfold SetString, nat_scan; simpl detect_base;
    cbv beta iota; rewrite Hscan; reflexivity.
Qed.

(** A character that is no hexadecimal digit ends the scan: the value
    read so far stays in the receiver and the flag is false. *)
Lemma SetString_stops x ds v c rest :
  (x = "x" \/ x = "X")%char ->
  spec_hex_value 0 ds = HexOk v ->
  is_hex_digit c = false -> c <> "_"%char ->
  SetString (String "0" (String x (ds +:+ String c rest))) = (v, false).
Proof.
  intros Hx Hv Hc Hsep.
  assert (Hscan : scan_digits 16 (start PrevDigit 0) (ds +:+ String c rest)
                  = (after (start PrevDigit 0) ds v, String c rest)).
  { rewrite (scan_hex_digits ds _ (start PrevDigit 0) v Hv). simpl.
    destruct (Ascii.eqb_spec c "_") as [-> | _]; [done |].
    unfold is_hex_digit in Hc. apply Z.ltb_ge in Hc.
    destruct (Z.leb_spec 16 (digit_val c)); [reflexivity | lia]. }
  destruct Hx as [-> | ->]; unfold SetString, nat_scan; simpl detect_base;
    cbv beta iota; rewrite Hscan; destruct ds as [| d ds]; simpl.
  all: try reflexivity.
  all: simpl in Hv; try (injection Hv as <-; reflexivity).
Qed.

(** The digit loop in any base up to 62 reads a string of digits of
    that base to its end. *)
Lemma scan_base_digits b ds : b <= 62 -> forall tail st v,
  digits_value b (sc_acc st) ds = Some v ->
  scan_digits b st (ds +:+ tail) = scan_digits b (after st ds v) tail.
Proof.
  intros Hb. induction ds as [| ch ds IH]; intros tail st v Hv; simpl in Hv.
  - injection Hv as <-. destruct st; reflexivity.
  - destruct (Z.ltb_spec (digit_val ch) b) as [Hlt | Hge]; [| discriminate Hv].
    rewrite append_cons. simpl.
    destruct (Ascii.eqb_spec ch "_") as [-> | _];
      [change (digit_val "_") with 63 in Hlt; lia |].
    destruct (Z.leb_spec b (digit_val ch)) as [Hle | _]; [lia |].
    set (st1 := {| sc_prev := PrevDigit; sc_invalSep := sc_invalSep st;
                   sc_count := S (sc_count st);
                   sc_acc := sc_acc st * b + digit_val ch |}).
    rewrite (IH tail st1 v Hv). f_equal. unfold after, st1; simpl.
    f_equal; [by destruct ds | lia].
Qed.

Lemma scan_base_digits_all b ds st v :
  b <= 62 -> digits_value b (sc_acc st) ds = Some v ->
  scan_digits b st ds = (after st ds v, EmptyString).
Proof.
  intros Hb Hv. pose proof (scan_base_digits b ds Hb EmptyString st v Hv) as H.
  by rewrite append_nil_r in H.
Qed.

Lemma detect_base_no_zero d s :
  d <> "0"%char -> detect_base (String d s) = (10, NoPrefix, start PrevOther 0, String d s).
Proof.
  intros Hd. destruct d as [[] [] [] [] [] [] [] []]; try reflexivity. by destruct Hd.
Qed.

(** Decimal digits that do not begin with [0] are read in base ten. *)
Lemma SetString_decimal d ds v :
  d <> "0"%char -> digits_value 10 0 (String d ds) = Some v ->
  SetString (String d ds) = (v, true).
Proof.
  intros Hd Hv.
  assert (Hdigit : digit_val d < 10).
  { simpl in Hv. by destruct (Z.ltb_spec (digit_val d) 10). }
  assert (Hminus : Ascii.eqb d "-" = false).
  { destruct (Ascii.eqb_spec d "-") as [-> | _]; [| done].
    change (digit_val "-") with 63 in Hdigit. lia. }
  assert (Hplus : Ascii.eqb d "+" = false).
  { destruct (Ascii.eqb_spec d "+") as [-> | _]; [| done].
    change (digit_val "+") with 63 in Hdigit. lia. }
  unfold SetString, nat_scan. rewrite Hminus, Hplus. cbn [orb].
  rewrite (detect_base_no_zero d ds Hd).
  by rewrite (scan_base_digits_all 10 (String d ds) (start PrevOther 0) v).
Qed.

(** After a bare leading [0] the digits are read in base eight. *)
Lemma SetString_leading_zero ds v :
  digits_value 8 0 ds = Some v -> SetString (String "0" ds) = (v, true).
Proof.
  intros Hv. destruct ds as [| c ds]; [by injection Hv as <- |].
  assert (Hdigit : digit_val c < 8).
  { simpl in Hv. by destruct (Z.ltb_spec (digit_val c) 8). }
  assert (Hletters : Ascii.eqb c "b" || Ascii.eqb c "B" = false /\
                     Ascii.eqb c "o" || Ascii.eqb c "O" = false /\
                     Ascii.eqb c "x" || Ascii.eqb c "X" = false).
  { assert (Hletter : forall l, 8 <= digit_val l -> Ascii.eqb c l = false).
    { intros l Hl. destruct (Ascii.eqb_spec c l) as [-> | _]; [lia | done]. }
    rewrite !Hletter; by vm_compute. }
  destruct Hletters as (Hb & Ho & Hx).
  unfold SetString, nat_scan. cbn [Ascii.eqb Bool.eqb orb detect_base].
  rewrite Hb, Ho, Hx.
  by rewrite (scan_base_digits_all 8 (String c ds) (start PrevDigit 0) v).
Qed.

(** After [0b] or [0B] the digits are read in base two, after [0o] or
    [0O] in base eight. *)
Lemma SetString_lettered p b ds v :
  ((p = "b" \/ p = "B")%char /\ b = 2) \/ ((p = "o" \/ p = "O")%char /\ b = 8) ->
  ds <> EmptyString ->
  digits_value b 0 ds = Some v ->
  SetString (String "0" (String p ds)) = (v, true).
Proof.
  intros Hp Hne Hv.
  assert (Hscan : scan_digits b (start PrevDigit 0) ds
                  = (after (start PrevDigit 0) ds v, EmptyString)).
  { apply scan_base_digits_all; [| done]. destruct Hp as [[_ ->] | [_ ->]]; lia. }
  destruct ds as [| c ds]; [done |].
  destruct Hp as [[[-> | ->] ->] | [[-> | ->] ->]]; unfold SetString, nat_scan;
    simpl detect_base; cbv beta iota; rewrite Hscan; reflexivity.
Qed.

End HexCodec.

Section HexCodecTheorems.
Import BigInt.

Lemma lower_hex_char d : is_lower_hex (hex_char d) = true.
Proof.
  unfold hex_char. destruct (Z.to_nat d) as [| k]; [reflexivity |].
  do 15 (destruct k as [| k]; [reflexivity |]). reflexivity.
Qed.

Lemma hex_digits_lower fuel : forall n tail,
  all_chars is_lower_hex tail = true ->
  all_chars is_lower_hex (hex_digits fuel n tail) = true.
Proof.
  induction fuel as [| fuel IH]; intros n tail Ht; simpl.
  - by rewrite lower_hex_char.
  - destruct (n <? 16); simpl.
    + by rewrite lower_hex_char.
    + apply IH. simpl. by rewrite lower_hex_char.
Qed.

Lemma hex_char_nonzero d : 0 < d < 16 -> hex_char d <> "0"%char.
Proof.
  intros Hd.
  assert (Hc : d = 1 \/ d = 2 \/ d = 3 \/ d = 4 \/ d = 5 \/ d = 6 \/ d = 7 \/
               d = 8 \/ d = 9 \/ d = 10 \/ d = 11 \/ d = 12 \/ d = 13 \/ d = 14 \/ d = 15)
    by lia.
  repeat (destruct Hc as [-> | Hc]; [discriminate |]). by subst.
Qed.

Lemma hex_digits_leading fuel : forall n tail,
  0 < n < 16 ^ Z.of_nat (S fuel) ->
  exists c rest, hex_digits fuel n tail = String c rest /\ c <> "0"%char.
Proof.
  induction fuel as [| fuel IH]; intros n tail Hn.
  - change (16 ^ Z.of_nat 1) with 16 in Hn. simpl.
    eexists _, _. split; [reflexivity | by apply hex_char_nonzero].
  - simpl. destruct (Z.ltb_spec n 16) as [Hlt | Hge].
    + eexists _, _. split; [reflexivity |]. apply hex_char_nonzero. lia.
    + apply IH.
      rewrite (Nat2Z.inj_succ (S fuel)), Z.pow_succ_r in Hn by lia.
      split; [apply Z.div_str_pos; lia | apply Z.div_lt_upper_bound; lia].
Qed.

Lemma Text16_nonneg n :
  0 <= n -> Text16 n = hex_digits (Z.to_nat (Z.log2 n)) n EmptyString.
Proof.
  intros Hn. unfold Text16. rewrite Z.abs_eq by done.
  destruct (Z.ltb_spec n 0); [lia | reflexivity].
Qed.

Lemma Text16_value n : 0 <= n -> spec_hex_value 0 (Text16 n) = HexOk n.
Proof.
  intros Hn. rewrite Text16_nonneg by done.
  destruct (spec_hex_value_hex_digits (Z.to_nat (Z.log2 n)) n EmptyString 0)
    as (k & _ & ->); [split; [done | by apply log2_bound] |].
  reflexivity.
Qed.

Lemma fromHex_toHex n : 0 <= n -> fromHex (toHex n) = n.
Proof.
  intros Hn. unfold fromHex, toHex.
  change ("0x" +:+ Text16 n) with (String "0" (String "x" (Text16 n))).
  rewrite (SetString_prefixed "x" (Text16 n) n); [reflexivity | by left | | by apply Text16_value].
  rewrite Text16_nonneg by done. apply hex_digits_nonempty.
Qed.

(** C5.  For every [n >= 0], [fromHex (toHex n) = n]; [toHex n] is
    ["0x"] followed by lowercase hexadecimal digits whose value is [n],
    with no leading zero unless [n] is zero, whose text is ["0"]; and
    [fromHex "0x1a" = 26], [fromHex "0x00" = 0], [toHex 255 = "0xff"]. *)
Theorem C5_hex_round_trip (n : Z) (Hn : 0 <= n) :
  fromHex (toHex n) = n /\
  (exists digits,
      toHex n = "0x" +:+ digits /\
      all_chars is_lower_hex digits = true /\
      spec_hex_value 0 digits = HexOk n /\
      (n = 0 -> digits = "0") /\
      (0 < n -> exists c rest, digits = String c rest /\ c <> "0"%char)) /\
  fromHex "0x1a" = 26 /\ fromHex "0x00" = 0 /\ toHex 255 = "0xff".
Proof.
  split; [| split; [| by repeat split]].
  - by apply fromHex_toHex.
  - exists (Text16 n). split; [reflexivity |]. split; [| split; [| split]].
    + rewrite Text16_nonneg by done. by apply hex_digits_lower.
    + by apply Text16_value.
    + by intros ->.
    + intros Hpos. rewrite Text16_nonneg by done.
      apply hex_digits_leading. split; [done | by apply log2_bound].
Qed.

Lemma C5_hex_round_trip_witness :
  0 <= 4096 /\ fromHex (toHex 4096) = 4096.
Proof. split; [lia | apply (C5_hex_round_trip 4096); lia]. Defined.

(** C4, as stated, fails on ["0xzz"]: the specification's codec
    answers [BadHex], [fromHex] answers the number 0. *)
Lemma C4_no_BadHex :
  spec_from_hex "0xzz" = BadHex /\
  fromHex_result "0xzz" = HexOk 0 /\
  ~ (forall s, fromHex_result s = spec_from_hex s).
Proof.
  split; [reflexivity |]. split; [reflexivity |].
  intros H. specialize (H "0xzz"). discriminate H.
Qed.

(** C4, amended.  [fromHex] decodes a [0x] or [0X] prefix followed by
    one or more hexadecimal digits [ds] to their value, and the empty
    string to zero; it has no error result: on a character [c] after
    the prefix and the digits that is neither a hexadecimal digit nor
    an underscore, the scan stops, [SetString] reports failure, and
    [fromHex] returns the value of the digits read so far (zero when
    there are none).  Text without that prefix is not read in base
    sixteen but in the base its own beginning selects: decimal digits
    that start with [1] to [9] in base ten, digits after a bare leading
    [0] in base eight, digits after [0b] or [0B] in base two, and digits
    after [0o] or [0O] in base eight. *)
Theorem C4_fromHex_lenient (x : ascii) (ds : string) (v : Z) (c : ascii) (rest : string)
  (Hx : (x = "x" \/ x = "X")%char)
  (Hv : spec_hex_value 0 ds = HexOk v)
  (Hc : is_hex_digit c = false) (Hsep : c <> "_"%char) :
  fromHex "" = 0 /\
  (ds <> "" ->
     SetString (String "0" (String x ds)) = (v, true) /\
     fromHex (String "0" (String x ds)) = v) /\
  SetString (String "0" (String x (ds +:+ String c rest))) = (v, false) /\
  fromHex (String "0" (String x (ds +:+ String c rest))) = v /\
  (forall d digits n,
      d <> "0"%char -> digits_value 10 0 (String d digits) = Some n ->
      fromHex (String d digits) = n) /\
  (forall digits n,
      digits_value 8 0 digits = Some n -> fromHex (String "0" digits) = n) /\
  (forall p digits n,
      (p = "b" \/ p = "B")%char -> digits <> "" ->
      digits_value 2 0 digits = Some n ->
      fromHex (String "0" (String p digits)) = n) /\
  (forall p digits n,
      (p = "o" \/ p = "O")%char -> digits <> "" ->
      digits_value 8 0 digits = Some n ->
      fromHex (String "0" (String p digits)) = n).
Proof.
  split; [reflexivity |]. split; [| split; [| split; [| repeat split]]].
  - intros Hne. unfold fromHex. by rewrite (SetString_prefixed x ds v).
  - by apply SetString_stops.
  - unfold fromHex. by rewrite (SetString_stops x ds v c rest).
  - intros d digits n Hd Hn. unfold fromHex. by rewrite (SetString_decimal d digits n).
  - intros digits n Hn. unfold fromHex. by rewrite (SetString_leading_zero digits n).
  - intros p digits n Hp Hne Hn. unfold fromHex.
    rewrite (SetString_lettered p 2 digits n); [done | by left | done | done].
  - intros p digits n Hp Hne Hn. unfold fromHex.
    rewrite (SetString_lettered p 8 digits n); [done | by right | done | done].
Qed.

Lemma C4_fromHex_lenient_witness :
  fromHex "" = 0 /\
  SetString "0X1a" = (26, true) /\ fromHex "0X1a" = 26 /\
  SetString "0X1ag7" = (26, false) /\ fromHex "0X1ag7" = 26 /\
  fromHex "10" = 10 /\ fromHex "017" = 15 /\ fromHex "0b101" = 5 /\ fromHex "0o17" = 15.
Proof.
  destruct (C4_fromHex_lenient "X" "1a" 26 "g" "7")
    as (Hempty & Hdigits & Hflag & Hstop & Hdec & Hzero & Hbin & Hoct);
    [by right | reflexivity | reflexivity | discriminate |].
  destruct (Hdigits ltac:(discriminate)) as [Hset Hvalue].
  split; [exact Hempty |]. split; [exact Hset |]. split; [exact Hvalue |].
  split; [exact Hflag |]. split; [exact Hstop |].
  split; [apply (Hdec "1"%char "0" 10); [discriminate | reflexivity] |].
  split; [apply (Hzero "17" 15); reflexivity |].
  split; [apply (Hbin "b"%char "101" 5); [by left | discriminate | reflexivity] |].
  apply (Hoct "o"%char "17" 15); [by left | discriminate | reflexivity].
Defined.

(** Without the prefix a text is not read in base sixteen: ["10"] is
    ten, ["017"] fifteen and ["0b101"] five, and in ["1a"] the scan
    stops at the letter. *)
Example fromHex_unprefixed :
  fromHex "10" = 10 /\ fromHex "017" = 15 /\ fromHex "0b101" = 5 /\ fromHex "1a" = 1 /\
  spec_from_hex "10" = HexOk 16 /\ spec_from_hex "1a" = HexOk 26.
Proof. by repeat split. Qed.

End HexCodecTheorems.

(** ** The adaptive log range fetch *)

Section FilterLogsFacts.
Import FilterLogs.
Context {EventJson : Type}.
Implicit Types (st : loop_state EventJson) (resp : rpc_result EventJson).

Lemma nextBlock_bounds toBlock st :
  fromBlock st <= toBlock -> 0 <= batchStep st ->
  fromBlock st <= nextBlock toBlock st <= toBlock /\
  nextBlock toBlock st <= fromBlock st + batchStep st.
Proof.
  intros Hle Hstep. unfold nextBlock.
  destruct (Z.ltb_spec toBlock (fromBlock st + batchStep st)); lia.
Qed.

Lemma half_bounds s : 0 <= s -> 0 <= s / 2 <= s /\ (1 <= s / 2 -> s / 2 < s).
Proof.
  intros Hs. pose proof (Z.div_mod s 2 ltac:(lia)).
  pose proof (Z.mod_pos_bound s 2 ltac:(lia)). lia.
Qed.

(** Every pass keeps the step within [0, batchStep]; a pass that goes
    round again keeps the cursor within the range and lowers the
    distance. *)
Lemma iteration_invariant toBlock st resp st' :
  fromBlock st <= toBlock -> 0 <= batchStep st ->
  state_of (iteration toBlock st resp) = Some st' ->
  0 <= batchStep st' <= batchStep st /\
  (iteration toBlock st resp = Continue st' ->
     fromBlock st <= fromBlock st' <= toBlock /\
     (distance toBlock st' < distance toBlock st)%nat).
Proof.
  intros Hle Hstep Hst.
  destruct (nextBlock_bounds toBlock st Hle Hstep) as [[Hn1 Hn2] Hn3].
  destruct (half_bounds (batchStep st) Hstep) as [Hh Hh2].
  unfold iteration in *. unfold distance.
  destruct resp as [result | msg]; cbn [batchStep fromBlock logs] in *.
  - destruct (Z.ltb_spec toBlock (nextBlock toBlock st + 1)); simpl in Hst;
      injection Hst as <-; cbn [batchStep fromBlock]; (split; [lia |]);
      intros Hc; [discriminate Hc |]. lia.
  - destruct (too_many msg); [| discriminate Hst].
    destruct (Z.ltb_spec (batchStep st / 2) 1).
    + destruct (Z.ltb_spec toBlock (nextBlock toBlock st + 1)); simpl in Hst;
        injection Hst as <-; cbn [batchStep fromBlock]; (split; [lia |]);
        intros Hc; [discriminate Hc |]. lia.
    + simpl in Hst. injection Hst as <-. cbn [batchStep fromBlock].
      split; [lia |]. intros _. lia.
Qed.

(** The loop ends within [distance] further iterations, whatever the
    endpoint answers. *)
Lemma loop_terminates fuel : forall rpc toBlock n st,
  fromBlock st <= toBlock -> 0 <= batchStep st ->
  (distance toBlock st < fuel)%nat ->
  exists r, loop fuel rpc toBlock n st = Some r.
Proof.
  induction fuel as [| fuel IH]; intros rpc toBlock n st Hle Hstep Hfuel; [lia |].
  simpl. destruct (iteration toBlock st (call rpc toBlock n st)) as [st' | st' | msg] eqn:Hit;
    [| by eauto | by eauto].
  destruct (iteration_invariant toBlock st (call rpc toBlock n st) st' Hle Hstep)
    as [Hs Hc]; [by rewrite Hit |].
  destruct (Hc Hit) as [Hfrom Hd]. apply IH; lia.
Qed.

(** An inverted range makes one call and returns. *)
Lemma loop_inverted fuel (rpc : endpoint EventJson) (from to : Z) :
  to < from -> exists r, loop (S fuel) rpc to 0 (init from to) = Some r.
Proof.
  intros Hlt. simpl. unfold iteration, nextBlock, init; cbn [fromBlock batchStep logs].
  replace (from + (to - from)) with to by lia. rewrite Z.ltb_irrefl.
  destruct (call rpc to 0 _) as [result | msg].
  - destruct (Z.ltb_spec to (to + 1)); [by eauto | lia].
  - destruct (too_many msg); [| by eauto].
    assert ((to - from) / 2 < 1).
    { apply Z.div_lt_upper_bound; lia. }
    destruct (Z.ltb_spec ((to - from) / 2) 1); [| lia].
    destruct (Z.ltb_spec to (to + 1)); [by eauto | lia].
Qed.

(** [ClientFilterLogs] returns on every range and every endpoint. *)
Lemma ClientFilterLogs_total (rpc : endpoint EventJson) from to :
  exists r, ClientFilterLogs rpc from to = Some r.
Proof.
  unfold ClientFilterLogs, enough. destruct (Z.le_gt_cases from to) as [Hle | Hgt].
  - apply loop_terminates; cbn [init fromBlock batchStep]; [done | lia |].
    unfold distance; cbn [init fromBlock batchStep]. lia.
  - apply loop_inverted. lia.
Qed.

Lemma marker_is_too_many : too_many too_many_marker = true.
Proof. reflexivity. Qed.

End FilterLogsFacts.

Section FilterLogsTheorems.
Import FilterLogs.
Context {EventJson : Type}.
Implicit Types (st : loop_state EventJson) (resp : rpc_result EventJson).

(** C2, amended.  In a pass of the loop over [from, to] (cursor within
    the range, step not negative) whose call fails with a message that
    contains the marker, the step is halved and the logs are kept; if
    the halved step is at least 1 the loop goes round again from the
    same cursor; if it is less than 1 the cursor jumps to [next + 1],
    and the loop goes round again when that is still within the range
    and otherwise ends, the call returning the logs gathered so far
    without an error.  No pass, whatever the answer, raises the step.
    An error without the marker ends the call with that error and no
    logs. *)
Theorem C2_narrowing (toBlock : Z) st (msg : string)
  (Hmsg : too_many msg = true)
  (Hrange : fromBlock st <= toBlock) (Hstep : 0 <= batchStep st) :
  let next := nextBlock toBlock st in
  let half := batchStep st / 2 in
  (exists st',
      state_of (iteration toBlock st (RpcErr msg)) = Some st' /\
      batchStep st' = half /\ logs st' = logs st /\
      (1 <= half ->
         fromBlock st' = fromBlock st /\
         iteration toBlock st (RpcErr msg) = Continue st') /\
      (half < 1 ->
         fromBlock st' = next + 1 /\
         (next + 1 <= toBlock -> iteration toBlock st (RpcErr msg) = Continue st') /\
         (toBlock < next + 1 ->
            iteration toBlock st (RpcErr msg) = Break st' /\
            forall fuel rpc n, call rpc toBlock n st = RpcErr msg ->
              loop (S fuel) rpc toBlock n st = Some (logs st, None)))) /\
  (forall resp st',
      state_of (iteration toBlock st resp) = Some st' ->
      0 <= batchStep st' <= batchStep st) /\
  (forall other,
      too_many other = false ->
      iteration toBlock st (RpcErr other) = Abort other /\
      forall fuel rpc n, call rpc toBlock n st = RpcErr other ->
        loop (S fuel) rpc toBlock n st = Some ([], Some other)).
Proof.
  intros next half. split; [| split].
  - unfold iteration. rewrite Hmsg. cbn [batchStep fromBlock logs]. fold next half.
    destruct (Z.ltb_spec half 1) as [Hlt | Hge].
    + destruct (Z.ltb_spec toBlock (next + 1)) as [Hend | Hmore].
      * eexists. split; [reflexivity |]. cbn [batchStep fromBlock logs].
        repeat split; try lia.
        intros fuel rpc n Hcall. simpl. rewrite Hcall. unfold iteration.
        rewrite Hmsg. cbn [batchStep fromBlock logs]. fold next half.
        destruct (Z.ltb_spec half 1); [| lia].
        destruct (Z.ltb_spec toBlock (next + 1)); [reflexivity | lia].
      * eexists. split; [reflexivity |]. cbn [batchStep fromBlock logs].
        repeat split; try lia.
    + eexists. split; [reflexivity |]. cbn [batchStep fromBlock logs].
      repeat split; try lia.
  - intros resp st' Hst.
    by destruct (iteration_invariant toBlock st resp st' Hrange Hstep Hst).
  - intros other Hother. unfold iteration. rewrite Hother. split; [reflexivity |].
    intros fuel rpc n Hcall. simpl. rewrite Hcall. unfold iteration.
    by rewrite Hother.
Qed.

End FilterLogsTheorems.

(** C2, as stated, fails on the range [5, 5]: the one call fails with
    the too-many-results error, the halved step is 0, the cursor jumps
    to 6, and the loop does not go round again: it ends and the call
    returns no logs and no error. *)
Lemma C2_skip_can_end_the_loop :
  let st := FilterLogs.init (EventJson := unit) 5 5 in
  let resp := FilterLogs.RpcErr (EventJson := unit) FilterLogs.too_many_marker in
  FilterLogs.too_many FilterLogs.too_many_marker = true /\
  FilterLogs.batchStep st / 2 < 1 /\
  FilterLogs.iteration 5 st resp
  = FilterLogs.Break
      {| FilterLogs.fromBlock := 6; FilterLogs.batchStep := 0; FilterLogs.logs := [] |} /\
  ~ (exists st', FilterLogs.iteration 5 st resp = FilterLogs.Continue st') /\
  FilterLogs.ClientFilterLogs (fun _ _ _ => resp) 5 5 = Some ([], None).
Proof.
  repeat split; try reflexivity. intros [st' H]. discriminate H.
Qed.

Lemma C2_narrowing_witness :
  let st := FilterLogs.init (EventJson := unit) 100 110 in
  exists st',
    FilterLogs.state_of
      (FilterLogs.iteration 110 st (FilterLogs.RpcErr FilterLogs.too_many_marker)) = Some st' /\
    FilterLogs.batchStep st' = 5.
Proof.
  intros st.
  destruct (C2_narrowing (EventJson := unit) 110 st FilterLogs.too_many_marker)
    as [(st' & Hst & Hhalf & _) _];
    [reflexivity | simpl; lia | simpl; lia |].
  exists st'. split; [exact Hst | exact Hhalf].
Defined.

(** ** The fetch against an endpoint with a cap *)

Section CappedEndpoint.
Import FilterLogs.
Context {EventJson : Type}.
Context (block_logs : Z -> list EventJson) (K : Z).

Lemma logs_between_split (a m b : Z) :
  a <= m + 1 -> m <= b ->
  (logs_between block_logs a m ++ logs_between block_logs (m + 1) b)%list
  = logs_between block_logs a b.
Proof.
  intros Ham Hmb. unfold logs_between.
  replace (b - a + 1) with ((m - a + 1) + (b - (m + 1) + 1)) by lia.
  rewrite (seqZ_app a (m - a + 1) (b - (m + 1) + 1)) by lia.
  rewrite map_app, concat_app.
  by replace (a + (m - a + 1)) with (m + 1) by lia.
Qed.

Lemma logs_between_empty (a b : Z) : b < a -> logs_between block_logs a b = [].
Proof. intros H. unfold logs_between. by rewrite seqZ_nil by lia. Qed.

(** The answer of the capped endpoint to the request of a pass. *)
Lemma call_capped toBlock n (st : loop_state EventJson) :
  0 <= fromBlock st <= toBlock -> 0 <= batchStep st ->
  call (capped block_logs K) toBlock n st
  = if nextBlock toBlock st - fromBlock st + 1 <=? K
    then RpcOk (logs_between block_logs (fromBlock st) (nextBlock toBlock st))
    else RpcErr too_many_marker.
Proof.
  intros Hfrom Hstep. unfold call, capped.
  destruct (nextBlock_bounds toBlock st) as [[Hn1 Hn2] _]; [lia | done |].
  rewrite !fromHex_toHex by lia. reflexivity.
Qed.

(** With a cap of at least two blocks no window is ever skipped: from
    any state of the loop the run ends with the logs gathered so far
    followed by those of every block from the cursor through [to]. *)
Lemma loop_capped fuel : forall toBlock n (st : loop_state EventJson),
  2 <= K ->
  0 <= fromBlock st <= toBlock -> 0 <= batchStep st ->
  (distance toBlock st < fuel)%nat ->
  loop fuel (capped block_logs K) toBlock n st
  = Some ((logs st ++ logs_between block_logs (fromBlock st) toBlock)%list, None).
Proof.
  induction fuel as [| fuel IH]; intros toBlock n st HK Hfrom Hstep Hfuel; [lia |].
  destruct (nextBlock_bounds toBlock st) as [[Hn1 Hn2] Hn3]; [lia | done |].
  cbn [loop]. rewrite call_capped by done.
  destruct (Z.leb_spec (nextBlock toBlock st - fromBlock st + 1) K) as [Hfit | Hbig].
  - unfold iteration. cbn [fromBlock batchStep logs].
    destruct (Z.ltb_spec toBlock (nextBlock toBlock st + 1)) as [Hend | Hmore].
    + cbn [logs]. by replace (nextBlock toBlock st) with toBlock by lia.
    + rewrite IH; cbn [fromBlock batchStep logs]; try lia.
      * by rewrite <- app_assoc, logs_between_split by lia.
      * unfold distance in *; cbn [fromBlock batchStep]. lia.
  - unfold iteration. rewrite marker_is_too_many. cbn [fromBlock batchStep logs].
    destruct (half_bounds (batchStep st) Hstep) as [Hh Hh2].
    assert (Hstep2 : 2 <= batchStep st) by lia.
    assert (Hhalf : 1 <= batchStep st / 2).
    { apply Z.div_le_lower_bound; lia. }
    destruct (Z.ltb_spec (batchStep st / 2) 1); [lia |].
    rewrite IH; cbn [fromBlock batchStep logs]; try lia; [done |].
    unfold distance in *; cbn [fromBlock batchStep]. lia.
Qed.

(** Against an endpoint that serves windows of at most [K >= 2] blocks
    the fetch returns exactly the logs of blocks [from] through [to],
    in block order. *)
Lemma ClientFilterLogs_capped (from to : Z) :
  2 <= K -> 0 <= from <= to ->
  ClientFilterLogs (capped block_logs K) from to
  = Some (logs_between block_logs from to, None).
Proof.
  intros HK Hrange. unfold ClientFilterLogs.
  rewrite loop_capped; cbn [init fromBlock batchStep logs]; try lia; [done |].
  unfold distance, enough; cbn [init fromBlock batchStep]. lia.
Qed.

End CappedEndpoint.

(** C3.  With a cap of one block and the range [100, 101] the fetch
    makes a single call, for the window [100, 101]; it fails, the step
    1 halves to 0, the cursor jumps past both blocks, and the call
    returns no logs at all, where the logs of blocks 100 and 101 are
    due. *)
Theorem C3_cap_of_one_block_loses_logs :
  FilterLogs.ClientFilterLogs (FilterLogs.capped one_log_per_block 1) 100 101
  = Some ([], None) /\
  FilterLogs.requests 10 (FilterLogs.capped one_log_per_block 1) 101 0
    (FilterLogs.init 100 101) = [(100, 101)] /\
  FilterLogs.logs_between one_log_per_block 100 101 = [(100, 0); (101, 0)].
Proof. by repeat split. Qed.

(** The scenario of the specification: windows of at most four blocks,
    range [100, 110]. *)
Example adaptive_fetch_scenario :
  FilterLogs.requests 30 (FilterLogs.capped one_log_per_block 4) 110 0
    (FilterLogs.init 100 110)
  = [(100, 110); (100, 105); (100, 102); (103, 105); (106, 108); (109, 110)] /\
  FilterLogs.ClientFilterLogs (FilterLogs.capped one_log_per_block 4) 100 110
  = Some (FilterLogs.logs_between one_log_per_block 100 110, None).
Proof. by split. Qed.

(** ** Log index rows *)

Lemma eventsIndex_length blocksCache parsedEvents :
  length (eventsIndex blocksCache parsedEvents) = length parsedEvents.
Proof. unfold eventsIndex. by rewrite length_imap. Qed.

Lemma eventsIndex_lookup blocksCache parsedEvents i event :
  parsedEvents !! i = Some event ->
  eventsIndex blocksCache parsedEvents !! i = Some (logIndexRow blocksCache i event).
Proof. intros H. unfold eventsIndex. by rewrite list_lookup_imap, H. Qed.

Lemma guarded_lookup (topics : list string) (k : nat) :
  (if (k <? length topics)%nat then topics !! k else None) = topics !! k.
Proof.
  destruct (Nat.ltb_spec k (length topics)) as [Hlt | Hge]; [done |].
  symmetry. by apply lookup_ge_None_2.
Qed.

(** C6.  The [i]-th event of a batch gets the [i]-th row, and in it:
    the selector is [topics[0]] when there is a topic and nil otherwise,
    [Topic1] is [topics[1]] when there are two and nil otherwise,
    [Topic2] is [topics[2]] when there are three and nil otherwise; the
    block timestamp is that of the cache entry of the event's block
    number, and 0 when the cache has no such entry.  The loop has no
    failing path: a batch of [n] events gives [n] rows. *)
Theorem C6_log_index_row (blocksCache : gmap N BlockCache)
  (parsedEvents : list XaiSepoliaEventLog) (i : nat) (event : XaiSepoliaEventLog)
  (Hi : parsedEvents !! i = Some event) :
  length (eventsIndex blocksCache parsedEvents) = length parsedEvents /\
  exists row,
    eventsIndex blocksCache parsedEvents !! i = Some row /\
    li_Selector row = ev_Topics event !! 0%nat /\
    li_Topic1 row = ev_Topics event !! 1%nat /\
    li_Topic2 row = ev_Topics event !! 2%nat /\
    ((length (ev_Topics event) < 1)%nat -> li_Selector row = None) /\
    ((length (ev_Topics event) < 2)%nat -> li_Topic1 row = None) /\
    ((length (ev_Topics event) < 3)%nat -> li_Topic2 row = None) /\
    (forall entry, blocksCache !! ev_BlockNumber event = Some entry ->
       li_BlockTimestamp row = bc_BlockTimestamp entry) /\
    (blocksCache !! ev_BlockNumber event = None -> li_BlockTimestamp row = 0%N).
Proof.
  split; [apply eventsIndex_length |].
  exists (logIndexRow blocksCache i event).
  split; [by apply eventsIndex_lookup |].
  assert (H0 : li_Selector (logIndexRow blocksCache i event) = ev_Topics event !! 0%nat).
  { simpl. by destruct (ev_Topics event). }
  assert (H1 : li_Topic1 (logIndexRow blocksCache i event) = ev_Topics event !! 1%nat).
  { simpl. apply guarded_lookup. }
  assert (H2 : li_Topic2 (logIndexRow blocksCache i event) = ev_Topics event !! 2%nat).
  { simpl. apply guarded_lookup. }
  repeat split; try done.
  - intros Hlen. rewrite H0. apply lookup_ge_None_2. lia.
  - intros Hlen. rewrite H1. apply lookup_ge_None_2. lia.
  - intros Hlen. rewrite H2. apply lookup_ge_None_2. lia.
  - intros entry Hentry. simpl. unfold cache_read. by rewrite Hentry.
  - intros Hnone. simpl. unfold cache_read. by rewrite Hnone.
Qed.

Lemma C6_log_index_row_witness :
  exists row,
    eventsIndex ∅ [approval_log] !! 0%nat = Some row /\
    li_Selector row = Some "0xt0" /\ li_Topic1 row = Some "0xt1" /\
    li_Topic2 row = None /\ li_BlockTimestamp row = 0%N.
Proof.
  destruct (C6_log_index_row ∅ [approval_log] 0 approval_log eq_refl)
    as (_ & row & Hrow & H0 & H1 & H2 & _ & _ & _ & _ & Hts).
  exists row. repeat split; try done. by apply Hts.
Defined.

(** ** The label decoders *)

Section LabelDecoderFacts.
Context {error bytes ABI Args : Type}.
Context (base64_DecodeString : string -> result error bytes)
        (Unmarshal_event : bytes -> result error XaiSepoliaEventLog)
        (Unmarshal_transaction : bytes -> result error XaiSepoliaTransaction)
        (abi_JSON : string -> result error ABI)
        (DecodeLogArgsToLabelData : ABI -> list string -> string -> result error Args)
        (hex_DecodeString : string -> result error bytes)
        (DecodeTransactionInputDataToInterface : ABI -> bytes -> result error Args)
        (json_Marshal : Args -> result error string)
        (SeerCrawlerLabel : string)
        (blocksCache : gmap N N)
        (abiMap : gmap string (gmap string (gmap string string))).

Abbreviation decode_events_loop :=
  (LabelDecoder.decode_events_loop error bytes base64_DecodeString Unmarshal_event).
Abbreviation DecodeProtoEventLogs :=
  (LabelDecoder.DecodeProtoEventLogs error bytes base64_DecodeString Unmarshal_event).
Abbreviation event_of_record :=
  (LabelDecoder.event_of_record error bytes base64_DecodeString Unmarshal_event).
Abbreviation decodes_to :=
  (LabelDecoder.decodes_to error bytes base64_DecodeString Unmarshal_event).
Abbreviation has_topics := LabelDecoder.has_topics.
Abbreviation labelled :=
  (LabelDecoder.labelled error ABI Args abi_JSON DecodeLogArgsToLabelData
     json_Marshal SeerCrawlerLabel blocksCache abiMap).
Abbreviation event_label :=
  (LabelDecoder.event_label error ABI Args abi_JSON DecodeLogArgsToLabelData
     json_Marshal SeerCrawlerLabel blocksCache abiMap).
Abbreviation event_labels_loop :=
  (LabelDecoder.event_labels_loop error ABI Args abi_JSON DecodeLogArgsToLabelData
     json_Marshal SeerCrawlerLabel blocksCache abiMap).
Abbreviation DecodeProtoEventsToLabels :=
  (LabelDecoder.DecodeProtoEventsToLabels error bytes ABI Args base64_DecodeString
     Unmarshal_event abi_JSON DecodeLogArgsToLabelData json_Marshal SeerCrawlerLabel
     blocksCache abiMap).

Lemma decode_events_loop_step acc d data :
  decode_events_loop acc (d :: data)
  = match event_of_record d with
    | Err e => Err e
    | Ok event => decode_events_loop (acc ++ [event]) data
    end.
Proof.
  simpl. unfold event_of_record. destruct (base64_DecodeString d); [| done].
  by destruct (Unmarshal_event a).
Qed.

Lemma decode_events_loop_ok data : forall acc events,
  decode_events_loop acc data = Ok events ->
  exists new, events = (acc ++ new)%list /\ Forall2 decodes_to data new.
Proof.
  induction data as [| d data IH]; intros acc events H.
  - injection H as <-. exists []. by rewrite app_nil_r.
  - rewrite decode_events_loop_step in H.
    destruct (event_of_record d) as [event |] eqn:Hd; [| done].
    destruct (IH _ _ H) as (new & -> & Hnew).
    exists (event :: new). rewrite <- app_assoc. split; [done |]. by constructor.
Qed.

Lemma decode_events_loop_fail data : forall acc d e,
  d ∈ data -> event_of_record d = Err e ->
  exists e', decode_events_loop acc data = Err e'.
Proof.
  induction data as [| d0 data IH]; intros acc d e Hin Hd; [by apply elem_of_nil in Hin |].
  rewrite decode_events_loop_step.
  destruct (event_of_record d0) as [event |] eqn:Hd0; [| by eauto].
  apply elem_of_cons in Hin as [-> | Hin]; [congruence | by eapply IH].
Qed.

Lemma event_labels_loop_ok decoded : forall acc labels,
  event_labels_loop acc decoded = (labels, None) ->
  exists new, labels = (acc ++ new)%list /\
              Forall2 labelled (List.filter has_topics decoded) new.
Proof.
  induction decoded as [| event decoded IH]; intros acc labels H; simpl in H.
  - injection H as <-. exists []. by rewrite app_nil_r.
  - change (List.filter has_topics (event :: decoded))
      with (if has_topics event then event :: List.filter has_topics decoded
            else List.filter has_topics decoded).
    unfold has_topics at 1.
    destruct (ev_Topics event) as [| topic more] eqn:Htopics; [by apply IH |].
    destruct (event_label event topic) as [label |] eqn:Hlabel; [| done].
    destruct (IH _ _ H) as (new & -> & Hnew).
    exists (label :: new). rewrite <- app_assoc. split; [done |].
    constructor; [| done]. by exists topic, more.
Qed.

Lemma event_labels_loop_err decoded : forall acc labels e,
  event_labels_loop acc decoded = (labels, Some e) -> labels = [].
Proof.
  induction decoded as [| event decoded IH]; intros acc labels e H; simpl in H; [done |].
  destruct (ev_Topics event) as [| topic more]; [by eapply IH |].
  destruct (event_label event topic) as [label |]; [by eapply IH |].
  by injection H as <- _.
Qed.

Lemma event_labels_loop_fail decoded : forall acc event topic more e,
  event ∈ decoded -> ev_Topics event = topic :: more ->
  event_label event topic = Err e ->
  exists e', event_labels_loop acc decoded = ([], Some e').
Proof.
  induction decoded as [| ev0 decoded IH]; intros acc event topic more e Hin Ht He;
    [by apply elem_of_nil in Hin |].
  simpl. apply elem_of_cons in Hin as [<- | Hin].
  - rewrite Ht, He. by eauto.
  - destruct (ev_Topics ev0) as [| t0 m0]; [by eapply IH |].
    destruct (event_label ev0 t0); [by eapply IH | by eauto].
Qed.

Lemma abi_read_miss address selector key :
  abiMap !! address = None \/
  (exists by_selector, abiMap !! address = Some by_selector /\
                       by_selector !! selector = None) ->
  abi_read abiMap address selector key = "".
Proof.
  unfold abi_read. intros [-> | (by_selector & -> & Hsel)]; simpl.
  - by rewrite lookup_empty.
  - rewrite Hsel. simpl. by rewrite lookup_empty.
Qed.

(** What [event_label] is made of: the three library calls in turn. *)
Lemma event_label_ok event topic label :
  event_label event topic = Ok label ->
  exists contractAbi decodedArgs,
    abi_JSON (abi_read abiMap (ev_Address event) topic "abi") = Ok contractAbi /\
    DecodeLogArgsToLabelData contractAbi (ev_Topics event) (ev_Data event)
    = Ok decodedArgs /\
    json_Marshal decodedArgs = Ok (el_LabelData label) /\
    el_Label label = SeerCrawlerLabel /\
    el_LabelName label = abi_read abiMap (ev_Address event) topic "abi_name" /\
    el_LabelType label = "event" /\
    el_BlockNumber label = ev_BlockNumber event /\
    el_BlockHash label = ev_BlockHash event /\
    el_Address label = ev_Address event /\
    el_TransactionHash label = ev_TransactionHash event /\
    el_BlockTimestamp label = default 0%N (blocksCache !! ev_BlockNumber event) /\
    el_LogIndex label = ev_LogIndex event.
Proof.
  unfold LabelDecoder.event_label.
  destruct (abi_JSON _) as [contractAbi |] eqn:Habi; [| done].
  destruct (DecodeLogArgsToLabelData _ _ _) as [decodedArgs |] eqn:Hargs; [| done].
  destruct (json_Marshal _) as [labelDataString |] eqn:Hjson; [| done].
  intros [= <-]. exists contractAbi, decodedArgs. simpl. by repeat split.
Qed.

Lemma event_label_err event topic e :
  event_label event topic = Err e <->
  abi_JSON (abi_read abiMap (ev_Address event) topic "abi") = Err e \/
  (exists contractAbi,
      abi_JSON (abi_read abiMap (ev_Address event) topic "abi") = Ok contractAbi /\
      (DecodeLogArgsToLabelData contractAbi (ev_Topics event) (ev_Data event) = Err e \/
       exists decodedArgs,
         DecodeLogArgsToLabelData contractAbi (ev_Topics event) (ev_Data event)
         = Ok decodedArgs /\
         json_Marshal decodedArgs = Err e)).
Proof.
  unfold LabelDecoder.event_label.
  destruct (abi_JSON _) as [contractAbi | e1] eqn:Habi.
  - destruct (DecodeLogArgsToLabelData _ _ _) as [decodedArgs | e2] eqn:Hargs.
    + destruct (json_Marshal _) as [labelDataString | e3] eqn:Hjson.
      * split; [done |]. intros [H | (abi & [= <-] & [H | (args & H1 & H2)])]; congruence.
      * split.
        -- intros [= ->]. right. exists contractAbi. split; [done |]. right. by eauto.
        -- intros [H | (abi & [= <-] & [H | (args & H1 & H2)])]; congruence.
    + split.
      * intros [= ->]. right. exists contractAbi. split; [done |]. by left.
      * intros [H | (abi & [= <-] & [H | (args & H1 & H2)])]; congruence.
  - split; [intros [= ->]; by left |].
    intros [H | (abi & H & _)]; congruence.
Qed.

(** An error of the label loop is the error of an event that has a
    topic. *)
Lemma event_labels_loop_err_cause decoded : forall acc labels e,
  event_labels_loop acc decoded = (labels, Some e) ->
  exists event topic more,
    event ∈ decoded /\ ev_Topics event = topic :: more /\
    event_label event topic = Err e.
Proof.
  induction decoded as [| ev0 decoded IH]; intros acc labels e H; simpl in H; [done |].
  destruct (ev_Topics ev0) as [| t0 m0] eqn:Ht.
  - destruct (IH _ _ _ H) as (event & topic & more & Hin & Htopics & Herr).
    exists event, topic, more. split; [by apply elem_of_cons; right | done].
  - destruct (event_label ev0 t0) as [label | e0] eqn:Hlabel.
    + destruct (IH _ _ _ H) as (event & topic & more & Hin & Htopics & Herr).
      exists event, topic, more. split; [by apply elem_of_cons; right | done].
    + injection H as _ <-. exists ev0, t0, m0. split; [by apply elem_of_cons; left | done].
Qed.

Lemma DecodeProtoEventLogs_decoded events decoded :
  Forall2 decodes_to events decoded -> DecodeProtoEventLogs events = Ok decoded.
Proof.
  intros Hdec. unfold LabelDecoder.DecodeProtoEventLogs.
  destruct (decode_events_loop [] events) as [decoded' | e] eqn:Hloop.
  - destruct (decode_events_loop_ok _ _ _ Hloop) as (new & -> & Hnew). simpl.
    f_equal. clear Hloop. revert new Hnew.
    induction Hdec as [| d ev ds evs Hd Hds IH]; intros new Hnew;
      inversion Hnew as [| ? ev' ? evs' Hd' Hds']; subst; [done |].
    unfold decodes_to in *. f_equal; [congruence | by apply IH].
  - exfalso. revert Hloop. generalize (@nil XaiSepoliaEventLog).
    induction Hdec as [| d ev ds evs Hd Hds IH]; intros acc Hloop; [done |].
    rewrite decode_events_loop_step in Hloop. unfold decodes_to in Hd.
    rewrite Hd in Hloop. by eapply IH.
Qed.

(** One record through base64 and the binary decoder, on the two calls. *)
Lemma event_of_record_ok d event :
  event_of_record d = Ok event <->
  exists raw, base64_DecodeString d = Ok raw /\ Unmarshal_event raw = Ok event.
Proof.
  unfold LabelDecoder.event_of_record. destruct (base64_DecodeString d) as [raw | e].
  - split; [by exists raw |]. by intros (raw' & [= <-] & H).
  - split; [done |]. by intros (raw' & H & _).
Qed.

Lemma event_of_record_err d e :
  event_of_record d = Err e <->
  base64_DecodeString d = Err e \/
  exists raw, base64_DecodeString d = Ok raw /\ Unmarshal_event raw = Err e.
Proof.
  unfold LabelDecoder.event_of_record. destruct (base64_DecodeString d) as [raw | e0].
  - split; [intros H; right; by exists raw |]. by intros [H | (raw' & [= <-] & H)].
  - split; [intros [= ->]; by left |]. by intros [[= ->] | (raw' & H & _)].
Qed.

(** C7.  (1) When the call returns an error it returns no labels.
    (2) A record that fails base64 or binary decoding makes the call
    return an error.  When every record decodes: (3) an event with a
    topic for which [abi.JSON] on the text selected by address and first
    topic fails, or [DecodeLogArgsToLabelData] on the event's topics and
    data fails, or [json.Marshal] of the decoded arguments fails, makes
    the call return an error; (4) an error the call returns is the
    error of one of these three calls on an event that has a topic, so
    an event without topics is passed over and never fails the call;
    (5) when the call succeeds its labels are, in order, the labels of
    the decoded events that have a topic, events without topics
    contributing nothing, and the label of an event carries the JSON of
    the arguments decoded from its topics and data with the ABI selected
    by its address and first topic, next to the event's own fields.
    (6) An event whose address and first topic have no entry in the ABI
    table fails the call as soon as the ABI parser rejects the empty
    text. *)
Theorem C7_event_labels (events : list string) :
  (forall labels e, DecodeProtoEventsToLabels events = (labels, Some e) -> labels = []) /\
  (forall d e,
      d ∈ events ->
      base64_DecodeString d = Err e \/
      (exists raw, base64_DecodeString d = Ok raw /\ Unmarshal_event raw = Err e) ->
      exists e', DecodeProtoEventsToLabels events = ([], Some e')) /\
  (forall decoded,
      Forall2 (fun d event =>
                 exists raw, base64_DecodeString d = Ok raw /\
                             Unmarshal_event raw = Ok event) events decoded ->
     (forall event topic more e,
         event ∈ decoded -> ev_Topics event = topic :: more ->
         abi_JSON (abi_read abiMap (ev_Address event) topic "abi") = Err e \/
         (exists contractAbi,
             abi_JSON (abi_read abiMap (ev_Address event) topic "abi") = Ok contractAbi /\
             (DecodeLogArgsToLabelData contractAbi (ev_Topics event) (ev_Data event)
              = Err e \/
              exists decodedArgs,
                DecodeLogArgsToLabelData contractAbi (ev_Topics event) (ev_Data event)
                = Ok decodedArgs /\
                json_Marshal decodedArgs = Err e)) ->
         exists e', DecodeProtoEventsToLabels events = ([], Some e')) /\
     (forall labels e,
         DecodeProtoEventsToLabels events = (labels, Some e) ->
         exists event topic more,
           event ∈ decoded /\ ev_Topics event = topic :: more /\
           (abi_JSON (abi_read abiMap (ev_Address event) topic "abi") = Err e \/
            (exists contractAbi,
                abi_JSON (abi_read abiMap (ev_Address event) topic "abi")
                = Ok contractAbi /\
                (DecodeLogArgsToLabelData contractAbi (ev_Topics event) (ev_Data event)
                 = Err e \/
                 exists decodedArgs,
                   DecodeLogArgsToLabelData contractAbi (ev_Topics event) (ev_Data event)
                   = Ok decodedArgs /\
                   json_Marshal decodedArgs = Err e)))) /\
     (forall labels,
         DecodeProtoEventsToLabels events = (labels, None) ->
         Forall2
           (fun event label =>
              exists topic more contractAbi decodedArgs,
                ev_Topics event = topic :: more /\
                abi_JSON (abi_read abiMap (ev_Address event) topic "abi")
                = Ok contractAbi /\
                DecodeLogArgsToLabelData contractAbi (ev_Topics event) (ev_Data event)
                = Ok decodedArgs /\
                json_Marshal decodedArgs = Ok (el_LabelData label) /\
                el_Label label = SeerCrawlerLabel /\
                el_LabelName label
                = abi_read abiMap (ev_Address event) topic "abi_name" /\
                el_LabelType label = "event" /\
                el_BlockNumber label = ev_BlockNumber event /\
                el_BlockHash label = ev_BlockHash event /\
                el_Address label = ev_Address event /\
                el_TransactionHash label = ev_TransactionHash event /\
                el_BlockTimestamp label
                = default 0%N (blocksCache !! ev_BlockNumber event) /\
                el_LogIndex label = ev_LogIndex event)
           (List.filter has_topics decoded) labels)) /\
  (forall decoded event topic more e,
      Forall2 (fun d event =>
                 exists raw, base64_DecodeString d = Ok raw /\
                             Unmarshal_event raw = Ok event) events decoded ->
      event ∈ decoded -> ev_Topics event = topic :: more ->
      abi_JSON "" = Err e ->
      abiMap !! ev_Address event = None \/
      (exists by_selector, abiMap !! ev_Address event = Some by_selector /\
                           by_selector !! topic = None) ->
      exists e', DecodeProtoEventsToLabels events = ([], Some e')).
Proof.
  unfold LabelDecoder.DecodeProtoEventsToLabels. split; [| split; [| split]].
  - intros labels e H. destruct (DecodeProtoEventLogs events) as [decoded |].
    + by eapply event_labels_loop_err.
    + by injection H as <- _.
  - intros d e Hin Hd. apply event_of_record_err in Hd.
    destruct (decode_events_loop_fail events [] d e Hin Hd) as [e' He'].
    unfold LabelDecoder.DecodeProtoEventLogs. rewrite He'. by eauto.
  - intros decoded Hdec.
    assert (Hdecoded : Forall2 decodes_to events decoded).
    { eapply Forall2_impl; [exact Hdec |]. intros d0 ev0 Hd0. by apply event_of_record_ok. }
    rewrite (DecodeProtoEventLogs_decoded events decoded Hdecoded).
    split; [| split].
    + intros event topic more e Hin Ht Hfails.
      apply event_label_err in Hfails. by eapply event_labels_loop_fail.
    + intros labels e H.
      destruct (event_labels_loop_err_cause _ _ _ _ H)
        as (event & topic & more & Hin & Ht & Herr).
      exists event, topic, more. split; [done |]. split; [done |].
      by apply event_label_err.
    + intros labels H. destruct (event_labels_loop_ok _ _ _ H) as (new & -> & Hnew).
      simpl. eapply Forall2_impl; [exact Hnew |].
      intros event label (topic & more & Ht & Hlabel).
      destruct (event_label_ok event topic label Hlabel)
        as (contractAbi & decodedArgs & Hfields).
      by exists topic, more, contractAbi, decodedArgs.
  - intros decoded event topic more e Hdec Hin Ht He Hmiss.
    assert (Hdecoded : Forall2 decodes_to events decoded).
    { eapply Forall2_impl; [exact Hdec |]. intros d0 ev0 Hd0. by apply event_of_record_ok. }
    rewrite (DecodeProtoEventLogs_decoded events decoded Hdecoded).
    eapply event_labels_loop_fail; [exact Hin | exact Ht |].
    apply event_label_err. left. by rewrite (abi_read_miss _ _ _ Hmiss).
Qed.

End LabelDecoderFacts.

Section TransactionLabelFacts.
Context {error bytes ABI Args : Type}.
Context (base64_DecodeString : string -> result error bytes)
        (Unmarshal_transaction : bytes -> result error XaiSepoliaTransaction)
        (abi_JSON : string -> result error ABI)
        (hex_DecodeString : string -> result error bytes)
        (DecodeTransactionInputDataToInterface : ABI -> bytes -> result error Args)
        (json_Marshal : Args -> result error string)
        (SeerCrawlerLabel : string)
        (blocksCache : gmap N N)
        (abiMap : gmap string (gmap string (gmap string string))).

Abbreviation DecodeProtoTransactions :=
  (LabelDecoder.DecodeProtoTransactions error bytes base64_DecodeString
     Unmarshal_transaction).
Abbreviation transaction_label :=
  (LabelDecoder.transaction_label error bytes ABI Args abi_JSON hex_DecodeString
     DecodeTransactionInputDataToInterface json_Marshal SeerCrawlerLabel blocksCache
     abiMap).
Abbreviation short_input := LabelDecoder.short_input.
Abbreviation labels_fine :=
  (LabelDecoder.labels_fine error bytes ABI Args abi_JSON hex_DecodeString
     DecodeTransactionInputDataToInterface json_Marshal SeerCrawlerLabel blocksCache
     abiMap).
Abbreviation transaction_labels_loop :=
  (LabelDecoder.transaction_labels_loop error bytes ABI Args abi_JSON hex_DecodeString
     DecodeTransactionInputDataToInterface json_Marshal SeerCrawlerLabel blocksCache
     abiMap).
Abbreviation DecodeProtoTransactionsToLabels :=
  (LabelDecoder.DecodeProtoTransactionsToLabels error bytes ABI Args
     base64_DecodeString Unmarshal_transaction abi_JSON hex_DecodeString
     DecodeTransactionInputDataToInterface json_Marshal SeerCrawlerLabel blocksCache
     abiMap).

Lemma transaction_label_short transaction :
  short_input transaction -> transaction_label transaction = Panics.
Proof.
  unfold short_input, LabelDecoder.transaction_label, GoString.slice_to. intros H.
  destruct (Nat.leb_spec 10 (String.length (tx_Input transaction))); [lia | done].
Qed.

Lemma transaction_label_long transaction :
  ~ short_input transaction -> exists r, transaction_label transaction = Returns r.
Proof.
  unfold short_input, LabelDecoder.transaction_label, GoString.slice_to,
    GoString.slice_from. intros H.
  destruct (Nat.leb_spec 10 (String.length (tx_Input transaction))); [| lia].
  destruct (abi_JSON _); [| by eauto].
  destruct (Nat.leb_spec 2 (String.length (tx_Input transaction))); [| lia].
  destruct (hex_DecodeString _); [| by eauto].
  destruct (DecodeTransactionInputDataToInterface _ _); [| by eauto].
  destruct (json_Marshal _); by eauto.
Qed.

Lemma transaction_labels_loop_returns decoded : forall acc,
  Forall (fun transaction => ~ short_input transaction) decoded ->
  exists r, transaction_labels_loop acc decoded = Returns r.
Proof.
  induction decoded as [| transaction decoded IH]; intros acc Hall; simpl; [by eauto |].
  inversion Hall as [| ? ? Hlong Hrest]; subst.
  destruct (transaction_label_long transaction Hlong) as [[label | e] ->];
    [by apply IH | by eauto].
Qed.

Lemma transaction_labels_loop_panics before : forall acc transaction after,
  Forall labels_fine before -> short_input transaction ->
  transaction_labels_loop acc (before ++ transaction :: after) = Panics.
Proof.
  induction before as [| t0 before IH]; intros acc transaction after Hfine Hshort; simpl.
  - by rewrite transaction_label_short.
  - inversion Hfine as [| ? ? [label Hlabel] Hrest]; subst. rewrite Hlabel. by apply IH.
Qed.

Lemma transaction_labels_loop_panic_cause decoded : forall acc,
  transaction_labels_loop acc decoded = Panics ->
  exists before transaction after,
    decoded = (before ++ transaction :: after)%list /\
    Forall labels_fine before /\ short_input transaction.
Proof.
  induction decoded as [| t0 decoded IH]; intros acc H; simpl in H; [done |].
  destruct (transaction_label t0) as [[label | e] |] eqn:Ht0.
  - destruct (IH _ H) as (before & transaction & after & -> & Hfine & Hshort).
    exists (t0 :: before), transaction, after. split; [done |]. split; [| done].
    constructor; [by exists label | done].
  - done.
  - exists [], t0, decoded. split; [done |]. split; [by constructor |].
    unfold short_input. destruct (Nat.lt_ge_cases (String.length (tx_Input t0)) 10)
      as [Hlt | Hge]; [done |].
    destruct (transaction_label_long t0) as [r Hr]; [unfold short_input; lia | congruence].
Qed.

(** C9.  [transaction.Input[:10]] is evaluated with nothing in front
    of it.  (1) When every decoded transaction has an input of at
    least ten characters the call returns (labels or an error).
    (2) When the records decode and some transaction has an input
    shorter than ten characters while all those before it label
    without error, the call panics; in particular when the first
    record is such a transaction.  (3) The call panics in no other
    way. *)
Theorem C9_transaction_labels_slice (transactions : list string)
  (decoded : list XaiSepoliaTransaction)
  (Hdecoded : DecodeProtoTransactions transactions = Ok decoded) :
  (Forall (fun transaction => (10 <= String.length (tx_Input transaction))%nat) decoded ->
     exists r, DecodeProtoTransactionsToLabels transactions = Returns r) /\
  (forall before transaction after,
      decoded = (before ++ transaction :: after)%list ->
      Forall labels_fine before -> short_input transaction ->
      DecodeProtoTransactionsToLabels transactions = Panics) /\
  (forall transaction after,
      decoded = transaction :: after -> short_input transaction ->
      DecodeProtoTransactionsToLabels transactions = Panics) /\
  (DecodeProtoTransactionsToLabels transactions = Panics ->
     exists transaction, transaction ∈ decoded /\ short_input transaction).
Proof.
  unfold LabelDecoder.DecodeProtoTransactionsToLabels. rewrite Hdecoded.
  split; [| split; [| split]].
  - intros Hall. apply transaction_labels_loop_returns.
    eapply Forall_impl; [exact Hall |]. unfold short_input. intros t Ht. simpl in Ht. lia.
  - intros before transaction after -> Hfine Hshort.
    by apply transaction_labels_loop_panics.
  - intros transaction after -> Hshort.
    by apply (transaction_labels_loop_panics [] [] transaction after).
  - intros Hpanic.
    destruct (transaction_labels_loop_panic_cause _ _ Hpanic)
      as (before & transaction & after & -> & _ & Hshort).
    exists transaction. split; [| done]. apply elem_of_app. right. by left.
Qed.

Lemma DecodeProtoTransactionsToLabels_decode_error transactions e :
  DecodeProtoTransactions transactions = Err e ->
  DecodeProtoTransactionsToLabels transactions = Returns ([], Some e).
Proof. intros H. unfold LabelDecoder.DecodeProtoTransactionsToLabels. by rewrite H. Qed.

End TransactionLabelFacts.

(** ** The concurrent block range fetch *)

Section ListUpdate.
Context {A : Type}.

(** Updating one position of a list, seen as a split around it. *)
Lemma insert_middle (l : list A) (i : nat) (x : A) :
  l !! i = Some x ->
  exists l1 l2, l = (l1 ++ x :: l2)%list /\
                forall y, <[i := y]> l = (l1 ++ y :: l2)%list.
Proof.
  intros Hi. exists (take i l), (drop (S i) l). split.
  - by rewrite take_drop_middle.
  - intros y. apply insert_take_drop. by eapply lookup_lt_Some.
Qed.

Lemma forallb_false_witness (p : A -> bool) (l : list A) :
  forallb p l = false -> exists i x, l !! i = Some x /\ p x = false.
Proof.
  induction l as [| a l IH]; simpl; [done |].
  destruct (p a) eqn:Ha; simpl.
  - intros H. destruct (IH H) as (i & x & Hi & Hx). by exists (S i), x.
  - intros _. by exists 0%nat, a.
Qed.

Lemma existsb_witness (p : A -> bool) (l : list A) :
  existsb p l = true -> exists i x, l !! i = Some x /\ p x = true.
Proof.
  induction l as [| a l IH]; simpl; [done |].
  destruct (p a) eqn:Ha; simpl.
  - intros _. by exists 0%nat, a.
  - intros H. destruct (IH H) as (i & x & Hi & Hx). by exists (S i), x.
Qed.

End ListUpdate.

Section AsyncFetchFacts.
Import AsyncFetch.
Context {BlockJson error : Type}.
Context (GetBlockByNumber : Z -> result error BlockJson) (maxRequests : nat).
Context (from to : Z).
Implicit Types (st : state BlockJson error) (t : Z * pc BlockJson error).

Abbreviation fire' := (fire GetBlockByNumber maxRequests).
Abbreviation reachable' := (reachable GetBlockByNumber maxRequests from to).
Abbreviation invariant := (AsyncFetch.invariant GetBlockByNumber maxRequests from to).
Abbreviation no_failure := (AsyncFetch.no_failure GetBlockByNumber from to).

Lemma count_if_app (p : Z * pc BlockJson error -> bool) l1 l2 :
  count_if p (l1 ++ l2) = (count_if p l1 + count_if p l2)%nat.
Proof. unfold count_if. by rewrite sum_list_with_app. Qed.

Lemma count_if_cons (p : Z * pc BlockJson error -> bool) t l :
  count_if p (t :: l) = ((if p t then 1 else 0) + count_if p l)%nat.
Proof. reflexivity. Qed.

Lemma work_left_split l1 t l2 sem0 ec bl fl :
  work_left {| tasks := l1 ++ t :: l2; sem := sem0; errChan := ec;
               blocks := bl; failures := fl |}
  = (sum_list_with remaining l1 + remaining t + sum_list_with remaining l2)%nat.
Proof. unfold work_left. simpl. rewrite sum_list_with_app. simpl. lia. Qed.

Lemma init_invariant : invariant (init from to).
Proof.
  unfold init. split; simpl.
  - rewrite <- list_fmap_compose. apply list_fmap_id.
  - induction (blockNumbersRange from to) as [| b l IH]; [done |].
    rewrite fmap_cons, count_if_cons. simpl. exact IH.
  - lia.
  - apply Forall_fmap. by apply Forall_true.
  - induction (blockNumbersRange from to) as [| b l IH]; [done | exact IH].
  - done.
  - induction (blockNumbersRange from to) as [| b l IH]; [done | exact IH].
Qed.

Lemma appended_blocks_split l1 t l2 :
  appended_blocks GetBlockByNumber (l1 ++ t :: l2)
  = (appended_blocks GetBlockByNumber l1
     ++ appended_blocks GetBlockByNumber [t]
     ++ appended_blocks GetBlockByNumber l2)%list.
Proof.
  unfold appended_blocks. rewrite flat_map_app. simpl. by rewrite app_nil_r.
Qed.

Lemma failed_errors_split l1 t l2 :
  failed_errors GetBlockByNumber (l1 ++ t :: l2)
  = (failed_errors GetBlockByNumber l1
     ++ failed_errors GetBlockByNumber [t]
     ++ failed_errors GetBlockByNumber l2)%list.
Proof.
  unfold failed_errors. rewrite flat_map_app. simpl. by rewrite app_nil_r.
Qed.

Lemma count_if_split (p : Z * pc BlockJson error -> bool) l1 t l2 :
  count_if p (l1 ++ t :: l2)
  = (count_if p l1 + (if p t then 1 else 0) + count_if p l2)%nat.
Proof. rewrite count_if_app, count_if_cons. lia. Qed.

Lemma snoc_middle {A} (l1 l2 l : list A) (x : A) :
  l ≡ₚ l1 ++ l2 -> l ++ [x] ≡ₚ l1 ++ x :: l2.
Proof.
  intros ->. rewrite <- !Permutation_middle. by rewrite app_nil_r.
Qed.

(** A step keeps the invariant. *)
Lemma fire_invariant i st st' :
  invariant st -> fire' i st = Some st' -> invariant st'.
Proof.
  intros [Hnum Hsem Hcap Htasks Hblocks Hchan Hfail] Hfire.
  unfold fire, set_pc in Hfire.
  destruct (tasks st !! i) as [[b p] |] eqn:Hi; [| done].
  destruct (insert_middle (tasks st) i (b, p) Hi) as (l1 & l2 & Hl & Hins).
  rewrite Hl in Hnum, Hsem, Htasks, Hblocks, Hfail.
  rewrite fmap_app, fmap_cons in Hnum.
  rewrite count_if_split in Hsem.
  rewrite appended_blocks_split in Hblocks.
  rewrite failed_errors_split in Hfail.
  apply Forall_app in Htasks as [Hl1 Htl]. apply Forall_cons in Htl as [Ht Hl2].
  destruct p as [| | block | getErr | | released]; simpl in *.
  - (* acquire *)
    destruct (Nat.ltb_spec (sem st) maxRequests) as [Hroom |]; [| done].
    injection Hfire as <-. rewrite Hins.
    split; simpl;
      rewrite ?fmap_app, ?fmap_cons, ?count_if_split, ?appended_blocks_split,
        ?failed_errors_split; simpl; try done; try lia.
    apply Forall_app. split; [done |]. by apply Forall_cons.
  - (* the call returns *)
    destruct (GetBlockByNumber b) as [block | getErr] eqn:Hcall;
      injection Hfire as <-; rewrite Hins;
      (split; simpl;
       rewrite ?fmap_app, ?fmap_cons, ?count_if_split, ?appended_blocks_split,
         ?failed_errors_split; simpl; try done; try lia;
       apply Forall_app; split; [done |]; by apply Forall_cons).
  - (* append *)
    injection Hfire as <-. rewrite Hins.
    split; simpl;
      rewrite ?fmap_app, ?fmap_cons, ?count_if_split, ?appended_blocks_split,
        ?failed_errors_split; simpl; try done; try lia.
    + apply Forall_app. split; [done |]. apply Forall_cons. split; [| done].
      by exists block.
    + unfold task_ok in Ht; simpl in Ht. unfold block_of. rewrite Ht. simpl.
      by apply snoc_middle.
  - (* select *)
    injection Hfire as <-. rewrite Hins.
    split; simpl;
      rewrite ?fmap_app, ?fmap_cons, ?count_if_split, ?appended_blocks_split,
        ?failed_errors_split; simpl; try done; try lia.
    + apply Forall_app. split; [done |]. apply Forall_cons. split; [| done].
      by exists getErr.
    + rewrite Hchan. by destruct (failures st).
    + unfold task_ok in Ht; simpl in Ht. unfold error_of. rewrite Ht. simpl.
      by apply snoc_middle.
  - (* release *)
    destruct (sem st) as [| n] eqn:Hn; [done |].
    injection Hfire as <-. rewrite Hins.
    split; simpl;
      rewrite ?fmap_app, ?fmap_cons, ?count_if_split, ?appended_blocks_split,
        ?failed_errors_split; simpl; try done; try lia.
    apply Forall_app. split; [done |]. by apply Forall_cons.
  - done.
Qed.

Lemma reachable_invariant st : reachable' st -> invariant st.
Proof.
  induction 1 as [| st st' _ IH [i Hfire]]; [apply init_invariant |].
  by eapply fire_invariant.
Qed.

Lemma run_reachable schedule : forall st,
  reachable' st -> reachable' (run GetBlockByNumber maxRequests schedule st).
Proof.
  induction schedule as [| i schedule IH]; intros st Hst; simpl; [done |].
  destruct (fire' i st) as [st' |] eqn:Hfire; [| by apply IH].
  apply IH. eapply reach_step; [exact Hst | by exists i].
Qed.

Lemma count_if_le (p q : Z * pc BlockJson error -> bool) l :
  (forall t, p t = true -> q t = true) -> (count_if p l <= count_if q l)%nat.
Proof.
  intros Hpq. induction l as [| t l IH]; [done |].
  rewrite !count_if_cons. specialize (Hpq t).
  destruct (p t), (q t); try lia; by specialize (Hpq eq_refl).
Qed.

Lemma count_if_zero (p : Z * pc BlockJson error -> bool) l :
  Forall (fun t => p t = false) l -> count_if p l = 0%nat.
Proof.
  induction 1 as [| t l Ht _ IH]; [done |]. by rewrite count_if_cons, Ht, IH.
Qed.

(** At no time are more than [maxRequests] calls in flight. *)
Lemma in_flight_bounded st : invariant st -> (in_flight st <= maxRequests)%nat.
Proof.
  intros Hinv. unfold in_flight.
  etransitivity; [apply (count_if_le is_calling holds_slot) |].
  - intros [b p]. by destruct p.
  - rewrite <- (inv_sem Hinv). apply (inv_cap Hinv).
Qed.

(** Every step uses up work. *)
Lemma fire_work_left i st st' :
  fire' i st = Some st' -> (work_left st' < work_left st)%nat.
Proof.
  unfold fire, set_pc. intros Hfire.
  destruct (tasks st !! i) as [[b p] |] eqn:Hi; [| done].
  destruct (insert_middle (tasks st) i (b, p) Hi) as (l1 & l2 & Hl & Hins).
  assert (Hbefore : work_left st
    = (sum_list_with remaining l1 + remaining (b, p) + sum_list_with remaining l2)%nat).
  { unfold work_left. rewrite Hl, sum_list_with_app. simpl. lia. }
  rewrite Hbefore.
  destruct p as [| | block | getErr | | released]; simpl in *.
  - destruct (sem st <? maxRequests)%nat; [| done].
    injection Hfire as <-. rewrite Hins, work_left_split. unfold remaining. simpl. lia.
  - destruct (GetBlockByNumber b); injection Hfire as <-;
      rewrite Hins, work_left_split; unfold remaining; simpl; lia.
  - injection Hfire as <-. rewrite Hins, work_left_split. unfold remaining. simpl. lia.
  - injection Hfire as <-. rewrite Hins, work_left_split. unfold remaining. simpl. lia.
  - destruct (sem st); [done |].
    injection Hfire as <-. rewrite Hins, work_left_split. unfold remaining. simpl. lia.
  - done.
Qed.

Lemma task_number st t : invariant st -> t ∈ tasks st -> fst t ∈ blockNumbersRange from to.
Proof.
  intros Hinv Ht. rewrite <- (inv_numbers Hinv). by apply list_elem_of_fmap_2.
Qed.

(** Without failures no goroutine is on the error path. *)
Lemma no_failure_tasks st t :
  invariant st -> no_failure -> t ∈ tasks st ->
  match snd t with Failed _ | Exited false => False | _ => True end.
Proof.
  intros Hinv Hnf Ht.
  destruct (Hnf _ (task_number st t Hinv Ht)) as [block Hblock].
  pose proof (inv_tasks Hinv) as Hok. rewrite Forall_forall in Hok.
  specialize (Hok t Ht). unfold task_ok in Hok.
  destruct (snd t) as [| | | getErr | | [|]]; try done.
  - congruence.
  - destruct Hok as [e He]. congruence.
Qed.

(** Without failures a call that has not settled can take a step. *)
Lemma progress st :
  invariant st -> no_failure -> (1 <= maxRequests)%nat ->
  settled st = false -> exists st', step GetBlockByNumber maxRequests st st'.
Proof.
  intros Hinv Hnf Hmax Hsettled.
  destruct (existsb is_active (tasks st)) eqn:Hact.
  - destruct (existsb_witness _ _ Hact) as (i & [b p] & Hi & Hp).
    assert (Hin : (b, p) ∈ tasks st) by (by eapply list_elem_of_lookup_2).
    pose proof (no_failure_tasks st _ Hinv Hnf Hin) as Hpath.
    pose proof (inv_tasks Hinv) as Hok. rewrite Forall_forall in Hok.
    specialize (Hok _ Hin).
    assert (Hgoal : exists st', fire' i st = Some st');
      [| destruct Hgoal as [st' Hst']; exists st'; by exists i].
    unfold fire. rewrite Hi.
    destruct p as [| | block | getErr | | released]; simpl in *; try done.
    + destruct (GetBlockByNumber b); by eauto.
    + by eauto.
    + assert (Hpos : (1 <= sem st)%nat).
      { rewrite (inv_sem Hinv).
        destruct (insert_middle (tasks st) i _ Hi) as (l1 & l2 & -> & _).
        rewrite count_if_split. simpl. lia. }
      destruct (sem st); [lia | by eauto].
  - destruct (forallb_false_witness _ _ Hsettled) as (i & [b p] & Hi & Hp).
    assert (Hidle : Forall (fun t => holds_slot t = false) (tasks st)).
    { rewrite Forall_forall. intros [b' p'] Hin.
      pose proof (no_failure_tasks st _ Hinv Hnf Hin) as Hpath.
      assert (Hna : is_active (b', p') = false).
      { destruct (is_active (b', p')) eqn:Ha; [| done].
        assert (existsb is_active (tasks st) = true); [| congruence].
        apply existsb_exists. exists (b', p'). split; [| done].
        by apply list_elem_of_In. }
      by destruct p' as [| | | | | [|]]. }
    assert (Hfree : sem st = 0%nat).
    { rewrite (inv_sem Hinv). by apply count_if_zero. }
    assert (Hspawned : p = Spawned).
    { assert (Hin : (b, p) ∈ tasks st) by (by eapply list_elem_of_lookup_2).
      rewrite Forall_forall in Hidle. specialize (Hidle _ Hin).
      by destruct p as [| | | | | [|]]. }
    subst p.
    assert (Hgoal : exists st', fire' i st = Some st');
      [| destruct Hgoal as [st' Hst']; exists st'; by exists i].
    unfold fire. rewrite Hi, Hfree.
    destruct (Nat.ltb_spec 0 maxRequests); [by eauto | lia].
Qed.

Lemma settled_exited st t :
  settled st = true -> t ∈ tasks st -> exists released, snd t = Exited released.
Proof.
  unfold settled. rewrite forallb_forall. intros Hall Ht.
  specialize (Hall t (proj1 (list_elem_of_In _ _) Ht)). unfold is_exited in Hall.
  destruct (snd t); try done. by eauto.
Qed.

Lemma appended_blocks_all l :
  Forall (fun t => snd t = Exited true) l ->
  appended_blocks GetBlockByNumber l = flat_map (block_of GetBlockByNumber) (fst <$> l).
Proof.
  induction 1 as [| t l Ht _ IH]; [done |].
  rewrite fmap_cons. simpl. by rewrite Ht, IH.
Qed.

Lemma failed_errors_none l :
  Forall (fun t => snd t = Exited true) l -> failed_errors GetBlockByNumber l = [].
Proof.
  induction 1 as [| t l Ht _ IH]; [done |]. simpl. by rewrite Ht.
Qed.

(** Every recorded failure is the transport's answer for a block of
    the range. *)
Lemma failures_are_transport_errors st e :
  invariant st -> e ∈ failures st ->
  exists b, b ∈ blockNumbersRange from to /\ GetBlockByNumber b = Err e.
Proof.
  intros Hinv He. rewrite (inv_failures Hinv) in He.
  apply list_elem_of_In, in_flat_map in He as ([b p] & Hin & He).
  apply list_elem_of_In in Hin. exists b. split; [by apply (task_number st (b, p)) |].
  simpl in He. destruct p as [| | | | | [|]]; try done.
  unfold error_of in He. destruct (GetBlockByNumber b); [done |].
  apply list_elem_of_In, list_elem_of_singleton in He. by subst.
Qed.

(** Once all goroutines have returned, a block whose call failed has
    left its error in the history. *)
Lemma settled_failure_recorded st b e :
  invariant st -> settled st = true ->
  b ∈ blockNumbersRange from to -> GetBlockByNumber b = Err e ->
  e ∈ failures st.
Proof.
  intros Hinv Hsettled Hb He. rewrite (inv_failures Hinv).
  rewrite <- (inv_numbers Hinv) in Hb.
  apply list_elem_of_fmap in Hb as ([b' p] & -> & Hin). simpl in He.
  destruct (settled_exited st _ Hsettled Hin) as [released Hp]. simpl in Hp. subst p.
  pose proof (inv_tasks Hinv) as Hok. rewrite Forall_forall in Hok.
  specialize (Hok _ Hin). unfold task_ok in Hok. simpl in Hok.
  destruct released; [destruct Hok as [block Hblock]; congruence |].
  apply list_elem_of_In, in_flat_map. exists (b', Exited false).
  split; [by apply list_elem_of_In |]. simpl. unfold error_of. rewrite He. by left.
Qed.

(** Without failures a settled call has every block, once. *)
Lemma settled_blocks st :
  invariant st -> no_failure -> settled st = true ->
  errChan st = None /\ blocks st ≡ₚ answers GetBlockByNumber from to.
Proof.
  intros Hinv Hnf Hsettled.
  assert (Hall : Forall (fun t => snd t = Exited true) (tasks st)).
  { rewrite Forall_forall. intros t Ht.
    destruct (settled_exited st t Hsettled Ht) as [released Hp].
    pose proof (no_failure_tasks st t Hinv Hnf Ht) as Hpath. rewrite Hp in Hpath.
    by destruct released. }
  split.
  - rewrite (inv_errChan Hinv).
    pose proof (inv_failures Hinv) as Hf. rewrite failed_errors_none in Hf by done.
    apply Permutation_nil_r in Hf. by rewrite Hf.
  - rewrite (inv_blocks Hinv), appended_blocks_all by done.
    by rewrite (inv_numbers Hinv).
Qed.

Lemma answers_numbers (number_of : BlockJson -> Z) :
  no_failure ->
  (forall b block, GetBlockByNumber b = Ok block -> number_of block = b) ->
  number_of <$> answers GetBlockByNumber from to = blockNumbersRange from to.
Proof.
  unfold no_failure, answers. intros Hnf Hnum.
  induction (blockNumbersRange from to) as [| b l IH]; [done |].
  simpl. rewrite fmap_app, IH.
  - destruct (Hnf b) as [block Hblock]; [by left |].
    unfold block_of. rewrite Hblock. simpl. by rewrite (Hnum b block).
  - intros b' Hb'. apply Hnf. by right.
Qed.

Lemma answers_length :
  no_failure ->
  length (answers GetBlockByNumber from to) = length (blockNumbersRange from to).
Proof.
  unfold no_failure, answers. intros Hnf.
  induction (blockNumbersRange from to) as [| b l IH]; [done |].
  simpl. rewrite length_app, IH.
  - destruct (Hnf b) as [block Hblock]; [by left |].
    unfold block_of. by rewrite Hblock.
  - intros b' Hb'. apply Hnf. by right.
Qed.

(** C8.  In every state of a call: the slot of [errChan] holds the
    first error that reached the [select], later ones having been
    dropped, and every such error is a transport failure of a block of
    the range.  Once every goroutine has returned: if an error was
    captured the call returns it with an empty block slice, whatever
    had been accumulated; this is the case as soon as the call of some
    block failed; and with no failure the call returns the blocks. *)
Theorem C8_first_error_wins st (Hreach : reachable' st) :
  errChan st = head (failures st) /\
  (forall e, e ∈ failures st ->
     exists b, b ∈ blockNumbersRange from to /\ GetBlockByNumber b = Err e) /\
  (settled st = true ->
     (forall e later, failures st = e :: later -> returned st = ([], Some e)) /\
     (forall b e, b ∈ blockNumbersRange from to -> GetBlockByNumber b = Err e ->
        exists first later, failures st = first :: later /\
                            returned st = ([], Some first)) /\
     (failures st = [] -> returned st = (blocks st, None))).
Proof.
  pose proof (reachable_invariant st Hreach) as Hinv.
  pose proof (inv_errChan Hinv) as Hchan.
  split; [done |]. split; [intros e; by apply failures_are_transport_errors |].
  intros Hsettled. unfold returned. rewrite Hchan. repeat split.
  - by intros e later ->.
  - intros b e Hb He.
    pose proof (settled_failure_recorded st b e Hinv Hsettled Hb He) as Hin.
    destruct (failures st) as [| first later]; [by apply elem_of_nil in Hin |].
    by exists first, later.
  - by intros ->.
Qed.

(** C10.  With [maxRequests >= 1], in every state of a call at most
    [maxRequests] transport calls are in flight; every step uses up
    work, so no run is infinite; and when no call fails, a call that
    has not settled can always take a step, and a settled call returns
    without error a block slice that is a permutation of the blocks of
    the range: as many blocks as numbers, and, the transport answering
    each number with the block of that number, each number of the
    range exactly once. *)
Theorem C10_bounded_fan_out st (Hmax : (1 <= maxRequests)%nat) (Hreach : reachable' st) :
  (in_flight st <= maxRequests)%nat /\
  (forall st', step GetBlockByNumber maxRequests st st' ->
               (work_left st' < work_left st)%nat) /\
  (no_failure ->
     (settled st = false -> exists st', step GetBlockByNumber maxRequests st st') /\
     (settled st = true ->
        returned st = (blocks st, None) /\
        blocks st ≡ₚ answers GetBlockByNumber from to /\
        length (blocks st) = length (blockNumbersRange from to) /\
        forall number_of : BlockJson -> Z,
          (forall b block, GetBlockByNumber b = Ok block -> number_of block = b) ->
          number_of <$> blocks st ≡ₚ blockNumbersRange from to)).
Proof.
  pose proof (reachable_invariant st Hreach) as Hinv.
  split; [by apply in_flight_bounded |].
  split; [intros st' [i Hfire]; by eapply fire_work_left |].
  intros Hnf. split; [by apply progress |].
  intros Hsettled. destruct (settled_blocks st Hinv Hnf Hsettled) as [Hchan Hblocks].
  assert (Hnumbers : forall number_of : BlockJson -> Z,
             (forall b block, GetBlockByNumber b = Ok block -> number_of block = b) ->
             number_of <$> blocks st ≡ₚ blockNumbersRange from to).
  { intros number_of Hnum. rewrite Hblocks. by rewrite answers_numbers. }
  repeat split; try done.
  - unfold returned. by rewrite Hchan.
  - rewrite Hblocks. by apply answers_length.
Qed.

End AsyncFetchFacts.

(** ** The theorems at work on the sample collaborators *)

Lemma C7_event_labels_witness :
  exists labels,
    Sample.DecodeProtoEventsToLabels [""; "0xt"] = (labels, None) /\
    length labels = 1%nat /\
    el_LabelName <$> labels = ["Transfer"] /\
    el_LabelData <$> labels = ["{}"].
Proof.
  pose (decoded :=
          [{| ev_Address := "0xc"; ev_Topics := []; ev_Data := "0x";
              ev_BlockNumber := 12; ev_TransactionHash := "0xh"; ev_LogIndex := 3;
              ev_BlockHash := "0xb"; ev_Removed := false |};
           {| ev_Address := "0xc"; ev_Topics := ["0xt"]; ev_Data := "0x";
              ev_BlockNumber := 12; ev_TransactionHash := "0xh"; ev_LogIndex := 3;
              ev_BlockHash := "0xb"; ev_Removed := false |}]).
  destruct (C7_event_labels Sample.base64_DecodeString Sample.Unmarshal_event
              Sample.abi_JSON Sample.DecodeLogArgsToLabelData Sample.json_Marshal
              "seer" Sample.blocksCache Sample.abiMap [""; "0xt"])
    as (_ & _ & Hdecoded & _).
  destruct (Hdecoded decoded) as (_ & _ & Hlabels).
  { repeat constructor; by eexists. }
  eexists. split; [reflexivity |].
  specialize (Hlabels _ eq_refl).
  split; [exact (eq_sym (Forall2_length _ _ _ Hlabels)) |]. split; reflexivity.
Defined.

Lemma C9_transaction_labels_slice_witness :
  Sample.DecodeProtoTransactionsToLabels ["0x"] = Panics.
Proof.
  pose (bare :=
          {| tx_Hash := "0xh"; tx_BlockNumber := 12; tx_BlockHash := "0xb";
             tx_FromAddress := "0xf"; tx_ToAddress := "0xc"; tx_Input := "0x";
             tx_TransactionIndex := 0; tx_TransactionType := 2;
             tx_BlockTimestamp := 99 |} : XaiSepoliaTransaction).
  destruct (C9_transaction_labels_slice Sample.base64_DecodeString
              Sample.Unmarshal_transaction Sample.abi_JSON Sample.hex_DecodeString
              Sample.DecodeTransactionInputDataToInterface Sample.json_Marshal
              "seer" Sample.blocksCache Sample.abiMap ["0x"] [bare] eq_refl)
    as (_ & _ & Hfirst & _).
  apply (Hfirst bare []); [reflexivity |].
  unfold LabelDecoder.short_input. simpl. lia.
Defined.

(** Blocks 1 to 3, two slots, block 2 timing out, the goroutines run
    one after another: the call settles, blocks 1 and 3 have been
    appended, and the call returns the timeout and no block. *)
Lemma C8_first_error_wins_witness :
  let st := AsyncFetch.run Sample.GetBlockByNumber 2 Sample.one_after_another
              (AsyncFetch.init 1 3) in
  AsyncFetch.settled st = true /\
  AsyncFetch.blocks st = [1; 3] /\
  AsyncFetch.returned st = ([], Some "timeout").
Proof.
  intros st.
  assert (Hreach : AsyncFetch.reachable Sample.GetBlockByNumber 2 1 3 st).
  { apply run_reachable. apply AsyncFetch.reach_init. }
  destruct (C8_first_error_wins Sample.GetBlockByNumber 2 1 3 st Hreach)
    as (_ & _ & Hsettled).
  destruct (Hsettled eq_refl) as (Hfirst & _ & _).
  split; [reflexivity |]. split; [reflexivity |].
  apply (Hfirst "timeout" []). reflexivity.
Defined.

(** Blocks 1 to 3, two slots, no failure, the last goroutines first:
    never more than two calls in flight, and the call returns the three
    blocks, in the order 3, 2, 1. *)
Lemma C10_bounded_fan_out_witness :
  let st := AsyncFetch.run Sample.GetBlockByNumber_ok 2 Sample.last_first
              (AsyncFetch.init 1 3) in
  (AsyncFetch.in_flight st <= 2)%nat /\
  AsyncFetch.returned st = ([3; 2; 1], None) /\
  AsyncFetch.blocks st ≡ₚ [1; 2; 3].
Proof.
  intros st.
  assert (Hreach : AsyncFetch.reachable Sample.GetBlockByNumber_ok 2 1 3 st).
  { apply run_reachable. apply AsyncFetch.reach_init. }
  destruct (C10_bounded_fan_out Sample.GetBlockByNumber_ok 2 1 3 st
              (le_S _ _ (le_n 1)) Hreach) as (Hflight & _ & Hok).
  split; [exact Hflight |].
  destruct Hok as [_ Hsettled].
  { intros b _. by exists b. }
  destruct (Hsettled eq_refl) as (Hret & _ & _ & Hnumbers).
  split; [exact Hret |].
  specialize (Hnumbers id). rewrite list_fmap_id in Hnumbers.
  apply Hnumbers. intros b block Hb. by injection Hb as <-.
Defined.

(** A slot taken by a goroutine whose call fails is never given back:
    the failing path returns before [<-sem].  With one slot and blocks
    1 to 3, once the goroutine of block 2 has failed, the other two
    wait for a slot for ever and the call never settles. *)
Lemma slot_lost_on_failure :
  let st := AsyncFetch.run Sample.GetBlockByNumber 1 [1; 1; 1]%nat
              (AsyncFetch.init 1 3) in
  AsyncFetch.reachable Sample.GetBlockByNumber 1 1 3 st /\
  AsyncFetch.settled st = false /\
  AsyncFetch.sem st = 1%nat /\
  forall st', ~ AsyncFetch.step Sample.GetBlockByNumber 1 st st'.
Proof.
  intros st. split; [apply run_reachable, AsyncFetch.reach_init |].
  split; [reflexivity |]. split; [reflexivity |].
  intros st' [i Hfire].
  destruct i as [| [| [| i]]]; discriminate Hfire.
Qed.

(** * Further properties of the client *)

(** ** The hex codec beyond the round trip *)

Section HexCodecMore.
Import BigInt.

Lemma Text16_negative n :
  n < 0 -> Text16 n = String "-" (Text16 (- n)).
Proof.
  intros Hn. unfold Text16.
  destruct (Z.ltb_spec n 0); [| lia]. destruct (Z.ltb_spec (- n) 0); [lia |].
  by rewrite Z.abs_opp.
Qed.

Lemma toHex_cons n : toHex n = String "0" (String "x" (Text16 n)).
Proof. reflexivity. Qed.

(** X1.  For every integer [n], [fromHex (toHex n)] is [n] when [n] is
    not negative and 0 when it is: the minus sign that [toHex] prints
    after the prefix ends the scan of [fromHex] before any digit. *)
Theorem X1_round_trip_on_all_integers (n : Z) :
  fromHex (toHex n) = Z.max 0 n.
Proof.
  destruct (Z.lt_ge_cases n 0) as [Hneg | Hpos].
  - rewrite Z.max_l by lia. rewrite toHex_cons, Text16_negative by done.
    unfold fromHex.
    exact (f_equal fst (SetString_stops "x" EmptyString 0 "-" (Text16 (- n))
                          (or_introl eq_refl) eq_refl eq_refl ltac:(discriminate))).
  - rewrite Z.max_r by lia. by apply fromHex_toHex.
Qed.

Lemma Text16_first_not_minus n :
  0 <= n -> exists c rest, Text16 n = String c rest /\ c <> "-"%char.
Proof.
  intros Hn. pose proof (hex_digits_lower (Z.to_nat (Z.log2 n)) n EmptyString eq_refl) as Hl.
  rewrite <- Text16_nonneg in Hl by done.
  pose proof (hex_digits_nonempty (Z.to_nat (Z.log2 n)) n EmptyString) as Hne.
  rewrite <- Text16_nonneg in Hne by done.
  destruct (Text16 n) as [| c rest]; [done |]. exists c, rest. split; [done |].
  simpl in Hl. apply andb_prop in Hl as [Hc _]. by intros ->.
Qed.

Lemma Text16_injective_nonneg n m :
  0 <= n -> 0 <= m -> Text16 n = Text16 m -> n = m.
Proof.
  intros Hn Hm Heq. pose proof (Text16_value n Hn) as Hvn.
  rewrite Heq, (Text16_value m Hm) in Hvn. by injection Hvn.
Qed.

Lemma toHex_inj (n m : Z) : toHex n = toHex m -> n = m.
Proof.
  rewrite !toHex_cons. intros Heq. injection Heq as Heq.
  destruct (Z.lt_ge_cases n 0) as [Hn | Hn], (Z.lt_ge_cases m 0) as [Hm | Hm].
  - rewrite (Text16_negative n), (Text16_negative m) in Heq by done.
    injection Heq as Heq. apply Text16_injective_nonneg in Heq; lia.
  - rewrite (Text16_negative n) in Heq by done.
    destruct (Text16_first_not_minus m Hm) as (c & rest & Hc & Hne).
    rewrite Hc in Heq. injection Heq as <- _. done.
  - rewrite (Text16_negative m) in Heq by done.
    destruct (Text16_first_not_minus n Hn) as (c & rest & Hc & Hne).
    rewrite Hc in Heq. injection Heq as -> _. done.
  - by apply Text16_injective_nonneg.
Qed.

(** X2.  [toHex] is injective on all integers: different block numbers,
    of either sign, never give the same request text. *)
Theorem X2_toHex_injective (n m : Z) (Hne : n <> m) : toHex n <> toHex m.
Proof. intros Heq. by apply Hne, toHex_inj. Qed.

Lemma X2_toHex_injective_witness : toHex 255 <> toHex (-255).
Proof. apply (X2_toHex_injective 255 (-255)). lia. Defined.

(** A signed, prefixed string of hexadecimal digits decodes to the
    negated value. *)
Lemma SetString_signed ds v :
  ds <> EmptyString -> spec_hex_value 0 ds = HexOk v ->
  SetString (String "-" (String "0" (String "x" ds))) = (- v, true).
Proof.
  intros Hne Hv.
  assert (Hscan : scan_digits 16 (start PrevDigit 0) ds
                  = (after (start PrevDigit 0) ds v, EmptyString)).
  { pose proof (scan_hex_digits ds EmptyString (start PrevDigit 0) v Hv) as H.
    rewrite append_nil_r in H. exact H. }
  destruct ds as [| c ds]; [done |].
  unfold SetString, nat_scan; simpl detect_base; cbv beta iota.
  rewrite Hscan. reflexivity.
Qed.

End HexCodecMore.

(** ** GetLatestBlockNumber *)

(** X3.  [GetLatestBlockNumber] hands a transport error up unchanged;
    answers [toHex n] with [n] for every [n >= 0]; rejects a prefixed
    text whose digits are followed by a character that is neither a
    hexadecimal digit nor an underscore, with the message
    ["invalid block number format: "] followed by the text; accepts a
    minus sign in front of the prefix, so that the block number it
    returns can be negative; and whenever it accepts a text, [fromHex]
    of that text is the same number. *)
Theorem X3_latest_block_number {E : Type} (n : Z) (ds : string) (v : Z) (c : ascii)
  (rest : string)
  (Hn : 0 <= n)
  (Hv : spec_hex_value 0 ds = HexOk v)
  (Hc : is_hex_digit c = false) (Hsep : c <> "_"%char) :
  (forall e : E, Rpc.GetLatestBlockNumber (Err e) = Err (Rpc.TransportError e)) /\
  Rpc.GetLatestBlockNumber (E := E) (Ok (toHex n)) = Ok n /\
  Rpc.GetLatestBlockNumber (E := E) (Ok ("0x" +:+ ds +:+ String c rest))
  = Err (Rpc.FormatError
           ("invalid block number format: " +:+ "0x" +:+ ds +:+ String c rest)) /\
  (ds <> "" ->
     Rpc.GetLatestBlockNumber (E := E) (Ok ("-0x" +:+ ds)) = Ok (- v)) /\
  (forall text number,
      Rpc.GetLatestBlockNumber (E := E) (Ok text) = Ok number -> fromHex text = number).
Proof.
  split; [done |]. split; [| split; [| split]].
  - unfold Rpc.GetLatestBlockNumber. rewrite toHex_cons.
    rewrite (SetString_prefixed "x" (BigInt.Text16 n) n);
      [done | by left | | by apply Text16_value].
    rewrite Text16_nonneg by done. apply hex_digits_nonempty.
  - unfold Rpc.GetLatestBlockNumber.
    change ("0x" +:+ ds +:+ String c rest)
      with (String "0" (String "x" (ds +:+ String c rest))).
    by rewrite (SetString_stops "x" ds v c rest); [| left | | |].
  - intros Hne. unfold Rpc.GetLatestBlockNumber.
    change ("-0x" +:+ ds) with (String "-" (String "0" (String "x" ds))).
    by rewrite (SetString_signed ds v).
  - intros text number. unfold Rpc.GetLatestBlockNumber, fromHex.
    destruct (BigInt.SetString text) as [blockNumber [|]]; [| done].
    by intros [= <-].
Qed.

Lemma X3_latest_block_number_witness :
  Rpc.GetLatestBlockNumber (E := unit) (Ok (toHex 4096)) = Ok 4096 /\
  Rpc.GetLatestBlockNumber (E := unit) (Ok "0x1ag7")
  = Err (Rpc.FormatError "invalid block number format: 0x1ag7") /\
  Rpc.GetLatestBlockNumber (E := unit) (Ok "-0x1a") = Ok (-26).
Proof.
  destruct (X3_latest_block_number (E := unit) 4096 "1a" 26 "g" "7")
    as (_ & Hok & Hbad & Hneg & _);
    [lia | reflexivity | reflexivity | discriminate |].
  split; [exact Hok |]. split; [exact Hbad |]. by apply Hneg.
Defined.

(** ** The normalizers *)

Lemma Uint64_fromHex_toHex (n : N) :
  (n < 2 ^ 64)%N -> Uint64 (fromHex (toHex (Z.of_N n))) = n.
Proof.
  intros Hn. rewrite fromHex_toHex by lia. unfold Uint64.
  rewrite Z.abs_eq by lia. rewrite Z.mod_small; [by rewrite N2Z.id |].
  split; [lia |]. change (2 ^ 64) with (Z.of_N (2 ^ 64)). lia.
Qed.

Lemma Uint64_encodes text n : encodes text n -> Uint64 (fromHex text) = n.
Proof.
  intros [Hn [-> | [-> ->]]]; [by apply Uint64_fromHex_toHex | reflexivity].
Qed.

(** X4.  The normalizers decode what [toHex] encodes.  When every
    numeric field of an event, block or transaction shape holds the
    [toHex] text of a number below 2^64, or is empty (as [IndexedAt]
    always is in an RPC answer), the record made of it has exactly those
    numbers in its numeric fields, 0 for an empty one, and every other
    field of the shape unchanged, the access list entry by entry. *)
Theorem X4_normalizers_decode_hex :
  (forall (obj : EventJson) blockNumber logIndex,
      encodes (ej_BlockNumber obj) blockNumber ->
      encodes (ej_LogIndex obj) logIndex ->
      ToProtoSingleEventLog obj
      = {| ev_Address := ej_Address obj; ev_Topics := ej_Topics obj;
           ev_Data := ej_Data obj; ev_BlockNumber := blockNumber;
           ev_TransactionHash := ej_TransactionHash obj; ev_LogIndex := logIndex;
           ev_BlockHash := ej_BlockHash obj; ev_Removed := ej_Removed obj |}) /\
  (forall (obj : BlockJson) blockNumber difficulty gasLimit gasUsed size timestamp
          indexedAt l1BlockNumber,
      encodes (bj_BlockNumber obj) blockNumber ->
      encodes (bj_Difficulty obj) difficulty ->
      encodes (bj_GasLimit obj) gasLimit ->
      encodes (bj_GasUsed obj) gasUsed ->
      encodes (bj_Size obj) size ->
      encodes (bj_Timestamp obj) timestamp ->
      encodes (bj_IndexedAt obj) indexedAt ->
      encodes (bj_L1BlockNumber obj) l1BlockNumber ->
      ToProtoSingleBlock obj
      = {| blk_BlockNumber := blockNumber; blk_Difficulty := difficulty;
           blk_ExtraData := bj_ExtraData obj; blk_GasLimit := gasLimit;
           blk_GasUsed := gasUsed; blk_BaseFeePerGas := bj_BaseFeePerGas obj;
           blk_Hash := bj_Hash obj; blk_LogsBloom := bj_LogsBloom obj;
           blk_Miner := bj_Miner obj; blk_Nonce := bj_Nonce obj;
           blk_ParentHash := bj_ParentHash obj;
           blk_ReceiptsRoot := bj_ReceiptsRoot obj;
           blk_Sha3Uncles := bj_Sha3Uncles obj; blk_Size := size;
           blk_StateRoot := bj_StateRoot obj; blk_Timestamp := timestamp;
           blk_TotalDifficulty := bj_TotalDifficulty obj;
           blk_TransactionsRoot := bj_TransactionsRoot obj;
           blk_IndexedAt := indexedAt; blk_MixHash := bj_MixHash obj;
           blk_SendCount := bj_SendCount obj; blk_SendRoot := bj_SendRoot obj;
           blk_L1BlockNumber := l1BlockNumber |}) /\
  (forall (obj : TransactionJson) blockNumber transactionIndex transactionType
          indexedAt blockTimestamp,
      encodes (tj_BlockNumber obj) blockNumber ->
      encodes (tj_TransactionIndex obj) transactionIndex ->
      encodes (tj_TransactionType obj) transactionType ->
      encodes (tj_IndexedAt obj) indexedAt ->
      encodes (tj_BlockTimestamp obj) blockTimestamp ->
      ToProtoSingleTransaction obj
      = {| tr_Hash := tj_Hash obj; tr_BlockNumber := blockNumber;
           tr_BlockHash := tj_BlockHash obj; tr_FromAddress := tj_FromAddress obj;
           tr_ToAddress := tj_ToAddress obj; tr_Gas := tj_Gas obj;
           tr_GasPrice := tj_GasPrice obj; tr_MaxFeePerGas := tj_MaxFeePerGas obj;
           tr_MaxPriorityFeePerGas := tj_MaxPriorityFeePerGas obj;
           tr_Input := tj_Input obj; tr_Nonce := tj_Nonce obj;
           tr_TransactionIndex := transactionIndex;
           tr_TransactionType := transactionType; tr_Value := tj_Value obj;
           tr_IndexedAt := indexedAt; tr_BlockTimestamp := blockTimestamp;
           tr_ChainId := tj_ChainId obj; tr_V := tj_V obj; tr_R := tj_R obj;
           tr_S := tj_S obj;
           tr_AccessList :=
             (fun al => {| al_Address := alj_Address al;
                           al_StorageKeys := alj_StorageKeys al |})
               <$> tj_AccessList obj;
           tr_YParity := tj_YParity obj |}) /\
  (forall n : N, (n < 2 ^ 64)%N -> encodes (toHex (Z.of_N n)) n) /\
  encodes "" 0.
Proof.
  split; [| split; [| split; [| split]]].
  - intros obj blockNumber logIndex Hnumber Hindex. unfold ToProtoSingleEventLog.
    by rewrite (Uint64_encodes _ _ Hnumber), (Uint64_encodes _ _ Hindex).
  - intros obj blockNumber difficulty gasLimit gasUsed size timestamp indexedAt
      l1BlockNumber H1 H2 H3 H4 H5 H6 H7 H8. unfold ToProtoSingleBlock.
    by rewrite (Uint64_encodes _ _ H1), (Uint64_encodes _ _ H2), (Uint64_encodes _ _ H3),
      (Uint64_encodes _ _ H4), (Uint64_encodes _ _ H5), (Uint64_encodes _ _ H6),
      (Uint64_encodes _ _ H7), (Uint64_encodes _ _ H8).
  - intros obj blockNumber transactionIndex transactionType indexedAt blockTimestamp
      H1 H2 H3 H4 H5. unfold ToProtoSingleTransaction.
    by rewrite (Uint64_encodes _ _ H1), (Uint64_encodes _ _ H2), (Uint64_encodes _ _ H3),
      (Uint64_encodes _ _ H4), (Uint64_encodes _ _ H5).
  - intros n Hn. split; [done | by left].
  - split; [done | by right].
Qed.

Lemma X4_normalizers_decode_hex_witness :
  ToProtoSingleEventLog
    {| ej_Address := "0xc"; ej_Topics := ["0xt"]; ej_Data := "0x";
       ej_BlockNumber := "0x64"; ej_TransactionHash := "0xh";
       ej_LogIndex := ""; ej_BlockHash := "0xb"; ej_Removed := false |}
  = {| ev_Address := "0xc"; ev_Topics := ["0xt"]; ev_Data := "0x";
       ev_BlockNumber := 100; ev_TransactionHash := "0xh";
       ev_LogIndex := 0; ev_BlockHash := "0xb"; ev_Removed := false |}.
Proof.
  destruct X4_normalizers_decode_hex as (Hevent & _ & _ & Hhex & Hempty).
  apply (Hevent
           {| ej_Address := "0xc"; ej_Topics := ["0xt"]; ej_Data := "0x";
              ej_BlockNumber := "0x64"; ej_TransactionHash := "0xh";
              ej_LogIndex := ""; ej_BlockHash := "0xb"; ej_Removed := false |}
           100%N 0%N).
  - exact (Hhex 100%N eq_refl).
  - exact Hempty.
Defined.

(** ** ParseBlocksAndTransactions after the fetch *)

Lemma parse_transactions_loop_spec timestamp transactions : forall acc,
  parse_transactions_loop timestamp acc transactions
  = (acc ++ ((fun txJson =>
                ToProtoSingleTransaction (with_block_timestamp timestamp txJson))
               <$> transactions))%list.
Proof.
  induction transactions as [| txJson rest IH]; intros acc; simpl.
  - by rewrite app_nil_r.
  - rewrite IH, <- app_assoc. reflexivity.
Qed.

Lemma parse_blocks_loop_spec (blocks : list BlockJson) :
  forall parsedBlocks parsedTransactions,
  parse_blocks_loop parsedBlocks parsedTransactions (Some <$> blocks)
  = Returns ((parsedBlocks ++ (ToProtoSingleBlock <$> blocks))%list,
             (parsedTransactions ++ flat_map parsed_transactions_of blocks)%list).
Proof.
  induction blocks as [| blockJson rest IH]; intros parsedBlocks parsedTransactions.
  - simpl. by rewrite !app_nil_r.
  - simpl. rewrite IH, parse_transactions_loop_spec, <- !app_assoc. reflexivity.
Qed.

Lemma parse_blocks_loop_nil blocksJson : forall parsedBlocks parsedTransactions,
  None ∈ blocksJson ->
  parse_blocks_loop parsedBlocks parsedTransactions blocksJson = Panics.
Proof.
  induction blocksJson as [| [blockJson |] rest IH]; intros parsedBlocks parsedTransactions Hin.
  - by apply elem_of_nil in Hin.
  - simpl. apply IH. by apply elem_of_cons in Hin as [Hin | Hin].
  - reflexivity.
Qed.

(** Pointers are all non-nil, or one of them is nil. *)
Lemma pointers_cases {A : Type} (l : list (option A)) :
  None ∈ l \/ exists values, l = Some <$> values.
Proof.
  induction l as [| [a |] l IH].
  - right. by exists [].
  - destruct IH as [Hin | [values ->]].
    + left. by apply elem_of_cons; right.
    + right. by exists (a :: values).
  - left. by apply elem_of_cons; left.
Qed.

Lemma pointers_not_nil {A : Type} (values : list A) : None ∉ Some <$> values.
Proof. intros Hin. by apply list_elem_of_fmap in Hin as (a & Ha & _). Qed.

Lemma parse_fetched_blocks {E : Type} (blocks : list BlockJson) :
  parse_fetched (error := E) (Some <$> blocks, None)
  = Returns (ToProtoSingleBlock <$> blocks, flat_map parsed_transactions_of blocks, None).
Proof. unfold parse_fetched. by rewrite parse_blocks_loop_spec. Qed.

Lemma parse_fetched_nil {E : Type} (blocksJson : list (option BlockJson)) :
  None ∈ blocksJson -> parse_fetched (error := E) (blocksJson, None) = Panics.
Proof. intros Hin. unfold parse_fetched. by rewrite parse_blocks_loop_nil. Qed.

(** X5.  After a fetch error [ParseBlocksAndTransactions] returns the
    error and nothing else, whatever was fetched.  After a fetch
    without error it panics exactly when one of the fetched block
    pointers is nil, as after a [null] answer; otherwise it returns one
    parsed block per fetched block, in fetch order, and the
    transactions of all blocks flattened in that order, every parsed
    transaction carrying the timestamp of the block it was listed in,
    whatever its own shape said. *)
Theorem X5_parse_fetched {E : Type} (blocksJson : list (option BlockJson)) :
  (forall fetchErr : E,
      parse_fetched (blocksJson, Some fetchErr) = Returns ([], [], Some fetchErr)) /\
  (parse_fetched (error := E) (blocksJson, None) = Panics <-> None ∈ blocksJson) /\
  (forall r, parse_fetched (error := E) (blocksJson, None) = Returns r ->
             exists blocks, blocksJson = Some <$> blocks) /\
  (forall blocks,
      blocksJson = Some <$> blocks ->
      parse_fetched (error := E) (blocksJson, None)
      = Returns (ToProtoSingleBlock <$> blocks,
                 flat_map parsed_transactions_of blocks, None) /\
      length (flat_map parsed_transactions_of blocks)
      = sum_list_with (fun blockJson => length (bj_Transactions blockJson)) blocks /\
      (forall transaction,
          transaction ∈ flat_map parsed_transactions_of blocks ->
          exists blockJson txJson,
            blockJson ∈ blocks /\ txJson ∈ bj_Transactions blockJson /\
            tr_BlockTimestamp transaction = blk_Timestamp (ToProtoSingleBlock blockJson) /\
            tr_Hash transaction = tj_Hash txJson /\
            tr_Input transaction = tj_Input txJson)).
Proof.
  split; [done |]. split; [| split].
  - split; [| apply parse_fetched_nil].
    intros Hpanics. destruct (pointers_cases blocksJson) as [Hin | [blocks ->]]; [done |].
    by rewrite parse_fetched_blocks in Hpanics.
  - intros r Hreturns. destruct (pointers_cases blocksJson) as [Hin | Hblocks]; [| done].
    by rewrite (parse_fetched_nil _ Hin) in Hreturns.
  - intros blocks ->. split; [apply parse_fetched_blocks |]. split.
    + induction blocks as [| blockJson rest IH]; [done |].
      simpl. rewrite length_app, IH. unfold parsed_transactions_of.
      by rewrite length_fmap.
    + intros transaction Hin.
      apply list_elem_of_In, in_flat_map in Hin as (blockJson & Hblock & Hin).
      apply list_elem_of_In in Hblock. apply list_elem_of_In in Hin.
      unfold parsed_transactions_of in Hin.
      apply list_elem_of_fmap in Hin as (txJson & -> & Htx).
      by exists blockJson, txJson.
Qed.

(** ** The block cache of FetchAsProtoBlocks *)

Lemma blocksCache_loop_lookup parsedBlocks (number : N) : forall blocksCache,
  blocksCache_loop blocksCache parsedBlocks !! number
  = match last (filter (fun block => blk_BlockNumber block = number) parsedBlocks) with
    | Some block => Some (cache_entry block)
    | None => blocksCache !! number
    end.
Proof.
  induction parsedBlocks as [| block rest IH]; intros blocksCache; [done |].
  simpl. rewrite IH, filter_cons.
  destruct (decide (blk_BlockNumber block = number)) as [Heq | Hne].
  - rewrite last_cons.
    destruct (last (filter _ rest)); [done |]. rewrite <- Heq. apply lookup_insert_eq.
  - destruct (last (filter _ rest)); [done |]. by apply lookup_insert_ne.
Qed.

Lemma filter_none {A} (P : A -> Prop) `{!forall x, Decision (P x)} (l : list A) :
  (forall x, x ∈ l -> ~ P x) -> filter P l = [].
Proof.
  induction l as [| x l IH]; intros Hall; [done |].
  rewrite filter_cons_False by (apply Hall; by left).
  apply IH. intros y Hy. apply Hall. by right.
Qed.

Lemma last_filter_unique (parsedBlocks : list XaiSepoliaBlock) (block : XaiSepoliaBlock) :
  NoDup (blk_BlockNumber <$> parsedBlocks) -> block ∈ parsedBlocks ->
  last (filter (fun other => blk_BlockNumber other = blk_BlockNumber block) parsedBlocks)
  = Some block.
Proof.
  induction parsedBlocks as [| first rest IH]; intros Hnodup Hin;
    [by apply elem_of_nil in Hin |].
  rewrite fmap_cons in Hnodup. apply NoDup_cons in Hnodup as [Hfresh Hnodup].
  rewrite filter_cons. apply elem_of_cons in Hin as [-> | Hin].
  - rewrite decide_True by done. rewrite last_cons.
    assert (Hnone : filter (fun other => blk_BlockNumber other = blk_BlockNumber first) rest = []).
    { apply filter_none. intros other Hother Heq. apply Hfresh.
      rewrite <- Heq. by apply list_elem_of_fmap_2. }
    by rewrite Hnone.
  - rewrite decide_False.
    + by apply IH.
    + intros Heq. apply Hfresh. rewrite Heq. by apply list_elem_of_fmap_2.
Qed.

Lemma blocks_cache_facts (parsedBlocks : list XaiSepoliaBlock) :
  (forall number,
      blocksCache_of parsedBlocks !! number
      = cache_entry
          <$> last (filter (fun block => blk_BlockNumber block = number) parsedBlocks)) /\
  (forall number,
      number ∉ blk_BlockNumber <$> parsedBlocks ->
      blocksCache_of parsedBlocks !! number = None) /\
  (NoDup (blk_BlockNumber <$> parsedBlocks) ->
   forall block,
     block ∈ parsedBlocks ->
     cache_read (blocksCache_of parsedBlocks) (blk_BlockNumber block)
     = {| bc_BlockNumber := blk_BlockNumber block;
          bc_BlockHash := blk_Hash block;
          bc_BlockTimestamp := blk_Timestamp block |}).
Proof.
  assert (Hlookup : forall number,
             blocksCache_of parsedBlocks !! number
             = cache_entry
                 <$> last (filter (fun block => blk_BlockNumber block = number) parsedBlocks)).
  { intros number. unfold blocksCache_of. rewrite blocksCache_loop_lookup.
    destruct (last _); [done | apply lookup_empty]. }
  split; [exact Hlookup |]. split.
  - intros number Hfresh. rewrite Hlookup.
    assert (Hnone : filter (fun block => blk_BlockNumber block = number) parsedBlocks = []).
    { apply filter_none. intros block Hblock Heq. apply Hfresh.
      rewrite <- Heq. by apply list_elem_of_fmap_2. }
    by rewrite Hnone.
  - intros Hnodup block Hin. unfold cache_read.
    by rewrite Hlookup, last_filter_unique.
Qed.

(** X6.  The block cache built by [FetchAsProtoBlocks] holds, at every
    block number, the entry of the last parsed block that has this
    number, and nothing at a number no parsed block has; when the
    parsed blocks have distinct numbers, reading the cache at the number
    of any of them gives that block's number, hash and timestamp. *)
Theorem X6_blocks_cache (parsedBlocks : list XaiSepoliaBlock) :
  (forall number,
      blocksCache_of parsedBlocks !! number
      = cache_entry
          <$> last (filter (fun block => blk_BlockNumber block = number) parsedBlocks)) /\
  (forall number,
      number ∉ blk_BlockNumber <$> parsedBlocks ->
      blocksCache_of parsedBlocks !! number = None) /\
  (NoDup (blk_BlockNumber <$> parsedBlocks) ->
   forall block,
     block ∈ parsedBlocks ->
     cache_read (blocksCache_of parsedBlocks) (blk_BlockNumber block)
     = {| bc_BlockNumber := blk_BlockNumber block;
          bc_BlockHash := blk_Hash block;
          bc_BlockTimestamp := blk_Timestamp block |}).
Proof. apply blocks_cache_facts. Qed.

(** X7.  The log index rows made with the cache of a block batch whose
    numbers are distinct: an event whose block number is that of a block
    of the batch gets that block's timestamp, and an event whose block
    number is not in the batch gets timestamp 0. *)
Theorem X7_event_rows_on_block_cache (parsedBlocks : list XaiSepoliaBlock)
  (parsedEvents : list XaiSepoliaEventLog) (i : nat) (event : XaiSepoliaEventLog)
  (Hnodup : NoDup (blk_BlockNumber <$> parsedBlocks))
  (Hevent : parsedEvents !! i = Some event) :
  exists row,
    eventsIndex (blocksCache_of parsedBlocks) parsedEvents !! i = Some row /\
    li_RowID row = N.of_nat i /\
    li_LogIndex row = ev_LogIndex event /\
    (forall block,
        block ∈ parsedBlocks -> blk_BlockNumber block = ev_BlockNumber event ->
        li_BlockTimestamp row = blk_Timestamp block) /\
    (ev_BlockNumber event ∉ blk_BlockNumber <$> parsedBlocks ->
     li_BlockTimestamp row = 0%N).
Proof.
  destruct (blocks_cache_facts parsedBlocks) as (_ & Hmiss & Hhit).
  exists (logIndexRow (blocksCache_of parsedBlocks) i event).
  split; [by apply eventsIndex_lookup |]. repeat split.
  - intros block Hin Hnumber. simpl. rewrite <- Hnumber.
    by rewrite (Hhit Hnodup block Hin).
  - intros Hfresh. simpl. unfold cache_read. by rewrite (Hmiss _ Hfresh).
Qed.

(** ** More on the adaptive log range fetch *)

Section FilterLogsMore.
Import FilterLogs FilterLogsTrace.
Context {EventJson : Type}.
Implicit Types (st : loop_state EventJson) (rpc : endpoint EventJson).

Lemma distance_positive toBlock st :
  fromBlock st <= toBlock -> 0 <= batchStep st -> (1 <= distance toBlock st)%nat.
Proof. intros Hle Hstep. unfold distance. lia. Qed.

Lemma requests_length fuel : forall rpc toBlock n st,
  fromBlock st <= toBlock -> 0 <= batchStep st ->
  (length (requests fuel rpc toBlock n st) <= distance toBlock st)%nat.
Proof.
  induction fuel as [| fuel IH]; intros rpc toBlock n st Hle Hstep; simpl; [lia |].
  pose proof (distance_positive toBlock st Hle Hstep) as Hpos.
  destruct (iteration toBlock st (call rpc toBlock n st)) as [st' | st' | msg] eqn:Hit;
    simpl; try lia.
  destruct (iteration_invariant toBlock st (call rpc toBlock n st) st' Hle Hstep)
    as [Hs Hc]; [by rewrite Hit |].
  destruct (Hc Hit) as [Hfrom Hd].
  specialize (IH rpc toBlock (S n) st' ltac:(lia) ltac:(lia)). lia.
Qed.

Lemma requests_in_range fuel : forall rpc toBlock n st,
  fromBlock st <= toBlock -> 0 <= batchStep st ->
  Forall (fun w => fromBlock st <= fst w /\ fst w <= snd w /\ snd w <= toBlock)
    (requests fuel rpc toBlock n st).
Proof.
  induction fuel as [| fuel IH]; intros rpc toBlock n st Hle Hstep; simpl; [done |].
  destruct (nextBlock_bounds toBlock st Hle Hstep) as [[Hn1 Hn2] _].
  constructor; [simpl; lia |].
  destruct (iteration toBlock st (call rpc toBlock n st)) as [st' | st' | msg] eqn:Hit;
    [| done | done].
  destruct (iteration_invariant toBlock st (call rpc toBlock n st) st' Hle Hstep)
    as [Hs Hc]; [by rewrite Hit |].
  destruct (Hc Hit) as [Hfrom Hd].
  eapply Forall_impl; [apply IH; lia |]. simpl. intros w Hw. lia.
Qed.

(** More fuel than the run needs changes neither the calls made nor
    the windows answered. *)
Lemma requests_stable fuel1 : forall fuel2 rpc toBlock n st,
  fromBlock st <= toBlock -> 0 <= batchStep st ->
  (distance toBlock st < fuel1)%nat -> (distance toBlock st < fuel2)%nat ->
  requests fuel1 rpc toBlock n st = requests fuel2 rpc toBlock n st /\
  answered fuel1 rpc toBlock n st = answered fuel2 rpc toBlock n st.
Proof.
  induction fuel1 as [| fuel1 IH]; intros fuel2 rpc toBlock n st Hle Hstep H1 H2; [lia |].
  destruct fuel2 as [| fuel2]; [lia |]. simpl.
  destruct (iteration toBlock st (call rpc toBlock n st)) as [st' | st' | msg] eqn:Hit;
    [| done | done].
  destruct (iteration_invariant toBlock st (call rpc toBlock n st) st' Hle Hstep)
    as [Hs Hc]; [by rewrite Hit |].
  destruct (Hc Hit) as [Hfrom Hd].
  destruct (IH fuel2 rpc toBlock (S n) st') as [-> ->]; (done || lia).
Qed.

(** X8.  On a range with [from <= to] and whatever the endpoint
    answers, the fetch makes at most [2 * (to - from) + 1] calls, and
    every call asks for a window [a, b] with [from <= a <= b <= to]: never
    an empty or inverted window, never a block outside the range.  (The
    calls listed are all the calls of the run: more fuel adds none.) *)
Theorem X8_requests_bounded rpc (from to : Z) (Hrange : from <= to) :
  let windows := requests (enough from to) rpc to 0 (init from to) in
  Z.of_nat (length windows) <= 2 * (to - from) + 1 /\
  (forall a b, (a, b) ∈ windows -> from <= a /\ a <= b /\ b <= to) /\
  (forall fuel, (enough from to <= fuel)%nat ->
                requests fuel rpc to 0 (init from to) = windows).
Proof.
  intros windows. split; [| split]; cycle 2.
  { intros fuel Hfuel. symmetry.
    apply (requests_stable (enough from to) fuel rpc to 0 (init from to));
      cbn [init fromBlock batchStep]; try lia;
      unfold distance, enough in *; cbn [init fromBlock batchStep]; lia. }
  - pose proof (requests_length (enough from to) rpc to 0 (init from to)) as Hlen.
    cbn [init fromBlock batchStep] in Hlen. specialize (Hlen Hrange ltac:(lia)).
    fold windows in Hlen. unfold distance in Hlen. cbn [init fromBlock batchStep] in Hlen.
    lia.
  - intros a b Hin.
    pose proof (requests_in_range (enough from to) rpc to 0 (init from to)) as Hall.
    cbn [init fromBlock batchStep] in Hall. specialize (Hall Hrange ltac:(lia)).
    rewrite Forall_forall in Hall. exact (Hall (a, b) Hin).
Qed.

Lemma ascending_weaken (windows : list (Z * Z * list EventJson)) lo lo' toBlock :
  lo' <= lo -> ascending lo toBlock windows -> ascending lo' toBlock windows.
Proof.
  destruct windows as [| [[a b] r] rest]; simpl; [done |].
  intros Hlo (Ha & Hab & Hb & Hrest). repeat split; (lia || done).
Qed.

Lemma answered_ascending fuel : forall rpc toBlock n st,
  fromBlock st <= toBlock -> 0 <= batchStep st ->
  ascending (fromBlock st) toBlock (answered fuel rpc toBlock n st).
Proof.
  induction fuel as [| fuel IH]; intros rpc toBlock n st Hle Hstep; simpl; [done |].
  destruct (nextBlock_bounds toBlock st Hle Hstep) as [[Hn1 Hn2] _].
  destruct (call rpc toBlock n st) as [result | msg] eqn:Hcall.
  - simpl. repeat split; try lia. unfold iteration. cbn [fromBlock batchStep logs].
    destruct (Z.ltb_spec toBlock (nextBlock toBlock st + 1)); [done |].
    specialize (IH rpc toBlock (S n)
                  {| fromBlock := nextBlock toBlock st + 1; batchStep := batchStep st;
                     logs := (logs st ++ result)%list |}).
    apply IH; cbn [fromBlock batchStep]; lia.
  - destruct (iteration toBlock st (RpcErr msg)) as [st' | st' | msg'] eqn:Hit;
      [| exact I | exact I].
    destruct (iteration_invariant toBlock st (RpcErr msg) st' Hle Hstep)
      as [Hs Hc]; [by rewrite Hit |].
    destruct (Hc Hit) as [Hfrom Hd].
    apply (ascending_weaken _ (fromBlock st')); [lia |]. apply IH; lia.
Qed.

Lemma iteration_error_logs toBlock st msg st' :
  state_of (iteration toBlock st (RpcErr msg)) = Some st' -> logs st' = logs st.
Proof.
  unfold iteration. destruct (too_many msg); [| done].
  cbn [fromBlock batchStep logs].
  destruct (_ <? 1); [destruct (_ <? _) |]; by intros [= <-].
Qed.

Lemma loop_logs fuel : forall rpc toBlock n st gathered,
  loop fuel rpc toBlock n st = Some (gathered, None) ->
  gathered = (logs st ++ concat (snd <$> answered fuel rpc toBlock n st))%list.
Proof.
  induction fuel as [| fuel IH]; intros rpc toBlock n st gathered Hloop; [done |].
  simpl in Hloop. simpl.
  destruct (call rpc toBlock n st) as [result | msg] eqn:Hcall.
  - unfold iteration in *. cbn [fromBlock batchStep logs] in *.
    destruct (Z.ltb_spec toBlock (nextBlock toBlock st + 1)).
    + injection Hloop as <-. simpl. by rewrite app_nil_r.
    + rewrite (IH _ _ _ _ _ Hloop). cbn [logs]. simpl. by rewrite <- app_assoc.
  - destruct (iteration toBlock st (RpcErr msg)) as [st' | st' | msg'] eqn:Hit;
      [| | done].
    + rewrite (IH _ _ _ _ _ Hloop). simpl.
      by rewrite (iteration_error_logs toBlock st msg st') by (by rewrite Hit).
    + injection Hloop as <-. simpl. rewrite app_nil_r.
      by apply (iteration_error_logs toBlock st msg st'); rewrite Hit.
Qed.

Lemma loop_error_no_logs fuel : forall rpc toBlock n st gathered err,
  loop fuel rpc toBlock n st = Some (gathered, Some err) -> gathered = [].
Proof.
  induction fuel as [| fuel IH]; intros rpc toBlock n st gathered err Hloop; [done |].
  simpl in Hloop.
  destruct (iteration toBlock st (call rpc toBlock n st)) as [st' | st' | msg];
    [by eapply IH | done | by injection Hloop as <- _].
Qed.

(** X9.  Whatever the endpoint answers on a range with [from <= to]:
    the windows that were answered with logs come one after the other,
    each starting after the end of the one before and all within the
    range, so no block is ever delivered twice; and the logs the fetch
    returns are exactly the answers to those windows, concatenated in
    call order.  When the fetch returns an error it returns no logs. *)
Theorem X9_answers_in_order rpc (from to : Z) (Hrange : from <= to) :
  let windows := answered (enough from to) rpc to 0 (init from to) in
  ascending from to windows /\
  (forall gathered,
      ClientFilterLogs rpc from to = Some (gathered, None) ->
      gathered = concat (snd <$> windows)) /\
  (forall gathered err,
      ClientFilterLogs rpc from to = Some (gathered, Some err) -> gathered = []) /\
  (forall fuel, (enough from to <= fuel)%nat ->
                answered fuel rpc to 0 (init from to) = windows).
Proof.
  intros windows. split; [| split; [| split]]; cycle 3.
  { intros fuel Hfuel. symmetry.
    apply (requests_stable (enough from to) fuel rpc to 0 (init from to));
      cbn [init fromBlock batchStep]; try lia;
      unfold distance, enough in *; cbn [init fromBlock batchStep]; lia. }
  - apply (answered_ascending (enough from to) rpc to 0 (init from to));
      cbn [init fromBlock batchStep]; lia.
  - intros gathered Hfetch. by apply loop_logs in Hfetch.
  - intros gathered err Hfetch. by apply loop_error_no_logs in Hfetch.
Qed.

Lemma loop_always_too_many fuel : forall rpc toBlock n st,
  always_too_many rpc ->
  fromBlock st <= toBlock -> 0 <= batchStep st ->
  (distance toBlock st < fuel)%nat ->
  loop fuel rpc toBlock n st = Some (logs st, None).
Proof.
  induction fuel as [| fuel IH]; intros rpc toBlock n st Hrpc Hle Hstep Hfuel; [lia |].
  simpl. unfold call. destruct (Hrpc n (toHex (fromBlock st)) (toHex (nextBlock toBlock st)))
    as (msg & -> & Hmsg).
  destruct (iteration toBlock st (RpcErr msg)) as [st' | st' | msg'] eqn:Hit.
  - destruct (iteration_invariant toBlock st (RpcErr msg) st' Hle Hstep)
      as [Hs Hc]; [by rewrite Hit |].
    destruct (Hc Hit) as [Hfrom Hd].
    rewrite IH by (done || lia).
    by rewrite (iteration_error_logs toBlock st msg st') by (by rewrite Hit).
  - by rewrite (iteration_error_logs toBlock st msg st') by (by rewrite Hit).
  - unfold iteration in Hit. by rewrite Hmsg in Hit; destruct (_ <? 1); [destruct (_ <? _) |].
Qed.

(** X10.  When every call is answered with a too-many-results error,
    also the calls for a single block, the fetch ends all the same and
    returns no logs and no error: the whole range is skipped without a
    trace in the result. *)
Theorem X10_silent_loss rpc (from to : Z)
  (Hrange : from <= to) (Hrpc : always_too_many rpc) :
  ClientFilterLogs rpc from to = Some ([], None).
Proof.
  unfold ClientFilterLogs.
  rewrite loop_always_too_many; cbn [init fromBlock batchStep logs]; try done; try lia.
  unfold distance, enough; cbn [init fromBlock batchStep]. lia.
Qed.

(** X11.  The first call asks for the whole range, [from] through [to];
    when it is answered with logs the fetch makes no other call and
    returns those logs as they are, on every range, inverted ones
    included. *)
Theorem X11_one_call_suffices rpc (from to : Z) (result : list EventJson)
  (Hfirst : rpc 0%nat (toHex from) (toHex to) = RpcOk result) :
  ClientFilterLogs rpc from to = Some (result, None) /\
  requests (enough from to) rpc to 0 (init from to) = [(from, to)].
Proof.
  assert (Hnext : nextBlock to (init (EventJson := EventJson) from to) = to).
  { unfold nextBlock, init; cbn [fromBlock batchStep].
    replace (from + (to - from)) with to by lia. by rewrite Z.ltb_irrefl. }
  unfold ClientFilterLogs, enough. simpl. unfold call. rewrite Hnext.
  cbn [init fromBlock]. rewrite Hfirst. unfold iteration. rewrite Hnext.
  cbn [fromBlock batchStep logs].
  destruct (Z.ltb_spec to (to + 1)); [done | lia].
Qed.

End FilterLogsMore.

Section SingleBlockCap.
Import FilterLogs.
Context {EventJson : Type}.
Context (block_logs : Z -> list EventJson).

(** With a step of 0 every window is one block, which any cap of at
    least one block lets through. *)
Lemma loop_capped_single_blocks K fuel : forall toBlock n (st : loop_state EventJson),
  1 <= K ->
  0 <= fromBlock st <= toBlock -> batchStep st = 0 ->
  (distance toBlock st < fuel)%nat ->
  loop fuel (capped block_logs K) toBlock n st
  = Some ((logs st ++ logs_between block_logs (fromBlock st) toBlock)%list, None).
Proof.
  induction fuel as [| fuel IH]; intros toBlock n st HK Hfrom Hstep Hfuel; [lia |].
  assert (Hnext : nextBlock toBlock st = fromBlock st).
  { unfold nextBlock. rewrite Hstep, Z.add_0_r.
    destruct (Z.ltb_spec toBlock (fromBlock st)); [lia | done]. }
  cbn [loop]. rewrite call_capped by lia. rewrite Hnext.
  destruct (Z.leb_spec (fromBlock st - fromBlock st + 1) K); [| lia].
  unfold iteration. rewrite Hnext. cbn [fromBlock batchStep logs].
  destruct (Z.ltb_spec toBlock (fromBlock st + 1)) as [Hend | Hmore].
  - cbn [logs]. by replace toBlock with (fromBlock st) by lia.
  - rewrite IH; cbn [fromBlock batchStep logs]; try lia.
    + by rewrite <- app_assoc, logs_between_split by lia.
    + unfold distance in *; cbn [fromBlock batchStep]. lia.
Qed.

(** With a cap of one block and at least two blocks ahead, every window
    of a positive step fails until the step is 1; that window of two
    blocks fails too, and the cursor jumps past both. *)
Lemma loop_capped_one fuel : forall toBlock n (st : loop_state EventJson),
  0 <= fromBlock st < toBlock -> 1 <= batchStep st ->
  (distance toBlock st < fuel)%nat ->
  loop fuel (capped block_logs 1) toBlock n st
  = Some ((logs st ++ logs_between block_logs (fromBlock st + 2) toBlock)%list, None).
Proof.
  induction fuel as [| fuel IH]; intros toBlock n st Hfrom Hstep Hfuel; [lia |].
  destruct (nextBlock_bounds toBlock st) as [[Hn1 Hn2] Hn3]; [lia | lia |].
  assert (Hwide : fromBlock st + 1 <= nextBlock toBlock st).
  { unfold nextBlock. destruct (Z.ltb_spec toBlock (fromBlock st + batchStep st)); lia. }
  cbn [loop]. rewrite call_capped by lia.
  destruct (Z.leb_spec (nextBlock toBlock st - fromBlock st + 1) 1); [lia |].
  unfold iteration. rewrite marker_is_too_many. cbn [fromBlock batchStep logs].
  destruct (half_bounds (batchStep st) ltac:(lia)) as [Hh Hh2].
  destruct (Z.ltb_spec (batchStep st / 2) 1) as [Hsmall | Hbig].
  - assert (Hone : batchStep st = 1).
    { destruct (Z.eq_dec (batchStep st) 1) as [| Hne]; [done |].
      assert (1 <= batchStep st / 2) by (apply Z.div_le_lower_bound; lia). lia. }
    assert (Hnext : nextBlock toBlock st = fromBlock st + 1).
    { unfold nextBlock. rewrite Hone.
      destruct (Z.ltb_spec toBlock (fromBlock st + 1)); lia. }
    rewrite Hnext.
    destruct (Z.ltb_spec toBlock (fromBlock st + 1 + 1)) as [Hend | Hmore].
    + cbn [logs]. rewrite logs_between_empty by lia. by rewrite app_nil_r.
    + rewrite loop_capped_single_blocks; cbn [fromBlock batchStep logs]; try lia.
      * by replace (fromBlock st + 1 + 1) with (fromBlock st + 2) by lia.
      * unfold distance in *; cbn [fromBlock batchStep]. rewrite Hone in *.
        change (1 / 2) with 0. lia.
  - rewrite IH; cbn [fromBlock batchStep logs]; try lia; [done |].
    unfold distance in *; cbn [fromBlock batchStep]. lia.
Qed.

(** X12.  Against an endpoint that serves single-block windows only,
    the fetch of a range with [0 <= from < to] returns exactly the logs
    of blocks [from + 2] through [to]: the logs of the first two blocks
    of the range are always lost, and no error is returned. *)
Theorem X12_single_block_cap (from to : Z) (Hrange : 0 <= from < to) :
  ClientFilterLogs (capped block_logs 1) from to
  = Some (logs_between block_logs (from + 2) to, None).
Proof.
  unfold ClientFilterLogs.
  rewrite loop_capped_one; cbn [init fromBlock batchStep logs]; try lia; [done |].
  unfold distance, enough; cbn [init fromBlock batchStep]. lia.
Qed.

End SingleBlockCap.

(** ** ParseEvents and FetchAsProtoEvents on the fetch *)

Lemma ParseEvents_total rpc from to : exists r, ParseEvents rpc from to = Some r.
Proof.
  unfold ParseEvents. destruct (ClientFilterLogs_total rpc from to) as [[logs [err |]] ->];
    by eauto.
Qed.

(** X13.  [FetchAsProtoEvents] always returns.  When the log fetch
    fails it returns the error with no events and no rows.  When the
    log fetch succeeds with [logs], the events are the logs normalized
    in fetch order and there is one index row per log, row [i] carrying
    row id [i] and the block number and log index decoded from log [i].
    Against an endpoint serving windows of at least two blocks, on a
    range with [0 <= from <= to], these are the logs of every block of
    the range, each once, in block order. *)
Theorem X13_fetch_events (rpc : FilterLogs.endpoint EventJson) (from to : Z)
  (blocksCahche : gmap N BlockCache) :
  (exists r, FetchAsProtoEvents rpc from to blocksCahche = Some r) /\
  (forall logs err,
      FilterLogs.ClientFilterLogs rpc from to = Some (logs, Some err) ->
      FetchAsProtoEvents rpc from to blocksCahche = Some ([], [], Some err)) /\
  (forall logs,
      FilterLogs.ClientFilterLogs rpc from to = Some (logs, None) ->
      exists rows,
        FetchAsProtoEvents rpc from to blocksCahche
        = Some (ToProtoSingleEventLog <$> logs, rows, None) /\
        length rows = length logs /\
        forall i log,
          logs !! i = Some log ->
          exists row,
            rows !! i = Some row /\
            li_RowID row = N.of_nat i /\
            li_BlockNumber row = Uint64 (fromHex (ej_BlockNumber log)) /\
            li_LogIndex row = Uint64 (fromHex (ej_LogIndex log)) /\
            li_Selector row = ej_Topics log !! 0%nat) /\
  (forall block_logs K,
      2 <= K -> 0 <= from <= to ->
      rpc = FilterLogs.capped block_logs K ->
      FetchAsProtoEvents rpc from to blocksCahche
      = Some (ToProtoSingleEventLog <$> FilterLogs.logs_between block_logs from to,
              eventsIndex blocksCahche
                (ToProtoSingleEventLog <$> FilterLogs.logs_between block_logs from to),
              None)).
Proof.
  split; [| split; [| split]].
  - unfold FetchAsProtoEvents.
    destruct (ParseEvents_total rpc from to) as [[parsed [err |]] ->]; by eauto.
  - intros logs err Hfetch. unfold FetchAsProtoEvents, ParseEvents. by rewrite Hfetch.
  - intros logs Hfetch. unfold FetchAsProtoEvents, ParseEvents. rewrite Hfetch.
    eexists. split; [reflexivity |]. split.
    + by rewrite eventsIndex_length, length_fmap.
    + intros i log Hlog.
      exists (logIndexRow blocksCahche i (ToProtoSingleEventLog log)).
      split; [apply eventsIndex_lookup; by rewrite list_lookup_fmap, Hlog |].
      repeat split. simpl. by destruct (ej_Topics log).
  - intros block_logs K HK Hrange ->. unfold FetchAsProtoEvents, ParseEvents.
    by rewrite ClientFilterLogs_capped.
Qed.

(** ** The sequential block range fetches *)

Section SequentialFetchFacts.
Import SequentialFetch.
Context {Block E St : Type}.
Context (get : St -> Z -> result E Block * St).

Lemma fetched_in_turn_snoc s i blocks s1 block s2 :
  fetched_in_turn get s i blocks s1 ->
  get s1 (i + Z.of_nat (length blocks)) = (Ok block, s2) ->
  fetched_in_turn get s i (blocks ++ [block]) s2.
Proof.
  induction 1 as [s i | s i b s1 blocks s' Hget Hrest IH]; intros Hlast; simpl in *.
  - rewrite Z.add_0_r in Hlast. econstructor; [exact Hlast | constructor].
  - econstructor; [exact Hget |]. apply IH.
    by replace (i + 1 + Z.of_nat (length blocks)) with (i + Z.of_nat (S (length blocks)))
      by lia.
Qed.

(** The loop returns once its fuel covers the numbers left. *)
Lemma range_loop_total fuel : forall s i to blocks,
  (Z.to_nat (to - i + 1) <= fuel)%nat ->
  exists r, range_loop get fuel s i to blocks = Some r.
Proof.
  induction fuel as [| fuel IH]; intros s i to blocks Hfuel; simpl.
  - destruct (Z.ltb_spec to i); [by eauto | lia].
  - destruct (Z.ltb_spec to i); [by eauto |].
    destruct (get s i) as [[block | err] s1]; [| by eauto].
    apply IH. lia.
Qed.

(** A run without error: the blocks of the numbers from [i] on, in
    turn, up to and including [to]. *)
Lemma range_loop_ok fuel : forall s i to acc blocks s' i',
  range_loop get fuel s i to acc = Some (blocks, None, s', i') ->
  exists new,
    blocks = (acc ++ new)%list /\
    fetched_in_turn get s i new s' /\
    i' = i + Z.of_nat (length new) /\ to < i' /\
    (new <> [] -> i' = to + 1).
Proof.
  induction fuel as [| fuel IH]; intros s i to acc blocks s' i' Hloop; simpl in Hloop.
  - destruct (Z.ltb_spec to i); [| done]. injection Hloop as <- <- <-.
    exists []. rewrite app_nil_r, Z.add_0_r. repeat split; (done || constructor).
  - destruct (Z.ltb_spec to i).
    + injection Hloop as <- <- <-.
      exists []. rewrite app_nil_r, Z.add_0_r. repeat split; (done || constructor).
    + destruct (get s i) as [[block | err] s1] eqn:Hget; [| done].
      destruct (IH _ _ _ _ _ _ _ Hloop) as (new & -> & Hrun & -> & Hend & Hlast).
      exists (block :: new). rewrite <- app_assoc. split; [done |].
      split; [by econstructor |]. cbn [length].
      split; [lia |]. split; [lia |]. intros _.
      destruct new as [| b new]; [cbn [length] in *; lia |].
      specialize (Hlast ltac:(done)). cbn [length] in *. lia.
Qed.

(** A run that ends in an error: the numbers before [i'] were fetched
    in turn, the call for [i'] failed, and no block is returned. *)
Lemma range_loop_err fuel : forall s i to acc blocks err s' i',
  range_loop get fuel s i to acc = Some (blocks, Some err, s', i') ->
  blocks = [] /\
  exists before s1,
    fetched_in_turn get s i before s1 /\
    i' = i + Z.of_nat (length before) /\ i' <= to /\
    get s1 i' = (Err err, s').
Proof.
  induction fuel as [| fuel IH]; intros s i to acc blocks err s' i' Hloop; simpl in Hloop.
  - by destruct (to <? i).
  - destruct (Z.ltb_spec to i); [done |].
    destruct (get s i) as [[block | err0] s1] eqn:Hget.
    + destruct (IH _ _ _ _ _ _ _ _ Hloop) as (-> & before & s2 & Hrun & -> & Hle & Hfail).
      split; [done |]. exists (block :: before), s2.
      split; [by econstructor |]. cbn [length]. split; [lia |]. split; [lia |].
      by replace (i + Z.of_nat (S (length before))) with (i + 1 + Z.of_nat (length before))
        by lia.
    + injection Hloop as <- <- <- <-. split; [done |]. exists [], s.
      rewrite Z.add_0_r. repeat split; (done || lia || constructor).
Qed.

End SequentialFetchFacts.

Section StatelessFetch.
Import SequentialFetch.
Context {Block E : Type}.
Context (GetBlockByNumber : Z -> result E Block).

Lemma fetched_in_turn_stateless s i blocks s' :
  fetched_in_turn (stateless GetBlockByNumber) s i blocks s' ->
  Forall2 (fun number block => GetBlockByNumber number = Ok block)
    (seqZ i (Z.of_nat (length blocks))) blocks.
Proof.
  induction 1 as [s i | s i block s1 blocks s' Hget Hrest IH]; [constructor |].
  simpl length. rewrite seqZ_cons by lia.
  unfold stateless in Hget. injection Hget as Hget _.
  constructor; [done |].
  by replace (Z.pred (Z.of_nat (S (length blocks)))) with (Z.of_nat (length blocks)) by lia.
Qed.

Lemma answers_of_fetched (numbers : list Z) (blocks : list Block) :
  Forall2 (fun number block => GetBlockByNumber number = Ok block) numbers blocks ->
  flat_map (AsyncFetch.block_of GetBlockByNumber) numbers = blocks.
Proof.
  induction 1 as [| number block numbers blocks Hget _ IH]; [done |].
  simpl. unfold AsyncFetch.block_of at 1. rewrite Hget. simpl. by rewrite IH.
Qed.

Lemma sequential_fetch_facts (from to : Z) :
  exists blocks err,
    FetchBlocksInRange (stateless GetBlockByNumber) tt from to = Some (blocks, err, tt) /\
    (err = None ->
       Forall2 (fun number block => GetBlockByNumber number = Ok block)
         (AsyncFetch.blockNumbersRange from to) blocks /\
       blocks = AsyncFetch.answers GetBlockByNumber from to) /\
    (forall e,
        err = Some e ->
        blocks = [] /\
        exists failing,
          from <= failing <= to /\ GetBlockByNumber failing = Err e /\
          forall number, from <= number < failing ->
                         exists block, GetBlockByNumber number = Ok block) /\
    ((exists number e, from <= number <= to /\ GetBlockByNumber number = Err e) ->
     err <> None).
Proof.
  unfold FetchBlocksInRange.
  destruct (range_loop_total (stateless GetBlockByNumber) (span from to) tt from to [])
    as [[[[blocks err] []] i'] Hloop]; [unfold span; lia |].
  rewrite Hloop. exists blocks, err. split; [done |].
  assert (Hok : err = None ->
            Forall2 (fun number block => GetBlockByNumber number = Ok block)
              (AsyncFetch.blockNumbersRange from to) blocks).
  { intros ->. destruct (range_loop_ok _ _ _ _ _ _ _ _ _ Hloop)
      as (new & -> & Hrun & -> & Hend & Hlast).
    apply fetched_in_turn_stateless in Hrun. simpl.
    unfold AsyncFetch.blockNumbersRange.
    destruct new as [| b new].
    - simpl in *. rewrite seqZ_nil by lia. constructor.
    - specialize (Hlast ltac:(done)).
      by replace (to - from + 1) with (Z.of_nat (length (b :: new))) by lia. }
  split; [| split].
  - intros Herr. split; [by apply Hok |].
    unfold AsyncFetch.answers. symmetry. by apply answers_of_fetched, Hok.
  - intros e ->. destruct (range_loop_err _ _ _ _ _ _ _ _ _ _ Hloop)
      as (-> & before & s1 & Hrun & -> & Hle & Hfail).
    split; [done |]. exists (from + Z.of_nat (length before)).
    unfold stateless in Hfail. injection Hfail as Hfail _.
    split; [lia |]. split; [done |].
    intros number Hnumber. apply fetched_in_turn_stateless in Hrun.
    assert (Hin : number ∈ seqZ from (Z.of_nat (length before))).
    { apply elem_of_seqZ. lia. }
    apply list_elem_of_lookup in Hin as [k Hk].
    destruct (Forall2_lookup_l _ _ _ _ _ Hrun Hk) as (block & _ & Hblock). by eauto.
  - intros (number & e & Hnumber & Hfail) ->.
    specialize (Hok eq_refl).
    assert (Hin : number ∈ AsyncFetch.blockNumbersRange from to).
    { unfold AsyncFetch.blockNumbersRange. apply elem_of_seqZ. lia. }
    apply list_elem_of_lookup in Hin as [k Hk].
    destruct (Forall2_lookup_l _ _ _ _ _ Hok Hk) as (block & _ & Hblock). congruence.
Qed.

(** X14.  [FetchBlocksInRange] on a transport that answers by block
    number: it always returns; when it returns without error the blocks
    are those of the numbers [from], [from + 1], ..., [to], one per
    number in ascending order; when it returns an error there are no
    blocks, the error is that of the lowest failing number of the range
    and every number below it had been fetched; and it returns an error
    as soon as some number of the range fails. *)
Theorem X14_sequential_fetch (from to : Z) :
  exists blocks err,
    FetchBlocksInRange (stateless GetBlockByNumber) tt from to = Some (blocks, err, tt) /\
    (err = None ->
       Forall2 (fun number block => GetBlockByNumber number = Ok block)
         (AsyncFetch.blockNumbersRange from to) blocks /\
       blocks = AsyncFetch.answers GetBlockByNumber from to) /\
    (forall e,
        err = Some e ->
        blocks = [] /\
        exists failing,
          from <= failing <= to /\ GetBlockByNumber failing = Err e /\
          forall number, from <= number < failing ->
                         exists block, GetBlockByNumber number = Ok block) /\
    ((exists number e, from <= number <= to /\ GetBlockByNumber number = Err e) ->
     err <> None).
Proof. apply sequential_fetch_facts. Qed.

End StatelessFetch.

(** ** GetBlockByNumber on the transport *)

Section TransportCalls.
Import SequentialFetch.
Context {E raw : Type}.
Context (decode_block : raw -> result E (option BlockJson)) (rpc : Rpc.transport E raw).

Abbreviation get_block := (Rpc.GetBlockByNumber decode_block rpc).

(** What the [k]-th block of a run was made from: the first call for
    its number was answered, and the block is the decoded answer of the
    second call, with the same parameter. *)
Lemma fetched_in_turn_calls n i blocks n' :
  fetched_in_turn get_block n i blocks n' ->
  n' = (n + 2 * length blocks)%nat /\
  forall k block,
    blocks !! k = Some block ->
    (exists dropped,
        rpc (n + 2 * k)%nat "eth_getBlockByNumber" (toHex (i + Z.of_nat k)) = Ok dropped) /\
    exists rawResponse,
      rpc (n + 2 * k + 1)%nat "eth_getBlockByNumber" (toHex (i + Z.of_nat k))
      = Ok rawResponse /\
      decode_block rawResponse = Ok block.
Proof.
  induction 1 as [n i | n i block n1 blocks n' Hget Hrest [IHn IHk]].
  - split; [simpl; lia | done].
  - unfold Rpc.GetBlockByNumber in Hget. fold (toHex i) in Hget.
    destruct (rpc n "eth_getBlockByNumber" (toHex i)) as [dropped |] eqn:Hfirst; [| done].
    injection Hget as Hsecond <-.
    destruct (rpc (S n) "eth_getBlockByNumber" (toHex i)) as [rawResponse |] eqn:Hraw;
      [| done].
    split; [cbn [length]; lia |].
    intros [| k] b Hb.
    + injection Hb as <-. rewrite Z.add_0_r, Nat.mul_0_r, !Nat.add_0_r.
      split; [by eauto |]. exists rawResponse.
      by replace (n + 1)%nat with (S n) by lia.
    + destruct (IHk k b Hb) as [[dropped' Hd] (raw' & Hr & Hdec)].
      replace (S (S n) + 2 * k)%nat with (n + 2 * S k)%nat in * by lia.
      replace (i + 1 + Z.of_nat k) with (i + Z.of_nat (S k)) in * by lia.
      split; by eauto.
Qed.

(** X15.  [GetBlockByNumber] sends its request twice: when the first
    call fails it returns that error after one call; otherwise it makes
    a second call with the same method and parameter and returns what
    that one gives, the answer of the first being dropped.  A
    sequential fetch that succeeds therefore makes exactly two calls per
    block, and block [k] of its result is the decoded answer of call
    [2k + 1], asked for number [from + k], a nil pointer when that
    answer was [null]. *)
Theorem X15_two_calls_per_block (n : nat) (from to : Z)
  (blocks : list (option BlockJson)) (n' : nat)
  (Hfetch : FetchBlocksInRange get_block n from to = Some (blocks, None, n')) :
  (forall m number e,
      rpc m "eth_getBlockByNumber" (toHex number) = Err e ->
      get_block m number = (Err e, S m)) /\
  (forall m number dropped,
      rpc m "eth_getBlockByNumber" (toHex number) = Ok dropped ->
      get_block m number
      = (match rpc (S m) "eth_getBlockByNumber" (toHex number) with
         | Err e => Err e
         | Ok rawResponse => decode_block rawResponse
         end, S (S m))) /\
  n' = (n + 2 * length blocks)%nat /\
  length blocks = span from to /\
  forall k block,
    blocks !! k = Some block ->
    exists rawResponse,
      rpc (n + 2 * k + 1)%nat "eth_getBlockByNumber" (toHex (from + Z.of_nat k))
      = Ok rawResponse /\
      decode_block rawResponse = Ok block.
Proof.
  split; [| split].
  - intros m number e Hcall. unfold Rpc.GetBlockByNumber. fold (toHex number).
    by rewrite Hcall.
  - intros m number dropped Hcall. unfold Rpc.GetBlockByNumber. fold (toHex number).
    by rewrite Hcall.
  - unfold FetchBlocksInRange in Hfetch.
    destruct (range_loop get_block (span from to) n from to [])
      as [[[[blocks0 err0] n0] i'] |] eqn:Hloop; [| done].
    injection Hfetch as -> -> ->.
    destruct (range_loop_ok _ _ _ _ _ _ _ _ _ Hloop) as (new & -> & Hrun & -> & Hend & Hlast).
    simpl. destruct (fetched_in_turn_calls _ _ _ _ Hrun) as [Hn Hk].
    split; [done |]. split.
    + unfold span. destruct new as [| b new]; [simpl in *; lia |].
      specialize (Hlast ltac:(done)). lia.
    + intros k block Hb. by destruct (Hk k block Hb) as [_ Hsecond].
Qed.

End TransportCalls.

(** ** fetchBlocks and the caller's [from] *)

Section FetchBlocksAliasing.
Import SequentialFetch.
Context {Block E St : Type}.
Context (get : St -> Z -> result E Block * St).

(** On two objects the loop is that of [FetchBlocksInRange], with the
    caller's [from] as its counter. *)
Lemma fetch_loop_distinct fuel : forall s i to blocks,
  fetch_loop get fuel s (Distinct i to) blocks
  = match range_loop get fuel s i to blocks with
    | Some (blocks', err, s', i') => Some (blocks', err, s', Distinct i' to)
    | None => None
    end.
Proof.
  induction fuel as [| fuel IH]; intros s i to blocks; simpl.
  - by destruct (to <? i).
  - destruct (to <? i); [done |].
    destruct (get s i) as [[block | err] s1]; [| done]. apply IH.
Qed.

(** More fuel does not change what the loop returned. *)
Lemma range_loop_mono fuel : forall fuel' s i to blocks r,
  range_loop get fuel s i to blocks = Some r -> (fuel <= fuel')%nat ->
  range_loop get fuel' s i to blocks = Some r.
Proof.
  induction fuel as [| fuel IH]; intros fuel' s i to blocks r Hloop Hle; simpl in Hloop.
  - destruct (to <? i) eqn:Hend; [| done]. destruct fuel'; simpl; by rewrite Hend.
  - destruct fuel' as [| fuel']; [lia |]. simpl.
    destruct (to <? i); [done |].
    destruct (get s i) as [[block | err] s1]; [| done]. apply IH; [done | lia].
Qed.

(** On one object the loop condition compares the counter with itself:
    the loop goes on as long as the calls succeed. *)
Lemma fetch_loop_same_none fuel : forall s both blocks,
  (forall s1 number, both <= number -> exists block s2, get s1 number = (Ok block, s2)) ->
  fetch_loop get fuel s (Same both) blocks = None.
Proof.
  induction fuel as [| fuel IH]; intros s both blocks Hfine; simpl.
  - by rewrite Z.ltb_irrefl.
  - rewrite Z.ltb_irrefl. destruct (Hfine s both ltac:(lia)) as (block & s2 & ->).
    apply IH. intros s1 number Hnumber. apply Hfine. lia.
Qed.

Lemma fetch_loop_same_returns fuel : forall s both acc blocks err s' args',
  fetch_loop get fuel s (Same both) acc = Some (blocks, err, s', args') ->
  blocks = [] /\
  exists e before s1,
    err = Some e /\
    fetched_in_turn get s both before s1 /\
    args' = Same (both + Z.of_nat (length before)) /\
    get s1 (both + Z.of_nat (length before)) = (Err e, s').
Proof.
  induction fuel as [| fuel IH]; intros s both acc blocks err s' args' Hloop;
    simpl in Hloop; rewrite Z.ltb_irrefl in Hloop; [done |].
  destruct (get s both) as [[block | err0] s1] eqn:Hget.
  - destruct (IH _ _ _ _ _ _ _ Hloop) as (-> & e & before & s2 & -> & Hrun & -> & Hfail).
    split; [done |]. exists e, (block :: before), s2. cbn [length].
    replace (both + Z.of_nat (S (length before)))
      with (both + 1 + Z.of_nat (length before)) by lia.
    split; [done |]. split; [by econstructor | done].
  - injection Hloop as <- <- <- <-. split; [done |]. exists err0, [], s.
    simpl. rewrite Z.add_0_r. split; [done |]. split; [constructor | done].
Qed.

Lemma fetch_loop_same_fails before : forall fuel s both acc s1 e s',
  fetched_in_turn get s both before s1 ->
  get s1 (both + Z.of_nat (length before)) = (Err e, s') ->
  (length before < fuel)%nat ->
  fetch_loop get fuel s (Same both) acc
  = Some ([], Some e, s', Same (both + Z.of_nat (length before))).
Proof.
  induction before as [| block before IH]; intros fuel s both acc s1 e s' Hrun Hfail Hfuel;
    (destruct fuel as [| fuel]; [simpl in Hfuel; lia |]);
    simpl; rewrite Z.ltb_irrefl; inversion Hrun as [| ? ? ? s2 ? ? Hget Hrest]; subst.
  - simpl in Hfail. rewrite Z.add_0_r in Hfail. by rewrite Hfail, Z.add_0_r.
  - rewrite Hget. cbn [length] in *.
    replace (both + Z.of_nat (S (length before)))
      with (both + 1 + Z.of_nat (length before)) in * by lia.
    apply (IH fuel s2 (both + 1) _ s1 e s'); [done | done | lia].
Qed.

(** X16.  [fetchBlocks] counts with the caller's [from] itself.  Given
    two objects it returns the same blocks, error and transport state
    as [FetchBlocksInRange] and leaves [to] as it was, but afterwards
    the caller's [from] holds [to + 1] when a range with [from <= to]
    was fetched without error, the number whose call failed when there
    was an error, and its old value only when the range was empty
    ([to < from]), in which case no call was made.  Given one object for
    both [from] and [to], the loop condition always holds: the call
    returns only when a call of the transport fails, then with that
    error, no blocks and the object holding the failing number, which it
    reaches by fetching every number from [from] on in turn; as long as
    the transport answers, it never returns. *)
Theorem X16_fetchBlocks_moves_from (s : St) :
  (forall from to,
      exists blocks err s' from',
        (forall fuel, (span from to <= fuel)%nat ->
                      fetchBlocks get fuel s (Distinct from to)
                      = Some (blocks, err, s', Distinct from' to)) /\
        FetchBlocksInRange get s from to = Some (blocks, err, s') /\
        (err = None -> from <= to -> from' = to + 1) /\
        (to < from -> from' = from /\ blocks = [] /\ err = None /\ s' = s) /\
        (forall e, err = Some e ->
                   from <= from' <= to /\ exists s1, get s1 from' = (Err e, s'))) /\
  (forall both,
      (forall fuel blocks err s' args',
          fetchBlocks get fuel s (Same both) = Some (blocks, err, s', args') ->
          blocks = [] /\
          exists e before s1,
            err = Some e /\
            fetched_in_turn get s both before s1 /\
            args' = Same (both + Z.of_nat (length before)) /\
            get s1 (both + Z.of_nat (length before)) = (Err e, s')) /\
      (forall before s1 e s' fuel,
          fetched_in_turn get s both before s1 ->
          get s1 (both + Z.of_nat (length before)) = (Err e, s') ->
          (length before < fuel)%nat ->
          fetchBlocks get fuel s (Same both)
          = Some ([], Some e, s', Same (both + Z.of_nat (length before)))) /\
      ((forall s1 number, both <= number ->
                          exists block s2, get s1 number = (Ok block, s2)) ->
       forall fuel, fetchBlocks get fuel s (Same both) = None)).
Proof.
  split.
  - intros from to.
    destruct (range_loop_total get (span from to) s from to [])
      as [[[[blocks err] s'] from'] Hloop]; [unfold span; lia |].
    exists blocks, err, s', from'. unfold FetchBlocksInRange. rewrite Hloop.
    split; [| split; [done | split; [| split]]].
    + intros fuel Hfuel. unfold fetchBlocks. rewrite fetch_loop_distinct.
      by rewrite (range_loop_mono _ _ _ _ _ _ _ Hloop Hfuel).
    + intros -> Hrange.
      destruct (range_loop_ok _ _ _ _ _ _ _ _ _ Hloop)
        as (new & -> & Hrun & -> & Hend & Hlast).
      destruct new as [| b new]; [simpl in *; lia |]. by apply Hlast.
    + intros Hempty. unfold span in Hloop.
      replace (Z.to_nat (to - from + 1)) with 0%nat in Hloop by lia.
      simpl in Hloop. destruct (Z.ltb_spec to from); [| lia].
      by injection Hloop as <- <- <- <-.
    + intros e ->.
      destruct (range_loop_err _ _ _ _ _ _ _ _ _ _ Hloop)
        as (-> & before & s1 & Hrun & -> & Hle & Hfail).
      split; [lia |]. by exists s1.
  - intros both. split; [| split].
    + intros fuel blocks err s' args' Hloop. by eapply fetch_loop_same_returns.
    + intros before s1 e s' fuel Hrun Hfail Hfuel. by eapply fetch_loop_same_fails.
    + intros Hfine fuel. by apply fetch_loop_same_none.
Qed.

End FetchBlocksAliasing.

(** ** The two block fetches side by side *)

Section FetchPaths.
Import AsyncFetch.
Context {E : Type}.
Context (GetBlockByNumber : Z -> result E (option BlockJson)).
Context (from to : Z).

Lemma answers_fetched :
  AsyncFetch.no_failure GetBlockByNumber from to ->
  Forall2 (fun number block => GetBlockByNumber number = Ok block)
    (blockNumbersRange from to) (answers GetBlockByNumber from to).
Proof.
  unfold AsyncFetch.no_failure, answers. intros Hnf.
  induction (blockNumbersRange from to) as [| b l IH]; [constructor |].
  simpl. destruct (Hnf b) as [block Hblock]; [by left |].
  unfold block_of at 1. rewrite Hblock. simpl. constructor; [done |].
  apply IH. intros b' Hb'. apply Hnf. by right.
Qed.

Lemma sequential_no_failure :
  AsyncFetch.no_failure GetBlockByNumber from to ->
  SequentialFetch.FetchBlocksInRange (SequentialFetch.stateless GetBlockByNumber) tt from to
  = Some (answers GetBlockByNumber from to, None, tt).
Proof.
  intros Hnf.
  destruct (sequential_fetch_facts GetBlockByNumber from to)
    as (blocks & err & Hfetch & Hok & Herr & Hfail).
  rewrite Hfetch. destruct err as [e |].
  - destruct (Herr e eq_refl) as (_ & failing & Hrange & Hfailing & _).
    destruct (Hnf failing) as [block Hblock]; [| congruence].
    unfold blockNumbersRange. apply elem_of_seqZ. lia.
  - destruct (Hok eq_refl) as [_ ->]. done.
Qed.

(** The pointers fetched when every number of the range is answered
    with a block. *)
Lemma answers_pointers (blocks : list BlockJson) :
  Forall2 (fun number block => GetBlockByNumber number = Ok (Some block))
    (blockNumbersRange from to) blocks ->
  answers GetBlockByNumber from to = Some <$> blocks.
Proof.
  unfold answers. generalize (blockNumbersRange from to). intros numbers Hall.
  induction Hall as [| number block numbers blocks Hnumber Hrest IH]; [done |].
  simpl. unfold block_of at 1. rewrite Hnumber. simpl. by rewrite IH.
Qed.

(** A [null] answer within the range is one of the pointers fetched. *)
Lemma answers_null number :
  from <= number <= to -> GetBlockByNumber number = Ok None ->
  None ∈ answers GetBlockByNumber from to.
Proof.
  intros Hrange Hnull. unfold answers. apply list_elem_of_In, in_flat_map.
  exists number. split.
  - apply list_elem_of_In. unfold blockNumbersRange. apply elem_of_seqZ. lia.
  - unfold block_of. rewrite Hnull. by left.
Qed.

(** X17.  When no call of the range fails, the concurrent fetch, once
    settled, and the sequential fetch return the same block pointers
    without error, the concurrent one in some order and the sequential
    one in ascending block order.  [ParseBlocksAndTransactions] then
    ends the same way with [maxRequests > 1] as with [maxRequests <= 1]:
    it panics when some number of the range was answered [null]; and
    when every number was answered with a block it returns no error,
    one parsed block per number of the range, and the same parsed
    blocks and transactions up to order, in range order on the
    sequential path. *)
Theorem X17_fetch_paths_agree (maxRequests : Z)
  (Hnf : AsyncFetch.no_failure GetBlockByNumber from to) :
  (forall st,
      reachable GetBlockByNumber (Z.to_nat maxRequests) from to st ->
      settled st = true ->
      exists blocks,
        returned st = (blocks, None) /\
        SequentialFetch.FetchBlocksInRange (SequentialFetch.stateless GetBlockByNumber)
          tt from to = Some (answers GetBlockByNumber from to, None, tt) /\
        blocks ≡ₚ answers GetBlockByNumber from to) /\
  (forall outcome,
      ParseBlocksAndTransactions_outcome GetBlockByNumber from to maxRequests outcome ->
      (forall number,
          from <= number <= to -> GetBlockByNumber number = Ok None ->
          outcome = Panics) /\
      (forall blocks : list BlockJson,
          Forall2 (fun number block => GetBlockByNumber number = Ok (Some block))
            (blockNumbersRange from to) blocks ->
          exists parsedBlocks parsedTransactions,
            outcome = Returns (parsedBlocks, parsedTransactions, None) /\
            parsedBlocks ≡ₚ ToProtoSingleBlock <$> blocks /\
            parsedTransactions ≡ₚ flat_map parsed_transactions_of blocks /\
            length parsedBlocks = length (blockNumbersRange from to) /\
            (maxRequests <= 1 ->
             parsedBlocks = ToProtoSingleBlock <$> blocks /\
             parsedTransactions = flat_map parsed_transactions_of blocks))).
Proof.
  assert (Hasync : forall st,
             reachable GetBlockByNumber (Z.to_nat maxRequests) from to st ->
             settled st = true ->
             returned st = (blocks st, None) /\
             blocks st ≡ₚ answers GetBlockByNumber from to).
  { intros st Hreach Hsettled.
    pose proof (reachable_invariant _ _ _ _ st Hreach) as Hinv.
    destruct (settled_blocks _ _ _ _ st Hinv Hnf Hsettled) as [Hchan Hblocks].
    split; [| done]. unfold returned. by rewrite Hchan. }
  split.
  - intros st Hreach Hsettled. destruct (Hasync st Hreach Hsettled) as [Hret Hperm].
    exists (blocks st). split; [done |]. split; [| done]. by apply sequential_no_failure.
  - intros outcome Houtcome.
    destruct Houtcome as [st Hmax Hreach Hsettled | blocks0 err0 Hmax Hfetch].
    + destruct (Hasync st Hreach Hsettled) as [Hret Hperm]. rewrite Hret. split.
      * intros number Hrange Hnull. apply parse_fetched_nil.
        rewrite Hperm. by eapply answers_null.
      * intros fetched Hfetched. rewrite (answers_pointers fetched Hfetched) in Hperm.
        destruct (Permutation_map_inv Some fetched Hperm) as (inOrder & Hblocks & Hsame).
        change (map Some inOrder) with (Some <$> inOrder) in Hblocks.
        rewrite Hblocks, parse_fetched_blocks.
        exists (ToProtoSingleBlock <$> inOrder), (flat_map parsed_transactions_of inOrder).
        split; [done |]. split; [by rewrite Hsame |].
        split; [by rewrite Hsame |]. split; [| lia].
        rewrite length_fmap, <- Hsame. symmetry. by eapply Forall2_length.
    + rewrite sequential_no_failure in Hfetch by done. injection Hfetch as <- <-. split.
      * intros number Hrange Hnull. apply parse_fetched_nil. by eapply answers_null.
      * intros fetched Hfetched. rewrite (answers_pointers fetched Hfetched).
        rewrite parse_fetched_blocks.
        exists (ToProtoSingleBlock <$> fetched), (flat_map parsed_transactions_of fetched).
        split; [done |]. split; [done |]. split; [done |]. split; [| done].
        rewrite length_fmap. symmetry. by eapply Forall2_length.
Qed.

(** X18.  When the call of some number of the range fails,
    [ParseBlocksAndTransactions] can end in one way only, on either
    path: it returns no block and no transaction but the error of a
    failing number of the range, and it does not panic, no block being
    looked at; on the sequential path the error is that of the lowest
    failing number. *)
Theorem X18_parse_after_failure (maxRequests : Z) (failing : Z) (e0 : E)
  (Hfailing : from <= failing <= to) (He0 : GetBlockByNumber failing = Err e0)
  outcome
  (Houtcome : ParseBlocksAndTransactions_outcome GetBlockByNumber from to maxRequests
                outcome) :
  exists e number,
    outcome = Returns ([], [], Some e) /\
    from <= number <= to /\ GetBlockByNumber number = Err e /\
    (maxRequests <= 1 ->
     forall lower, from <= lower < number ->
                   exists block, GetBlockByNumber lower = Ok block).
Proof.
  assert (Hin : failing ∈ blockNumbersRange from to).
  { unfold blockNumbersRange. apply elem_of_seqZ. lia. }
  destruct Houtcome as [st Hmax Hreach Hsettled | blocks0 err0 Hmax Hfetch].
  - pose proof (reachable_invariant _ _ _ _ st Hreach) as Hinv.
    pose proof (settled_failure_recorded _ _ _ _ st failing e0 Hinv Hsettled Hin He0) as Hrec.
    pose proof (inv_errChan Hinv) as Hchan.
    destruct (failures st) as [| first later] eqn:Hf; [by apply elem_of_nil in Hrec |].
    unfold returned. rewrite Hchan. simpl.
    destruct (failures_are_transport_errors _ _ _ _ st first Hinv) as (number & Hnum & Herr).
    { rewrite Hf. by left. }
    exists first, number. split; [done |].
    unfold blockNumbersRange in Hnum. apply elem_of_seqZ in Hnum.
    split; [lia |]. split; [done |]. lia.
  - destruct (sequential_fetch_facts GetBlockByNumber from to)
      as (blocks & err1 & Hfetch1 & Hok & Herr & Hfail).
    rewrite Hfetch1 in Hfetch. injection Hfetch as <- <-.
    destruct err1 as [e |]; [| exfalso; apply Hfail; [by exists failing, e0 | done]].
    destruct (Herr e eq_refl) as (-> & number & Hrange & Hnumber & Hbelow).
    exists e, number. split; [done |]. split; [done |]. split; [done |].
    intros _. exact Hbelow.
Qed.

End FetchPaths.

(** ** Slots that are never given back *)

Section LostSlots.
Import AsyncFetch.
Context {BlockJson error : Type}.
Context (GetBlockByNumber : Z -> result error BlockJson) (maxRequests : nat).
Context (from to : Z).
Implicit Types (st : state BlockJson error).

Abbreviation step' := (step GetBlockByNumber maxRequests).

Lemma lost_le_sem st :
  AsyncFetch.invariant GetBlockByNumber maxRequests from to st ->
  (lost_slots st <= sem st)%nat /\ (sem st <= maxRequests)%nat.
Proof.
  intros Hinv. split; [| apply (inv_cap Hinv)].
  rewrite (inv_sem Hinv). apply count_if_le. intros [b p]. by destruct p as [| | | | | [|]].
Qed.

(** A step changes the goroutine it names and no other, and never
    takes a lost slot back. *)
Lemma fire_elsewhere i j st st' :
  fire GetBlockByNumber maxRequests i st = Some st' -> i <> j ->
  tasks st' !! j = tasks st !! j.
Proof.
  unfold fire, set_pc. intros Hfire Hne.
  destruct (tasks st !! i) as [[b p] |] eqn:Hi; [| done].
  destruct p as [| | block | getErr | | released]; simpl in *.
  - destruct (sem st <? maxRequests)%nat; [| done]. injection Hfire as <-. simpl.
    by apply list_lookup_insert_ne.
  - destruct (GetBlockByNumber b); injection Hfire as <-; simpl;
      by apply list_lookup_insert_ne.
  - injection Hfire as <-. simpl. by apply list_lookup_insert_ne.
  - injection Hfire as <-. simpl. by apply list_lookup_insert_ne.
  - destruct (sem st); [done |]. injection Hfire as <-. simpl.
    by apply list_lookup_insert_ne.
  - done.
Qed.

Lemma fire_lost_slots i st st' :
  fire GetBlockByNumber maxRequests i st = Some st' ->
  (lost_slots st <= lost_slots st')%nat.
Proof.
  unfold fire, set_pc, lost_slots. intros Hfire.
  destruct (tasks st !! i) as [[b p] |] eqn:Hi; [| done].
  destruct (insert_middle (tasks st) i (b, p) Hi) as (l1 & l2 & Hl & Hins).
  rewrite Hl, count_if_split.
  destruct p as [| | block | getErr | | released]; simpl in *.
  - destruct (sem st <? maxRequests)%nat; [| done]. injection Hfire as <-. simpl.
    rewrite Hins, count_if_split. simpl. lia.
  - destruct (GetBlockByNumber b); injection Hfire as <-; simpl;
      rewrite Hins, count_if_split; simpl; lia.
  - injection Hfire as <-. simpl. rewrite Hins, count_if_split. simpl. lia.
  - injection Hfire as <-. simpl. rewrite Hins, count_if_split. simpl. lia.
  - destruct (sem st); [done |]. injection Hfire as <-. simpl.
    rewrite Hins, count_if_split. simpl. lia.
  - done.
Qed.

Lemma spawned_stuck i b st :
  AsyncFetch.invariant GetBlockByNumber maxRequests from to st ->
  lost_slots st = maxRequests ->
  tasks st !! i = Some (b, Spawned) ->
  fire GetBlockByNumber maxRequests i st = None.
Proof.
  intros Hinv Hlost Hi. destruct (lost_le_sem st Hinv) as [Hle Hcap].
  unfold fire. rewrite Hi.
  destruct (Nat.ltb_spec (sem st) maxRequests); [lia | done].
Qed.

(** X19.  Once as many goroutines have failed as [sem] has slots, a
    goroutine that is still waiting for a slot waits for ever: in every
    state the call can reach from there it has not moved, so the call
    never settles and [FetchBlocksInRangeAsync] never returns. *)
Theorem X19_no_slot_no_return st st' (i : nat) (b : Z)
  (Hreach : reachable GetBlockByNumber maxRequests from to st)
  (Hlost : lost_slots st = maxRequests)
  (Hwaiting : tasks st !! i = Some (b, Spawned))
  (Hlater : rtc step' st st') :
  tasks st' !! i = Some (b, Spawned) /\ settled st' = false /\
  reachable GetBlockByNumber maxRequests from to st'.
Proof.
  assert (Hgoal : tasks st' !! i = Some (b, Spawned) /\
                  reachable GetBlockByNumber maxRequests from to st').
  { induction Hlater as [st | st st1 st' [j Hfire] _ IH]; [done |].
    pose proof (reachable_invariant _ _ _ _ st Hreach) as Hinv.
    assert (Hreach1 : reachable GetBlockByNumber maxRequests from to st1).
    { eapply reach_step; [exact Hreach | by exists j]. }
    pose proof (reachable_invariant _ _ _ _ st1 Hreach1) as Hinv1.
    apply IH; [done | |].
    - pose proof (fire_lost_slots j st st1 Hfire).
      destruct (lost_le_sem st1 Hinv1). lia.
    - destruct (decide (j = i)) as [-> | Hne].
      + rewrite (spawned_stuck i b st Hinv Hlost Hwaiting) in Hfire. done.
      + by rewrite (fire_elsewhere j i st st1 Hfire Hne). }
  destruct Hgoal as [Hstill Hreach']. split; [done |]. split; [| done].
  unfold settled. apply not_true_is_false. intros Hall.
  rewrite forallb_forall in Hall.
  specialize (Hall (b, Spawned)). rewrite <- list_elem_of_In in Hall.
  specialize (Hall (list_elem_of_lookup_2 _ _ _ Hstill)). done.
Qed.

Lemma failed_errors_length (l : list (Z * pc BlockJson error)) :
  Forall (task_ok GetBlockByNumber) l ->
  length (failed_errors GetBlockByNumber l) = count_if slot_lost l.
Proof.
  induction 1 as [| [b p] l Hok _ IH]; [done |].
  rewrite count_if_cons. unfold failed_errors in *. simpl. rewrite length_app, IH.
  unfold slot_lost. simpl. destruct p as [| | | | | [|]]; simpl; try done.
  unfold task_ok in Hok. simpl in Hok. destruct Hok as [e He].
  unfold error_of. by rewrite He.
Qed.

(** X20.  In every state of a call, as many slots of [sem] are lost as
    errors have reached the [select].  At the end, all goroutines having
    returned, [sem] holds exactly one item per failed call (and is empty
    only if none failed), and the blocks that had been appended number
    the calls that succeeded. *)
Theorem X20_slots_at_the_end st
  (Hreach : reachable GetBlockByNumber maxRequests from to st) :
  lost_slots st = length (failures st) /\
  (length (failures st) <= sem st)%nat /\
  (settled st = true ->
   sem st = length (failures st) /\
   (length (blocks st) + length (failures st))%nat = length (blockNumbersRange from to)).
Proof.
  pose proof (reachable_invariant _ _ _ _ st Hreach) as Hinv.
  assert (Hlost : lost_slots st = length (failures st)).
  { rewrite (inv_failures Hinv). symmetry. apply failed_errors_length, (inv_tasks Hinv). }
  split; [done |]. split; [rewrite <- Hlost; by apply lost_le_sem |].
  intros Hsettled.
  assert (Hexited : Forall (fun t => exists released, snd t = Exited released) (tasks st)).
  { rewrite Forall_forall. intros t Ht. by apply (settled_exited st). }
  pose proof (inv_tasks Hinv) as Hok.
  assert (Hcounts : count_if holds_slot (tasks st) = count_if slot_lost (tasks st) /\
                    (length (appended_blocks GetBlockByNumber (tasks st))
                     + count_if slot_lost (tasks st))%nat = length (tasks st)).
  { clear -Hexited Hok. induction (tasks st) as [| [b p] l IH]; [done |].
    apply Forall_cons in Hexited as [[released Hp] Hexited].
    apply Forall_cons in Hok as [Hb Hok].
    destruct (IH Hexited Hok) as [IH1 IH2]. simpl in Hp. subst p.
    rewrite !count_if_cons.
    assert (Hcons : length (appended_blocks GetBlockByNumber ((b, Exited released) :: l))
                    = ((if released
                        then length (block_of GetBlockByNumber b) else 0)
                       + length (appended_blocks GetBlockByNumber l))%nat).
    { unfold appended_blocks. simpl. rewrite length_app. by destruct released. }
    rewrite Hcons. cbn [length].
    destruct released.
    - unfold task_ok in Hb. simpl in Hb. destruct Hb as [block Hblock].
      unfold block_of. rewrite Hblock. cbn [length].
      change (holds_slot (b, Exited true)) with false.
      change (slot_lost (b, Exited true)) with false. split; lia.
    - change (holds_slot (b, Exited false)) with true.
      change (slot_lost (b, Exited false)) with true. split; lia. }
  destruct Hcounts as [Hholds Hsum]. split.
  - rewrite (inv_sem Hinv), Hholds. exact Hlost.
  - rewrite (inv_blocks Hinv), <- Hlost. unfold lost_slots. rewrite Hsum.
    by rewrite <- (inv_numbers Hinv), length_fmap.
Qed.

End LostSlots.

(** ** The batch decoders *)

Section BatchDecoders.
Context {error A : Type} (decode : string -> result error A).

Lemma decode_batch_ok data : forall acc decoded,
  decode_batch decode acc data = Ok decoded ->
  exists new, decoded = (acc ++ new)%list /\ Forall2 (fun d a => decode d = Ok a) data new.
Proof.
  induction data as [| d data IH]; intros acc decoded H; simpl in H.
  - injection H as <-. exists []. by rewrite app_nil_r.
  - destruct (decode d) as [a |] eqn:Hd; [| done].
    destruct (IH _ _ H) as (new & -> & Hnew).
    exists (a :: new). rewrite <- app_assoc. split; [done |]. by constructor.
Qed.

Lemma decode_batch_complete data new :
  Forall2 (fun d a => decode d = Ok a) data new ->
  forall acc, decode_batch decode acc data = Ok (acc ++ new)%list.
Proof.
  induction 1 as [| d a data new Hd _ IH]; intros acc; simpl.
  - by rewrite app_nil_r.
  - rewrite Hd, IH, <- app_assoc. reflexivity.
Qed.

Lemma decode_batch_first_error before : forall acc d after e,
  Forall (fun d' => exists a, decode d' = Ok a) before ->
  decode d = Err e ->
  decode_batch decode acc (before ++ d :: after) = Err e.
Proof.
  induction before as [| d0 before IH]; intros acc d after e Hbefore Hd; simpl.
  - by rewrite Hd.
  - apply Forall_cons in Hbefore as [[a Ha] Hbefore]. rewrite Ha. by apply IH.
Qed.

Lemma decode_batch_in_order :
  decodes_in_order decode (decode_batch decode []).
Proof.
  split; [| split].
  - intros before d after e. apply decode_batch_first_error.
  - intros data decoded. split.
    + intros H. by destruct (decode_batch_ok _ _ _ H) as (new & -> & Hnew).
    + intros H. by rewrite (decode_batch_complete data decoded H).
  - intros encode records Hround.
    rewrite (decode_batch_complete (encode <$> records) records); [done |].
    induction records as [| a records IH]; [constructor |].
    rewrite fmap_cons. constructor; [apply Hround | done].
Qed.

End BatchDecoders.

Section ProtoDecoders.
Context {error bytes : Type}.
Context (base64_DecodeString : string -> result error bytes)
        (Unmarshal_event : bytes -> result error XaiSepoliaEventLog)
        (Unmarshal_transaction : bytes -> result error XaiSepoliaTransaction)
        (Unmarshal_block : bytes -> result error XaiSepoliaBlock).

Lemma decode_events_loop_batch data : forall acc,
  LabelDecoder.decode_events_loop error bytes base64_DecodeString Unmarshal_event acc data
  = decode_batch (decode_record base64_DecodeString Unmarshal_event) acc data.
Proof.
  induction data as [| d data IH]; intros acc; [done |]. simpl. unfold decode_record.
  destruct (base64_DecodeString d) as [raw |]; [| done].
  destruct (Unmarshal_event raw); [apply IH | done].
Qed.

Lemma decode_transactions_loop_batch data : forall acc,
  LabelDecoder.decode_transactions_loop error bytes base64_DecodeString
    Unmarshal_transaction acc data
  = decode_batch (decode_record base64_DecodeString Unmarshal_transaction) acc data.
Proof.
  induction data as [| d data IH]; intros acc; [done |]. simpl. unfold decode_record.
  destruct (base64_DecodeString d) as [raw |]; [| done].
  destruct (Unmarshal_transaction raw); [apply IH | done].
Qed.

Lemma decode_blocks_loop_batch data : forall acc,
  BlockDecoder.decode_blocks_loop error bytes base64_DecodeString Unmarshal_block acc data
  = decode_batch (decode_record base64_DecodeString Unmarshal_block) acc data.
Proof.
  induction data as [| d data IH]; intros acc; [done |]. simpl. unfold decode_record.
  destruct (base64_DecodeString d) as [raw |]; [| done].
  destruct (Unmarshal_block raw); [apply IH | done].
Qed.

Lemma decodes_in_order_ext {A} (decode : string -> result error A) batch batch' :
  (forall data, batch' data = batch data) ->
  decodes_in_order decode batch -> decodes_in_order decode batch'.
Proof.
  intros Hext (Hfirst & Hok & Hround). split; [| split].
  - intros. rewrite Hext. by apply Hfirst.
  - intros. rewrite Hext. apply Hok.
  - intros. rewrite Hext. by apply Hround.
Qed.

(** X21.  [DecodeProtoEventLogs], [DecodeProtoTransactions] and
    [DecodeProtoBlocks] each decode their records in order through
    base64 and the binary decoder: the batch fails with the error of the
    first record that fails, whatever follows it; it succeeds exactly
    when every record decodes, giving the decoded records in input
    order, as many as there were records; and it returns the records an
    encoder was given whenever the record decoder undoes that encoder. *)
Theorem X21_batch_decoders :
  decodes_in_order (decode_record base64_DecodeString Unmarshal_event)
    (LabelDecoder.DecodeProtoEventLogs error bytes base64_DecodeString Unmarshal_event) /\
  decodes_in_order (decode_record base64_DecodeString Unmarshal_transaction)
    (LabelDecoder.DecodeProtoTransactions error bytes base64_DecodeString
       Unmarshal_transaction) /\
  decodes_in_order (decode_record base64_DecodeString Unmarshal_block)
    (BlockDecoder.DecodeProtoBlocks error bytes base64_DecodeString Unmarshal_block).
Proof.
  split; [| split].
  - eapply decodes_in_order_ext; [| apply decode_batch_in_order].
    intros data. apply decode_events_loop_batch.
  - eapply decodes_in_order_ext; [| apply decode_batch_in_order].
    intros data. apply decode_transactions_loop_batch.
  - eapply decodes_in_order_ext; [| apply decode_batch_in_order].
    intros data. apply decode_blocks_loop_batch.
Qed.

End ProtoDecoders.

(** ** The label decoders, success and precedence *)

Section LabelRows.
Context {error bytes ABI Args : Type}.
Context (base64_DecodeString : string -> result error bytes)
        (Unmarshal_event : bytes -> result error XaiSepoliaEventLog)
        (Unmarshal_transaction : bytes -> result error XaiSepoliaTransaction)
        (abi_JSON : string -> result error ABI)
        (DecodeLogArgsToLabelData : ABI -> list string -> string -> result error Args)
        (hex_DecodeString : string -> result error bytes)
        (DecodeTransactionInputDataToInterface : ABI -> bytes -> result error Args)
        (json_Marshal : Args -> result error string)
        (SeerCrawlerLabel : string)
        (blocksCache : gmap N N)
        (abiMap : gmap string (gmap string (gmap string string))).

Abbreviation events_to_labels :=
  (LabelDecoder.DecodeProtoEventsToLabels error bytes ABI Args base64_DecodeString
     Unmarshal_event abi_JSON DecodeLogArgsToLabelData json_Marshal SeerCrawlerLabel
     blocksCache abiMap).
Abbreviation transactions_to_labels :=
  (LabelDecoder.DecodeProtoTransactionsToLabels error bytes ABI Args
     base64_DecodeString Unmarshal_transaction abi_JSON hex_DecodeString
     DecodeTransactionInputDataToInterface json_Marshal SeerCrawlerLabel blocksCache
     abiMap).
Abbreviation label_of_transaction :=
  (LabelDecoder.transaction_label error bytes ABI Args abi_JSON hex_DecodeString
     DecodeTransactionInputDataToInterface json_Marshal SeerCrawlerLabel blocksCache
     abiMap).
Abbreviation label_of_event :=
  (LabelDecoder.event_label error ABI Args abi_JSON DecodeLogArgsToLabelData
     json_Marshal SeerCrawlerLabel blocksCache abiMap).

(** X22.  Both label decoders decode the whole batch before they look
    at any ABI: when a record fails base64 or binary decoding, the call
    returns the error of the first such record and no labels, whatever
    the ABI table holds and whatever the records before it are; in
    particular the transaction decoder then returns that error even
    when an earlier transaction has an input shorter than ten
    characters, on which it would otherwise panic. *)
Theorem X22_decoding_comes_first (before : list string) (d : string) (after : list string)
  (e : error)
  (Hbefore : Forall (fun d' => exists raw, base64_DecodeString d' = Ok raw) before) :
  ((forall d', d' ∈ before ->
               exists event, decode_record base64_DecodeString Unmarshal_event d' = Ok event) ->
   decode_record base64_DecodeString Unmarshal_event d = Err e ->
   events_to_labels (before ++ d :: after) = ([], Some e)) /\
  ((forall d', d' ∈ before ->
               exists transaction,
                 decode_record base64_DecodeString Unmarshal_transaction d' = Ok transaction) ->
   decode_record base64_DecodeString Unmarshal_transaction d = Err e ->
   transactions_to_labels (before ++ d :: after) = Returns ([], Some e)).
Proof.
  split.
  - intros Hdec Hd. unfold LabelDecoder.DecodeProtoEventsToLabels,
      LabelDecoder.DecodeProtoEventLogs.
    rewrite decode_events_loop_batch, (decode_batch_first_error _ before [] d after e);
      [done | | done].
    apply Forall_forall. intros d' Hin. by apply Hdec.
  - intros Hdec Hd. unfold LabelDecoder.DecodeProtoTransactionsToLabels,
      LabelDecoder.DecodeProtoTransactions.
    rewrite decode_transactions_loop_batch,
      (decode_batch_first_error _ before [] d after e); [done | | done].
    apply Forall_forall. intros d' Hin. by apply Hdec.
Qed.

(** The fields of the label made of one transaction. *)
Lemma transaction_label_fields transaction label :
  label_of_transaction transaction = Returns (Ok label) ->
  (10 <= String.length (tx_Input transaction))%nat /\
  tl_Address label = tx_ToAddress transaction /\
  tl_CallerAddress label = tx_FromAddress transaction /\
  tl_OriginAddress label = tx_FromAddress transaction /\
  tl_LabelType label = "tx_call" /\
  tl_Label label = SeerCrawlerLabel /\
  tl_LabelName label
  = abi_read abiMap (tx_ToAddress transaction) (GoString.take 10 (tx_Input transaction))
      "abi_name" /\
  tl_BlockNumber label = tx_BlockNumber transaction /\
  tl_BlockHash label = tx_BlockHash transaction /\
  tl_TransactionHash label = tx_Hash transaction /\
  tl_BlockTimestamp label = default 0%N (blocksCache !! tx_BlockNumber transaction) /\
  exists contractAbi inputData decodedArgs,
    abi_JSON (abi_read abiMap (tx_ToAddress transaction)
                (GoString.take 10 (tx_Input transaction)) "abi") = Ok contractAbi /\
    hex_DecodeString (GoString.drop 2 (tx_Input transaction)) = Ok inputData /\
    DecodeTransactionInputDataToInterface contractAbi inputData = Ok decodedArgs /\
    json_Marshal decodedArgs = Ok (tl_LabelData label).
Proof.
  unfold LabelDecoder.transaction_label, GoString.slice_to, GoString.slice_from.
  destruct (Nat.leb_spec 10 (String.length (tx_Input transaction))) as [Hlen |]; [| done].
  destruct (abi_JSON _) as [contractAbi |] eqn:Habi; [| done].
  destruct (Nat.leb_spec 2 (String.length (tx_Input transaction))); [| done].
  destruct (hex_DecodeString _) as [inputData |] eqn:Hhex; [| done].
  destruct (DecodeTransactionInputDataToInterface _ _) as [decodedArgs |] eqn:Hargs; [| done].
  destruct (json_Marshal _) as [labelDataString |] eqn:Hjson; [| done].
  intros [= <-]. simpl. repeat split; try done.
  by exists contractAbi, inputData, decodedArgs.
Qed.

Lemma transaction_labels_loop_ok decoded : forall acc labels,
  LabelDecoder.transaction_labels_loop error bytes ABI Args abi_JSON hex_DecodeString
    DecodeTransactionInputDataToInterface json_Marshal SeerCrawlerLabel blocksCache
    abiMap acc decoded = Returns (labels, None) ->
  exists new, labels = (acc ++ new)%list /\
              Forall2 (fun transaction label =>
                         label_of_transaction transaction = Returns (Ok label))
                decoded new.
Proof.
  induction decoded as [| transaction decoded IH]; intros acc labels H; simpl in H.
  - injection H as <-. exists []. by rewrite app_nil_r.
  - destruct (label_of_transaction transaction) as [[label | e] |] eqn:Hlabel; try done.
    destruct (IH _ _ H) as (new & -> & Hnew).
    exists (label :: new). rewrite <- app_assoc. split; [done |]. by constructor.
Qed.

Lemma transaction_labels_loop_error decoded : forall acc labels e,
  LabelDecoder.transaction_labels_loop error bytes ABI Args abi_JSON hex_DecodeString
    DecodeTransactionInputDataToInterface json_Marshal SeerCrawlerLabel blocksCache
    abiMap acc decoded = Returns (labels, Some e) ->
  labels = [].
Proof.
  induction decoded as [| transaction decoded IH]; intros acc labels e H; simpl in H;
    [done |].
  destruct (label_of_transaction transaction) as [[label | e0] |]; try done.
  - by eapply IH.
  - by injection H as <- _.
Qed.

(** X23.  When [DecodeProtoTransactionsToLabels] returns without error
    there is exactly one label per record, in input order, none being
    skipped; the label of a transaction has the transaction's [to] as
    address, its [from] as caller and as origin, type ["tx_call"], the
    configured label, the name the ABI table gives for [to] and the
    first ten characters of the input, the block timestamp the cache
    holds for the transaction's block number, or 0 when it holds none,
    and as data the JSON of the arguments decoded from the input
    without its first two characters.  When it returns an error it
    returns no labels. *)
Theorem X23_transaction_labels (transactions : list string)
  (labels : list TransactionLabel) (err : option error)
  (Hreturns : transactions_to_labels transactions = Returns (labels, err)) :
  (forall e, err = Some e -> labels = []) /\
  (err = None ->
   exists decoded,
     LabelDecoder.DecodeProtoTransactions error bytes base64_DecodeString
       Unmarshal_transaction transactions = Ok decoded /\
     length labels = length transactions /\
     Forall2
       (fun transaction label =>
          label_of_transaction transaction = Returns (Ok label) /\
          tl_Address label = tx_ToAddress transaction /\
          tl_CallerAddress label = tx_FromAddress transaction /\
          tl_OriginAddress label = tx_FromAddress transaction /\
          tl_LabelType label = "tx_call" /\
          tl_Label label = SeerCrawlerLabel /\
          tl_LabelName label
          = abi_read abiMap (tx_ToAddress transaction)
              (GoString.take 10 (tx_Input transaction)) "abi_name" /\
          tl_TransactionHash label = tx_Hash transaction /\
          tl_BlockTimestamp label
          = default 0%N (blocksCache !! tx_BlockNumber transaction))
       decoded labels).
Proof.
  unfold LabelDecoder.DecodeProtoTransactionsToLabels in Hreturns.
  destruct (LabelDecoder.DecodeProtoTransactions _ _ _ _ transactions)
    as [decoded | e0] eqn:Hdecode.
  - split.
    + intros e ->. by eapply transaction_labels_loop_error.
    + intros ->. destruct (transaction_labels_loop_ok _ _ _ Hreturns) as (new & -> & Hnew).
      exists decoded. split; [done |]. simpl.
      unfold LabelDecoder.DecodeProtoTransactions in Hdecode.
      rewrite decode_transactions_loop_batch in Hdecode.
      destruct (decode_batch_ok _ _ _ _ Hdecode) as (decoded' & -> & Hdec). simpl in *.
      split; [by rewrite <- (Forall2_length _ _ _ Hnew), <- (Forall2_length _ _ _ Hdec) |].
      eapply Forall2_impl; [exact Hnew |]. intros transaction label Hlabel.
      destruct (transaction_label_fields transaction label Hlabel)
        as (_ & ? & ? & ? & ? & ? & ? & _ & _ & ? & ? & _).
      by repeat split.
  - injection Hreturns as <- <-. split; [done | done].
Qed.

(** The fields of the label made of one event. *)
Lemma event_label_fields event topic label :
  label_of_event event topic = Ok label ->
  el_LabelType label = "event" /\
  el_Label label = SeerCrawlerLabel /\
  el_LabelName label = abi_read abiMap (ev_Address event) topic "abi_name" /\
  el_Address label = ev_Address event /\
  el_BlockNumber label = ev_BlockNumber event /\
  el_BlockHash label = ev_BlockHash event /\
  el_TransactionHash label = ev_TransactionHash event /\
  el_LogIndex label = ev_LogIndex event /\
  el_BlockTimestamp label = default 0%N (blocksCache !! ev_BlockNumber event) /\
  exists contractAbi decodedArgs,
    abi_JSON (abi_read abiMap (ev_Address event) topic "abi") = Ok contractAbi /\
    DecodeLogArgsToLabelData contractAbi (ev_Topics event) (ev_Data event) = Ok decodedArgs /\
    json_Marshal decodedArgs = Ok (el_LabelData label).
Proof.
  unfold LabelDecoder.event_label.
  destruct (abi_JSON _) as [contractAbi |] eqn:Habi; [| done].
  destruct (DecodeLogArgsToLabelData _ _ _) as [decodedArgs |] eqn:Hargs; [| done].
  destruct (json_Marshal _) as [labelDataString |] eqn:Hjson; [| done].
  intros [= <-]. simpl. repeat split; try done.
  by exists contractAbi, decodedArgs.
Qed.

(** X24.  Every label that [DecodeProtoEventsToLabels] returns was made
    of a decoded event with at least one topic: it has type ["event"],
    the configured label, the event's address, block number, block
    hash, transaction hash and log index, the name the ABI table gives
    for that address and the event's first topic, the block timestamp
    the cache holds for the event's block number, or 0 when it holds
    none, and as data the JSON of the arguments decoded from the
    event's topics and data. *)
Theorem X24_event_labels (events : list string) (labels : list EventLabel)
  (label : EventLabel)
  (Hreturns : events_to_labels events = (labels, None))
  (Hlabel : label ∈ labels) :
  exists decoded event topic more,
    LabelDecoder.DecodeProtoEventLogs error bytes base64_DecodeString Unmarshal_event
      events = Ok decoded /\
    event ∈ decoded /\ ev_Topics event = topic :: more /\
    el_LabelType label = "event" /\
    el_Label label = SeerCrawlerLabel /\
    el_LabelName label = abi_read abiMap (ev_Address event) topic "abi_name" /\
    el_Address label = ev_Address event /\
    el_BlockNumber label = ev_BlockNumber event /\
    el_BlockHash label = ev_BlockHash event /\
    el_TransactionHash label = ev_TransactionHash event /\
    el_LogIndex label = ev_LogIndex event /\
    el_BlockTimestamp label = default 0%N (blocksCache !! ev_BlockNumber event) /\
    exists contractAbi decodedArgs,
      abi_JSON (abi_read abiMap (ev_Address event) topic "abi") = Ok contractAbi /\
      DecodeLogArgsToLabelData contractAbi (ev_Topics event) (ev_Data event)
      = Ok decodedArgs /\
      json_Marshal decodedArgs = Ok (el_LabelData label).
Proof.
  unfold LabelDecoder.DecodeProtoEventsToLabels in Hreturns.
  destruct (LabelDecoder.DecodeProtoEventLogs _ _ _ _ events) as [decoded |] eqn:Hdecode;
    [| done].
  destruct (event_labels_loop_ok _ _ _ _ _ _ _ _ _ Hreturns) as (new & -> & Hnew).
  simpl in Hlabel. apply list_elem_of_lookup in Hlabel as [k Hk].
  destruct (Forall2_lookup_r _ _ _ _ _ Hnew Hk) as (event & Hevent & topic & more & Ht & Hl).
  exists decoded, event, topic, more. split; [done |].
  split.
  { apply list_elem_of_lookup_2 in Hevent. apply list_elem_of_In in Hevent.
    apply filter_In in Hevent as [Hin _]. by apply list_elem_of_In. }
  split; [done |]. by apply event_label_fields.
Qed.

End LabelRows.

(** ** CheckVariablesForIndexer *)

(** X25.  [CheckVariablesForIndexer] returns no error exactly when both
    [SEER_CRAWLER_INDEXER_LABEL] and [MOONSTREAM_DB_V3_INDEXES_URI] are
    set to non-empty values, and then the two package variables hold
    those values.  The label is checked first: when it is unset or
    empty the label variable has been overwritten with the empty string
    and the URI variable is left as it was, the URI not having been
    read.  The batch size is never changed. *)
Theorem X25_check_variables (env : gmap string string) (g : Indexer.globals) :
  let label := Indexer.Getenv env "SEER_CRAWLER_INDEXER_LABEL" in
  let uri := Indexer.Getenv env "MOONSTREAM_DB_V3_INDEXES_URI" in
  let '(err, g') := Indexer.CheckVariablesForIndexer env g in
  (err = None <-> label <> "" /\ uri <> "") /\
  (err = None ->
   Indexer.SeerCrawlerLabel g' = label /\ Indexer.MOONSTREAM_DB_V3_INDEXES_URI g' = uri) /\
  (label = "" ->
   err = Some "SEER_CRAWLER_INDEXER_LABEL environment variable is required" /\
   Indexer.SeerCrawlerLabel g' = "" /\
   Indexer.MOONSTREAM_DB_V3_INDEXES_URI g' = Indexer.MOONSTREAM_DB_V3_INDEXES_URI g) /\
  (label <> "" -> uri = "" ->
   err = Some "MOONSTREAM_DB_V3_INDEXES_URI environment variable is required" /\
   Indexer.SeerCrawlerLabel g' = label) /\
  (env !! "SEER_CRAWLER_INDEXER_LABEL" = None -> label = "") /\
  Indexer.InsertBatchSize g' = Indexer.InsertBatchSize g.
Proof.
  intros label uri. unfold Indexer.CheckVariablesForIndexer. simpl.
  fold label uri.
  assert (Hunset : env !! "SEER_CRAWLER_INDEXER_LABEL" = None -> label = "").
  { intros Hnone. unfold label, Indexer.Getenv. by rewrite Hnone. }
  destruct (String.eqb_spec label "") as [Hlabel | Hlabel]; simpl.
  - repeat split; try done. by intros [? _].
  - destruct (String.eqb_spec uri "") as [Huri | Huri]; simpl.
    + repeat split; try done. by intros [_ ?].
    + repeat split; done.
Qed.

(** ** The further properties at work on the samples *)

Lemma X5_parse_fetched_witness :
  (exists parsedBlocks parsedTransactions,
      parse_fetched (error := string) ([Some (Fixture.block_json "0x1")], None)
      = Returns (parsedBlocks, parsedTransactions, None) /\
      blk_Timestamp <$> parsedBlocks = [16%N] /\
      tr_BlockTimestamp <$> parsedTransactions = [16%N]) /\
  parse_fetched (error := string) ([Some (Fixture.block_json "0x1"); None], None) = Panics.
Proof.
  split.
  - destruct (X5_parse_fetched (E := string) [Some (Fixture.block_json "0x1")])
      as (_ & _ & _ & Hblocks).
    destruct (Hblocks [Fixture.block_json "0x1"] eq_refl) as (Hparse & _ & _).
    eexists _, _. split; [exact Hparse |]. by split.
  - destruct (X5_parse_fetched (E := string) [Some (Fixture.block_json "0x1"); None])
      as (_ & Hpanics & _).
    apply Hpanics. apply elem_of_cons. right. apply elem_of_cons. by left.
Defined.

Lemma sample_numbers_distinct : NoDup (blk_BlockNumber <$> Fixture.parsed_blocks).
Proof.
  change (NoDup [1%N; 2%N]). apply NoDup_cons. split; [| apply NoDup_singleton].
  intros Hin. apply list_elem_of_singleton in Hin. discriminate Hin.
Qed.

Lemma X6_blocks_cache_witness :
  cache_read (blocksCache_of Fixture.parsed_blocks) 2
  = {| bc_BlockNumber := 2; bc_BlockHash := "0xb0x2"; bc_BlockTimestamp := 16 |}.
Proof.
  destruct (X6_blocks_cache Fixture.parsed_blocks) as (_ & _ & Hhit).
  apply (Hhit sample_numbers_distinct
           (ToProtoSingleBlock (Fixture.block_json "0x2"))).
  right. left.
Defined.

Lemma X7_event_rows_on_block_cache_witness :
  exists row,
    eventsIndex (blocksCache_of Fixture.parsed_blocks)
      [ToProtoSingleEventLog (Fixture.event_json 2)] !! 0%nat = Some row /\
    li_BlockTimestamp row = 16%N.
Proof.
  destruct (X7_event_rows_on_block_cache Fixture.parsed_blocks
              [ToProtoSingleEventLog (Fixture.event_json 2)] 0
              (ToProtoSingleEventLog (Fixture.event_json 2)))
    as (row & Hrow & _ & _ & Hhit & _);
    [exact sample_numbers_distinct | reflexivity |].
  exists row. split; [exact Hrow |].
  apply (Hhit (ToProtoSingleBlock (Fixture.block_json "0x2"))); [right; left | reflexivity].
Defined.

Lemma X8_requests_bounded_witness :
  Z.of_nat (length (FilterLogs.requests (FilterLogs.enough 100 110)
                      (FilterLogs.capped one_log_per_block 4) 110 0
                      (FilterLogs.init 100 110))) <= 21.
Proof.
  destruct (X8_requests_bounded (FilterLogs.capped one_log_per_block 4) 100 110)
    as (Hcount & _ & _); [lia |]. exact Hcount.
Defined.

Lemma X9_answers_in_order_witness :
  FilterLogsTrace.ascending 100 110
    (FilterLogsTrace.answered (FilterLogs.enough 100 110)
       (FilterLogs.capped one_log_per_block 4) 110 0 (FilterLogs.init 100 110)).
Proof.
  destruct (X9_answers_in_order (FilterLogs.capped one_log_per_block 4) 100 110)
    as (Hasc & _ & _ & _); [lia |]. exact Hasc.
Defined.

Lemma X10_silent_loss_witness :
  FilterLogs.ClientFilterLogs Fixture.refuses_all 100 110 = Some ([], None).
Proof.
  apply (X10_silent_loss Fixture.refuses_all 100 110); [lia |].
  intros n a b. by exists FilterLogs.too_many_marker.
Defined.

Lemma X11_one_call_suffices_witness :
  FilterLogs.ClientFilterLogs (FilterLogs.capped one_log_per_block 4) 100 103
  = Some ([(100, 0); (101, 0); (102, 0); (103, 0)], None).
Proof.
  apply (X11_one_call_suffices (FilterLogs.capped one_log_per_block 4) 100 103).
  reflexivity.
Defined.

Lemma X12_single_block_cap_witness :
  FilterLogs.ClientFilterLogs (FilterLogs.capped one_log_per_block 1) 100 105
  = Some (FilterLogs.logs_between one_log_per_block 102 105, None).
Proof. apply (X12_single_block_cap one_log_per_block 100 105). lia. Defined.

Lemma X13_fetch_events_witness :
  FetchAsProtoEvents (FilterLogs.capped Fixture.chain_logs 2) 5 7 ∅
  = Some (ToProtoSingleEventLog <$> FilterLogs.logs_between Fixture.chain_logs 5 7,
          eventsIndex ∅
            (ToProtoSingleEventLog <$> FilterLogs.logs_between Fixture.chain_logs 5 7),
          None).
Proof.
  destruct (X13_fetch_events (FilterLogs.capped Fixture.chain_logs 2) 5 7 ∅)
    as (_ & _ & _ & Hcapped).
  apply (Hcapped Fixture.chain_logs 2); [lia | lia | reflexivity].
Defined.

Lemma X14_sequential_fetch_witness :
  exists blocks err,
    SequentialFetch.FetchBlocksInRange
      (SequentialFetch.stateless Fixture.block_two_fails) tt 1 3 = Some (blocks, err, tt) /\
    blocks = [] /\ err = Some "timeout".
Proof.
  destruct (X14_sequential_fetch Fixture.block_two_fails 1 3)
    as (blocks & err & Hfetch & _ & Herr & _).
  exists blocks, err. split; [exact Hfetch |].
  assert (Herr' : err = Some "timeout") by (by injection Hfetch as _ <-).
  split; [| exact Herr']. by destruct (Herr "timeout" Herr') as [-> _].
Defined.

Lemma X15_two_calls_per_block_witness :
  exists blocks,
    SequentialFetch.FetchBlocksInRange
      (Rpc.GetBlockByNumber Fixture.decode_block Fixture.echo) 0%nat 1 3
    = Some (blocks, None, 6%nat) /\
    length blocks = 3%nat.
Proof.
  eexists. split; [reflexivity |].
  destruct (X15_two_calls_per_block Fixture.decode_block Fixture.echo 0 1 3 _ 6 eq_refl)
    as (_ & _ & _ & Hlen & _).
  exact Hlen.
Defined.

Lemma X16_fetchBlocks_moves_from_witness :
  (exists blocks,
      SequentialFetch.fetchBlocks (SequentialFetch.stateless Fixture.every_block) 3 tt
        (SequentialFetch.Distinct 1 3)
      = Some (blocks, None, tt, SequentialFetch.Distinct 4 3)) /\
  SequentialFetch.fetchBlocks (SequentialFetch.stateless Fixture.block_two_fails) 5 tt
    (SequentialFetch.Same 1)
  = Some ([], Some "timeout", tt, SequentialFetch.Same 2) /\
  SequentialFetch.fetchBlocks (SequentialFetch.stateless Fixture.every_block) 50 tt
    (SequentialFetch.Same 1)
  = None.
Proof.
  split; [| split].
  - destruct (X16_fetchBlocks_moves_from (SequentialFetch.stateless Fixture.every_block) tt)
      as [Hdistinct _].
    destruct (Hdistinct 1 3) as (blocks & err & [] & from' & Hfetch & Hsame & Hmoved & _).
    assert (Herr : err = None) by (by injection Hsame as _ <-).
    exists blocks. rewrite (Hfetch 3%nat (le_n 3)), Herr.
    by rewrite (Hmoved Herr ltac:(lia)).
  - destruct (X16_fetchBlocks_moves_from
                (SequentialFetch.stateless Fixture.block_two_fails) tt) as [_ Hsame].
    destruct (Hsame 1) as (_ & Hfails & _).
    apply (Hfails [Fixture.block_json "0x1"] tt "timeout" tt 5%nat).
    + econstructor; [reflexivity | constructor].
    + reflexivity.
    + simpl. lia.
  - destruct (X16_fetchBlocks_moves_from (SequentialFetch.stateless Fixture.every_block) tt)
      as [_ Hsame].
    destruct (Hsame 1) as (_ & _ & Hnever).
    apply Hnever. intros [] number _. by eexists _, _.
Defined.

Lemma X17_fetch_paths_agree_witness :
  (exists parsedBlocks parsedTransactions,
      ParseBlocksAndTransactions_outcome Fixture.every_pointer 1 3 1
        (Returns (parsedBlocks, parsedTransactions, None)) /\
      blk_BlockNumber <$> parsedBlocks = [1%N; 2%N; 3%N]) /\
  exists outcome,
    ParseBlocksAndTransactions_outcome Fixture.pointer_two_null 1 3 1 outcome /\
    outcome = Panics.
Proof.
  split.
  - pose proof (parse_sequential Fixture.every_pointer 1 3 1 _ _ ltac:(lia) eq_refl)
      as Houtcome.
    destruct (X17_fetch_paths_agree Fixture.every_pointer 1 3 1) as [_ Hparsed].
    { intros b _. by eexists. }
    destruct (Hparsed _ Houtcome) as [_ Hblocks].
    destruct (Hblocks [Fixture.block_json "0x1"; Fixture.block_json "0x2";
                       Fixture.block_json "0x3"])
      as (parsedBlocks & parsedTransactions & Hreturns & _ & _ & _ & Hsequential).
    { repeat constructor. }
    exists parsedBlocks, parsedTransactions. rewrite <- Hreturns.
    split; [exact Houtcome |]. destruct (Hsequential ltac:(lia)) as [-> _]. reflexivity.
  - pose proof (parse_sequential Fixture.pointer_two_null 1 3 1 _ _ ltac:(lia) eq_refl)
      as Houtcome.
    eexists. split; [exact Houtcome |].
    destruct (X17_fetch_paths_agree Fixture.pointer_two_null 1 3 1) as [_ Hparsed].
    { intros b _. unfold Fixture.pointer_two_null. destruct (b =? 2); by eexists. }
    destruct (Hparsed _ Houtcome) as [Hnull _].
    apply (Hnull 2); [lia | reflexivity].
Defined.

Lemma X18_parse_after_failure_witness :
  exists outcome,
    ParseBlocksAndTransactions_outcome Fixture.pointer_two_fails 1 3 1 outcome /\
    outcome = Returns ([], [], Some "timeout").
Proof.
  pose proof (parse_sequential Fixture.pointer_two_fails 1 3 1 _ _ ltac:(lia) eq_refl)
    as Houtcome.
  eexists. split; [exact Houtcome |].
  destruct (X18_parse_after_failure Fixture.pointer_two_fails 1 3 1 2 "timeout"
              ltac:(lia) eq_refl _ Houtcome) as (e & number & Hreturns & _).
  rewrite Hreturns. by injection Hreturns as <-.
Defined.

Lemma X19_no_slot_no_return_witness :
  let st := AsyncFetch.run Sample.GetBlockByNumber 1 [1; 1; 1]%nat (AsyncFetch.init 1 3) in
  lost_slots st = 1%nat /\ AsyncFetch.settled st = false.
Proof.
  intros st. split; [reflexivity |].
  assert (Hreach : AsyncFetch.reachable Sample.GetBlockByNumber 1 1 3 st).
  { apply run_reachable, AsyncFetch.reach_init. }
  destruct (X19_no_slot_no_return Sample.GetBlockByNumber 1 1 3 st st 0 1
              Hreach eq_refl eq_refl (rtc_refl _ _)) as (_ & Hunsettled & _).
  exact Hunsettled.
Defined.

Lemma X20_slots_at_the_end_witness :
  let st := AsyncFetch.run Sample.GetBlockByNumber 2 Sample.one_after_another
              (AsyncFetch.init 1 3) in
  AsyncFetch.sem st = 1%nat /\ length (AsyncFetch.failures st) = 1%nat.
Proof.
  intros st.
  assert (Hreach : AsyncFetch.reachable Sample.GetBlockByNumber 2 1 3 st).
  { apply run_reachable, AsyncFetch.reach_init. }
  destruct (X20_slots_at_the_end Sample.GetBlockByNumber 2 1 3 st Hreach)
    as (_ & _ & Hend).
  destruct (Hend eq_refl) as [Hsem _]. split; [| reflexivity].
  rewrite Hsem. reflexivity.
Defined.

Lemma X21_batch_decoders_witness :
  LabelDecoder.DecodeProtoTransactions string string Sample.base64_DecodeString
    Sample.Unmarshal_transaction ["0x"; "!"; "0xa9059cbb"]
  = Err "illegal base64 data".
Proof.
  destruct (X21_batch_decoders Sample.base64_DecodeString Sample.Unmarshal_event
              Sample.Unmarshal_transaction
              (fun _ : string => Err "no block" : result string XaiSepoliaBlock))
    as (_ & (Hfirst & _) & _).
  apply (Hfirst ["0x"] "!" ["0xa9059cbb"]); [| reflexivity].
  repeat constructor. by eexists.
Defined.

Lemma X22_decoding_comes_first_witness :
  Sample.DecodeProtoTransactionsToLabels ["0x"; "!"] = Returns ([], Some "illegal base64 data").
Proof.
  destruct (X22_decoding_comes_first Sample.base64_DecodeString Sample.Unmarshal_event
              Sample.Unmarshal_transaction Sample.abi_JSON Sample.DecodeLogArgsToLabelData
              Sample.hex_DecodeString Sample.DecodeTransactionInputDataToInterface
              Sample.json_Marshal "seer" Sample.blocksCache Sample.abiMap
              ["0x"] "!" [] "illegal base64 data") as [_ Htx].
  { repeat constructor. by eexists. }
  apply Htx; [| reflexivity].
  intros d' Hin. apply list_elem_of_singleton in Hin as ->. by eexists.
Defined.

Lemma X23_transaction_labels_witness :
  exists labels,
    Fixture.DecodeProtoTransactionsToLabels ["0xa9059cbb00"] = Returns (labels, None) /\
    length labels = 1%nat.
Proof.
  eexists. split; [reflexivity |].
  destruct (X23_transaction_labels Sample.base64_DecodeString Sample.Unmarshal_transaction
              Sample.abi_JSON Sample.hex_DecodeString
              Sample.DecodeTransactionInputDataToInterface Sample.json_Marshal
              "seer" Sample.blocksCache Fixture.abiMap ["0xa9059cbb00"] _ None eq_refl)
    as [_ Hok].
  destruct (Hok eq_refl) as (decoded & _ & Hlen & _). exact Hlen.
Defined.

Lemma X24_event_labels_witness :
  exists labels label,
    Sample.DecodeProtoEventsToLabels [""; "0xt"] = (labels, None) /\
    label ∈ labels /\
    el_LabelType label = "event" /\ el_LabelName label = "Transfer".
Proof.
  eexists _, _. split; [reflexivity |]. split; [left |].
  destruct (X24_event_labels Sample.base64_DecodeString Sample.Unmarshal_event
              Sample.abi_JSON Sample.DecodeLogArgsToLabelData Sample.json_Marshal
              "seer" Sample.blocksCache Sample.abiMap [""; "0xt"] _ _ eq_refl
              (list_elem_of_here _ _))
    as (decoded & event & topic & more & _ & _ & _ & Htype & _).
  split; [exact Htype | reflexivity].
Defined.

Lemma X25_check_variables_witness :
  fst (Indexer.CheckVariablesForIndexer Fixture.environment Fixture.globals) = None /\
  Indexer.SeerCrawlerLabel
    (snd (Indexer.CheckVariablesForIndexer Fixture.environment Fixture.globals)) = "seer".
Proof.
  pose proof (X25_check_variables Fixture.environment Fixture.globals) as H.
  cbv zeta in H.
  destruct (Indexer.CheckVariablesForIndexer Fixture.environment Fixture.globals)
    as [err g'] eqn:Hcheck.
  destruct H as ([_ Hnone] & Hvalues & _).
  assert (Herr : err = None) by (apply Hnone; by split).
  split; [exact Herr |]. destruct (Hvalues Herr) as [Hlabel _]. exact Hlabel.
Defined.

(** ** The rows of the transaction index *)

Lemma take_length n : forall s,
  (n <= String.length s)%nat -> String.length (GoString.take n s) = n.
Proof.
  unfold GoString.take. induction n as [| n IH]; intros s Hn.
  - by destruct s.
  - destruct s as [| c s]; [simpl in Hn; lia |]. simpl. rewrite IH; [done |].
    simpl in Hn. lia.
Qed.

Lemma substring_all : forall s, substring 0 (String.length s) s = s.
Proof. induction s as [| c s IH]; [done |]. simpl. by rewrite IH. Qed.

Lemma take_drop n : forall s,
  (n <= String.length s)%nat -> GoString.take n s +:+ GoString.drop n s = s.
Proof.
  unfold GoString.take, GoString.drop. induction n as [| n IH]; intros s Hn.
  - rewrite Nat.sub_0_r, substring_all. by destruct s.
  - destruct s as [| c s]; [simpl in Hn; lia |].
    change (substring 0 (S n) (String c s)) with (String c (substring 0 n s)).
    change (substring (S n) (String.length (String c s) - S n) (String c s))
      with (substring n (String.length s - n) s).
    rewrite append_cons, IH; [done |]. simpl in Hn. lia.
Qed.

(** X26.  The transaction index of [FetchAsProtoBlocks] has one row per
    parsed transaction, in order; row [i] carries row id [i], an empty
    path and the transaction's hash, addresses, block data, index and
    type; its selector is ["0x"] when the input has at most ten
    characters and otherwise the first ten characters of the input, so
    that a selector is always 2 or 10 characters long and, in the long
    case, a prefix of the input. *)
Theorem X26_transaction_rows (parsedTransactions : list XaiSepoliaTransactionRecord)
  (i : nat) (transaction : XaiSepoliaTransactionRecord)
  (Hi : parsedTransactions !! i = Some transaction) :
  length (transactionIndex_of parsedTransactions) = length parsedTransactions /\
  exists row,
    transactionIndex_of parsedTransactions !! i = Some row /\
    ti_RowID row = N.of_nat i /\ ti_Path row = "" /\
    ti_TransactionHash row = tr_Hash transaction /\
    ti_FromAddress row = tr_FromAddress transaction /\
    ti_ToAddress row = tr_ToAddress transaction /\
    ti_BlockNumber row = tr_BlockNumber transaction /\
    ti_BlockHash row = tr_BlockHash transaction /\
    ti_BlockTimestamp row = tr_BlockTimestamp transaction /\
    ti_TransactionIndex row = tr_TransactionIndex transaction /\
    ti_Type row = tr_TransactionType transaction /\
    ((String.length (tr_Input transaction) <= 10)%nat -> ti_Selector row = "0x") /\
    ((10 < String.length (tr_Input transaction))%nat ->
     String.length (ti_Selector row) = 10%nat /\
     tr_Input transaction
     = ti_Selector row +:+ GoString.drop 10 (tr_Input transaction)) /\
    (String.length (ti_Selector row) = 2%nat \/ String.length (ti_Selector row) = 10%nat).
Proof.
  unfold transactionIndex_of. split; [by rewrite transactionIndex_length, length_fmap |].
  exists (transactionIndexRow i (row_fields transaction)).
  split; [apply transactionIndex_lookup; by rewrite list_lookup_fmap, Hi |].
  destruct (tx_selector_cases (tr_Input transaction)) as [Hshort Hlong].
  do 10 (split; [done |]). simpl. split; [exact Hshort |]. split.
  - intros Hlen. rewrite (Hlong Hlen). split; [apply take_length; lia |].
    symmetry. apply take_drop. lia.
  - destruct (Nat.le_gt_cases (String.length (tr_Input transaction)) 10) as [Hle | Hgt].
    + left. by rewrite (Hshort Hle).
    + right. rewrite (Hlong Hgt). apply take_length. lia.
Qed.

Lemma X26_transaction_rows_witness :
  exists row,
    transactionIndex_of [ToProtoSingleTransaction (Fixture.tx_json "0xa9059cbb00ff")]
      !! 0%nat = Some row /\
    ti_Selector row = "0xa9059cbb".
Proof.
  destruct (X26_transaction_rows
              [ToProtoSingleTransaction (Fixture.tx_json "0xa9059cbb00ff")] 0
              (ToProtoSingleTransaction (Fixture.tx_json "0xa9059cbb00ff")) eq_refl)
    as (_ & row & Hrow & _).
  exists row. split; [exact Hrow |]. by injection Hrow as <-.
Defined.

(** ** The error text that narrows the window *)

Lemma string_length_append s : forall t,
  String.length (s +:+ t) = (String.length s + String.length t)%nat.
Proof.
  induction s as [| c s IH]; intros t; [done |].
  rewrite append_cons. simpl. by rewrite IH.
Qed.

Lemma has_prefix_spec p : forall s,
  GoString.has_prefix p s = true <-> exists rest, s = p +:+ rest.
Proof.
  induction p as [| a p IH]; intros s; simpl.
  - split; [by exists s | done].
  - destruct s as [| b s].
    + split; [done | by intros [rest Hrest]].
    + destruct (Ascii.eqb_spec a b) as [-> | Hne].
      * rewrite IH. split; intros [rest Hrest]; exists rest.
        -- by rewrite append_cons, <- Hrest.
        -- rewrite append_cons in Hrest. by injection Hrest.
      * split; [done |]. intros [rest Hrest]. rewrite append_cons in Hrest.
        by injection Hrest as Hab _.
Qed.

Lemma contains_spec sub : forall s,
  GoString.contains s sub = true <-> exists pre post, s = pre +:+ sub +:+ post.
Proof.
  induction s as [| c s IH].
  - simpl. destruct (GoString.has_prefix sub EmptyString) eqn:Hp.
    + apply has_prefix_spec in Hp as [rest Hrest]. split; [| done].
      intros _. by exists EmptyString, rest.
    + split; [done |]. intros (pre & post & Heq).
      destruct pre; [| done]. assert (GoString.has_prefix sub EmptyString = true); [| congruence].
      apply has_prefix_spec. by exists post.
  - simpl. destruct (GoString.has_prefix sub (String c s)) eqn:Hp.
    + apply has_prefix_spec in Hp as [rest Hrest]. split; [| done].
      intros _. by exists EmptyString, rest.
    + rewrite IH. split.
      * intros (pre & post & ->). by exists (String c pre), post.
      * intros (pre & post & Heq). destruct pre as [| c' pre].
        -- assert (GoString.has_prefix sub (String c s) = true); [| congruence].
           apply has_prefix_spec. by exists post.
        -- rewrite append_cons in Heq. injection Heq as _ ->. by exists pre, post.
Qed.

(** X27.  The loop takes its too-many-results branch exactly on the
    error messages that have the text
    ["query returned more than 10000 results"] somewhere in them,
    whatever comes before or after: on those it goes on or ends without
    an error, with the logs gathered so far unchanged.  Every other
    error message, one shorter than that text for instance, ends the
    fetch with that message. *)
Theorem X27_marker_anywhere {EventJson : Type} (toBlock : Z)
  (st : FilterLogs.loop_state EventJson) (msg : string) :
  (FilterLogs.too_many msg = true
   <-> exists pre post, msg = pre +:+ FilterLogs.too_many_marker +:+ post) /\
  ((exists pre post, msg = pre +:+ FilterLogs.too_many_marker +:+ post) ->
   exists st', FilterLogs.state_of (FilterLogs.iteration toBlock st (FilterLogs.RpcErr msg))
               = Some st' /\ FilterLogs.logs st' = FilterLogs.logs st) /\
  (~ (exists pre post, msg = pre +:+ FilterLogs.too_many_marker +:+ post) ->
   FilterLogs.iteration toBlock st (FilterLogs.RpcErr msg) = FilterLogs.Abort msg) /\
  ((String.length msg < String.length FilterLogs.too_many_marker)%nat ->
   FilterLogs.iteration toBlock st (FilterLogs.RpcErr msg) = FilterLogs.Abort msg).
Proof.
  assert (Hspec : FilterLogs.too_many msg = true
                  <-> exists pre post, msg = pre +:+ FilterLogs.too_many_marker +:+ post).
  { unfold FilterLogs.too_many. apply contains_spec. }
  assert (Hother : ~ (exists pre post, msg = pre +:+ FilterLogs.too_many_marker +:+ post) ->
                   FilterLogs.iteration toBlock st (FilterLogs.RpcErr msg)
                   = FilterLogs.Abort msg).
  { intros Hnot. unfold FilterLogs.iteration.
    destruct (FilterLogs.too_many msg) eqn:Hm; [| done]. exfalso. by apply Hnot, Hspec. }
  split; [exact Hspec |]. split; [| split; [exact Hother |]].
  - intros Hmarker. apply Hspec in Hmarker. unfold FilterLogs.iteration. rewrite Hmarker.
    cbn [FilterLogs.fromBlock FilterLogs.batchStep FilterLogs.logs].
    destruct (_ <? 1); [destruct (_ <? _) |]; by eexists.
  - intros Hshort. apply Hother. intros (pre & post & ->).
    rewrite !string_length_append in Hshort. lia.
Qed.

Lemma X27_marker_anywhere_witness :
  FilterLogs.too_many
    "rpc error: query returned more than 10000 results. Try a smaller range" = true.
Proof.
  destruct (X27_marker_anywhere (EventJson := unit) 10 (FilterLogs.init 0 10)
              "rpc error: query returned more than 10000 results. Try a smaller range")
    as [Hspec _].
  apply Hspec. by exists "rpc error: ", ". Try a smaller range".
Defined.

(** ** The order of the blocks of the concurrent fetch *)

Section AnyOrder.
Import AsyncFetch.
Context {BlockJson error : Type}.
Context (GetBlockByNumber : Z -> result error BlockJson) (maxRequests : nat).
Context (from to : Z).
Implicit Types (st : state BlockJson error).

(** A goroutine that finds a free slot can run from its start to its
    end with no other goroutine moving in between. *)
Lemma task_runs_alone st i b block :
  reachable GetBlockByNumber maxRequests from to st ->
  tasks st !! i = Some (b, Spawned) ->
  (sem st < maxRequests)%nat ->
  GetBlockByNumber b = Ok block ->
  reachable GetBlockByNumber maxRequests from to
    {| tasks := <[i := (b, Exited true)]> (tasks st); sem := sem st;
       errChan := errChan st; blocks := blocks st ++ [block];
       failures := failures st |}.
Proof.
  intros Hreach Hi Hsem Hcall.
  assert (Hlt : (i < length (tasks st))%nat) by (eapply lookup_lt_Some; eauto).
  set (st1 := {| tasks := <[i := (b, Calling)]> (tasks st); sem := S (sem st);
                 errChan := errChan st; blocks := blocks st;
                 failures := failures st |}).
  set (st2 := {| tasks := <[i := (b, Got block)]> (tasks st); sem := S (sem st);
                 errChan := errChan st; blocks := blocks st;
                 failures := failures st |}).
  set (st3 := {| tasks := <[i := (b, Appended)]> (tasks st); sem := S (sem st);
                 errChan := errChan st; blocks := blocks st ++ [block];
                 failures := failures st |}).
  assert (H1 : fire GetBlockByNumber maxRequests i st = Some st1).
  { unfold fire. rewrite Hi.
    by destruct (Nat.ltb_spec (sem st) maxRequests); [| lia]. }
  assert (H2 : fire GetBlockByNumber maxRequests i st1 = Some st2).
  { unfold fire, set_pc, st1. simpl. rewrite list_lookup_insert_eq by done.
    rewrite Hcall. simpl. by rewrite list_insert_insert_eq. }
  assert (H3 : fire GetBlockByNumber maxRequests i st2 = Some st3).
  { unfold fire, set_pc, st2. simpl. rewrite list_lookup_insert_eq by done.
    simpl. by rewrite list_insert_insert_eq. }
  eapply reach_step; [eapply reach_step; [eapply reach_step; [eapply reach_step |] |] |].
  - exact Hreach.
  - exists i. exact H1.
  - exists i. exact H2.
  - exists i. exact H3.
  - exists i. unfold fire, set_pc, st3. simpl. rewrite list_lookup_insert_eq by done.
    simpl. by rewrite list_insert_insert_eq.
Qed.

Lemma finished_in_order_nil :
  finished_in_order GetBlockByNumber from to [] = init from to.
Proof.
  reflexivity.
Qed.

Lemma finished_in_order_snoc order b block :
  b ∈ blockNumbersRange from to -> b ∉ order ->
  GetBlockByNumber b = Ok block ->
  finished_in_order GetBlockByNumber from to (order ++ [b])
  = {| tasks := <[Z.to_nat (b - from) := (b, Exited true)]>
                  (tasks (finished_in_order GetBlockByNumber from to order));
       sem := 0; errChan := None;
       blocks := blocks (finished_in_order GetBlockByNumber from to order) ++ [block];
       failures := [] |}.
Proof.
  intros Hin Hnew Hcall. unfold finished_in_order. simpl.
  unfold blockNumbersRange in *. apply elem_of_seqZ in Hin.
  assert (Hb : seqZ from (to - from + 1) !! Z.to_nat (b - from) = Some b).
  { apply lookup_seqZ. lia. }
  f_equal.
  - apply list_eq. intros j. destruct (decide (j = Z.to_nat (b - from))) as [-> | Hne].
    + rewrite list_lookup_insert_eq.
      * rewrite list_lookup_fmap, Hb. simpl.
        rewrite bool_decide_eq_true_2; [done |]. apply elem_of_app. right.
        by apply list_elem_of_singleton.
      * rewrite length_fmap. by eapply lookup_lt_Some.
    + rewrite list_lookup_insert_ne by done. rewrite !list_lookup_fmap.
      destruct (seqZ from (to - from + 1) !! j) as [b' |] eqn:Hj; [| done]. simpl.
      assert (b' <> b).
      { intros ->. apply Hne. by eapply (NoDup_lookup _ _ _ b (NoDup_seqZ _ _)). }
      rewrite (bool_decide_ext (b' ∈ (order ++ [b])%list) (b' ∈ order)); [done |].
      rewrite elem_of_app, list_elem_of_singleton. tauto.
  - rewrite flat_map_app. simpl. unfold block_of at 2. rewrite Hcall. by rewrite app_nil_r.
Qed.

Lemma finished_in_order_reachable :
  (1 <= maxRequests)%nat ->
  forall order,
    NoDup order ->
    (forall b, b ∈ order ->
       b ∈ blockNumbersRange from to /\ exists block, GetBlockByNumber b = Ok block) ->
    reachable GetBlockByNumber maxRequests from to
      (finished_in_order GetBlockByNumber from to order).
Proof.
  intros Hcap order. induction order as [| b order IH] using rev_ind; intros Hnodup Hall.
  - rewrite finished_in_order_nil. constructor.
  - apply NoDup_app in Hnodup as (Hnodup & Hnew & _).
    destruct (Hall b) as [Hin [block Hcall]].
    { apply elem_of_app. right. by apply list_elem_of_singleton. }
    assert (Hb : b ∉ order).
    { intros Hb. apply (Hnew b Hb). by apply list_elem_of_singleton. }
    rewrite (finished_in_order_snoc order b block Hin Hb Hcall).
    apply (task_runs_alone (finished_in_order GetBlockByNumber from to order)
             (Z.to_nat (b - from)) b block).
    + apply IH; [done |]. intros b' Hb'. apply Hall, elem_of_app. by left.
    + unfold finished_in_order. simpl. rewrite list_lookup_fmap.
      unfold blockNumbersRange in *. apply elem_of_seqZ in Hin.
      replace (seqZ from (to - from + 1) !! Z.to_nat (b - from)) with (Some b)
        by (symmetry; apply lookup_seqZ; lia).
      simpl. by rewrite bool_decide_eq_false_2.
    + simpl. lia.
    + exact Hcall.
Qed.

(** X28.  The order of the blocks [FetchBlocksInRangeAsync] returns is
    not fixed by the call: when no call of the range fails and
    [maxRequests] is at least one, every ordering of the block numbers
    of the range is the order of the result of some run, which reaches
    [wg.Wait()] with every goroutine returned and returns the blocks in
    that order with no error. *)
Theorem X28_any_order
  (Hcap : (1 <= maxRequests)%nat)
  (Hfine : no_failure GetBlockByNumber from to)
  (order : list Z) (Horder : order ≡ₚ blockNumbersRange from to) :
  exists st,
    reachable GetBlockByNumber maxRequests from to st /\
    settled st = true /\
    sem st = 0%nat /\
    returned st = (flat_map (block_of GetBlockByNumber) order, None).
Proof.
  exists (finished_in_order GetBlockByNumber from to order).
  split; [| split; [| done]].
  - apply finished_in_order_reachable; [done | |].
    + rewrite Horder. apply NoDup_seqZ.
    + intros b Hb. rewrite Horder in Hb. split; [done |]. by apply Hfine.
  - unfold settled, finished_in_order. simpl. apply forallb_forall.
    intros t Ht. apply list_elem_of_In, list_elem_of_fmap in Ht as (b & -> & Hb).
    rewrite bool_decide_eq_true_2; [done |]. by rewrite Horder.
Qed.

End AnyOrder.

Lemma X28_any_order_witness :
  exists st,
    AsyncFetch.reachable Fixture.every_block 1 1 3 st /\
    AsyncFetch.settled st = true /\
    AsyncFetch.returned st
    = ([Fixture.block_json "0x3"; Fixture.block_json "0x1"; Fixture.block_json "0x2"],
       None).
Proof.
  assert (Hfine : AsyncFetch.no_failure Fixture.every_block 1 3).
  { intros b _. by eexists. }
  assert (Horder : [3; 1; 2] ≡ₚ AsyncFetch.blockNumbersRange 1 3).
  { change (AsyncFetch.blockNumbersRange 1 3) with [1; 2; 3].
    exact (Permutation_cons_append [1; 2] 3). }
  destruct (X28_any_order Fixture.every_block 1 1 3 (le_n 1) Hfine [3; 1; 2] Horder)
    as (st & Hreach & Hsettled & _ & Hreturned).
  exists st. repeat split; [exact Hreach | exact Hsettled | exact Hreturned].
Defined.
